(** * scholar_webpages_to_singlepage_pdf.py: a shallow embedding

    The script prints a sequence of web pages to single tall-page PDFs
    through one browser session and merges them.  This development
    embeds its functions ([safe_name], [merge_pdfs],
    [compute_full_height_inches], [print_one_page_pdf],
    [build_urls_from_range], [read_urls_from_file] and [main] from the
    choice of the URLs to the merge) and proves the properties its
    specification states about them, and further properties that the
    code shows. *)

From Stdlib Require Import ZArith NArith QArith Qround Qpower Qabs Lqa.
From Stdlib Require Import List Bool Lia String Ascii.
From Stdlib Require Import DecimalString.
From Stdlib Require DecimalPos DecimalZ Uint63.
From Corelib Require PrimFloat FloatOps SpecFloat.
From stdpp Require Import base option list gmap.

Import ListNotations.
Local Open Scope Z_scope.

(* ===================================================================== *)
(** * Python strings *)
(* ===================================================================== *)

(** A Python [str] is a sequence of Unicode code points.  Slicing,
    [strip], [split] and the [re] character classes all work code point
    by code point, so a string is a list of code points here. *)
Module PyStr.

Definition char := N.
Definition str := list char.

(** The code points of a literal, written as a Rocq string of ASCII
    characters. *)
Definition lit (s : string) : str :=
  List.map N_of_ascii (list_ascii_of_string s).

(** [c.isspace()]: the code points [str.strip()] removes. *)
Definition isspace (c : char) : bool :=
  ((9 <=? c) && (c <=? 13) || (28 <=? c) && (c <=? 32)
   || (c =? 133) || (c =? 160) || (c =? 5760)
   || (8192 <=? c) && (c <=? 8202)
   || (c =? 8232) || (c =? 8233) || (c =? 8239) || (c =? 8287)
   || (c =? 12288))%N.

Fixpoint lstrip (s : str) : str :=
  match s with
  | c :: s' => if isspace c then lstrip s' else s
  | [] => []
  end.

Definition rstrip (s : str) : str := rev (lstrip (rev s)).

(** [s.strip()] *)
Definition strip (s : str) : str := lstrip (rstrip s).

Fixpoint startswith (p s : str) : bool :=
  match p, s with
  | [], _ => true
  | a :: p', b :: s' => (a =? b)%N && startswith p' s'
  | _ :: _, [] => false
  end.

(** [s.split(sep)] for a non-empty [sep]: a left-to-right scan for
    non-overlapping occurrences.  [skip] counts the characters of the
    occurrence just matched that are still to be passed over, [cur] is
    the current field, reversed. *)
Fixpoint split_scan (sep : str) (skip : nat) (cur : str) (s : str) : list str :=
  match s with
  | [] => [rev cur]
  | c :: s' =>
      match skip with
      | S k => split_scan sep k cur s'
      | O =>
          if startswith sep s
          then rev cur :: split_scan sep (Nat.pred (length sep)) [] s'
          else split_scan sep O (c :: cur) s'
      end
  end.

Definition split (sep s : str) : list str := split_scan sep O [] s.

(** [fields[-1]] of a list that [split] returned (never empty). *)
Definition last_field (fields : list str) : str := List.last fields [].

(** [sep.join(fields)] *)
Fixpoint join (sep : str) (fields : list str) : str :=
  match fields with
  | [] => []
  | [f] => f
  | f :: fs => f ++ sep ++ join sep fs
  end.

(** [str(n)] of an integer: decimal digits with a leading minus sign. *)
Definition str_of_Z (n : Z) : str := lit (NilZero.string_of_int (Z.to_int n)).

(** Reading a string back: [unlit] gives the ASCII text of a string
    whose code points all fit a byte, [decimal_value] the integer that a
    string of decimal digits (with an optional minus sign) denotes. *)
Fixpoint unlit (s : str) : option string :=
  match s with
  | [] => Some EmptyString
  | c :: s' =>
      if (c <? 256)%N
      then option_map (String (ascii_of_N c)) (unlit s')
      else None
  end.

Definition decimal_value (s : str) : option Z :=
  match unlit s with
  | Some t => option_map Z.of_int (NilZero.int_of_string t)
  | None => None
  end.

(** [p in s] *)
Fixpoint contains (p s : str) : bool :=
  match s with
  | [] => startswith p []
  | _ :: s' => startswith p s || contains p s'
  end.

(** ** Properties of the string primitives *)

Lemma lstrip_app_nonspace (a b : str) (c : char) :
  isspace c = false -> lstrip (a ++ c :: b) = lstrip a ++ c :: b.
Proof.
  intros Hc. induction a as [|x a IH]; simpl.
  - now rewrite Hc.
  - destruct (isspace x); [exact IH | reflexivity].
Qed.

Lemma lstrip_suffix (s : str) : exists w, s = w ++ lstrip s.
Proof.
  induction s as [|c s [w IH]]; simpl.
  - now exists [].
  - destruct (isspace c).
    + exists (c :: w). simpl. now f_equal.
    + now exists [].
Qed.

Lemma rstrip_prefix (s : str) : exists w, s = rstrip s ++ w.
Proof.
  unfold rstrip. destruct (lstrip_suffix (rev s)) as [w Hw].
  exists (rev w). rewrite <- rev_app_distr, <- Hw. now rewrite rev_involutive.
Qed.

Lemma rstrip_app_nonspace (a b : str) (c : char) :
  isspace c = false -> rstrip (a ++ c :: b) = a ++ c :: rstrip b.
Proof.
  intros Hc. unfold rstrip.
  replace (rev (a ++ c :: b)) with (rev b ++ c :: rev a).
  - rewrite lstrip_app_nonspace by assumption.
    rewrite rev_app_distr. simpl. rewrite rev_involutive.
    now rewrite <- app_assoc.
  - rewrite rev_app_distr. simpl. now rewrite <- app_assoc.
Qed.

Lemma startswith_app (p a b : str) :
  startswith p a = true -> startswith p (a ++ b) = true.
Proof.
  revert a. induction p as [|x p IH]; intros [|y a]; simpl; try easy.
  intros H. apply andb_true_iff in H as [-> H]. simpl. now apply IH.
Qed.

Lemma contains_app_false (p a b : str) :
  contains p (a ++ b) = false -> contains p a = false.
Proof.
  induction a as [|x a IH]; simpl.
  - intros H. destruct (startswith p []) eqn:E; [|reflexivity].
    apply (startswith_app _ _ b) in E. simpl in E.
    destruct b; simpl in H; [congruence|].
    rewrite E in H. discriminate.
  - intros H. apply orb_false_iff in H as [H1 H2].
    apply orb_false_iff. split; [|now apply IH].
    destruct (startswith p (x :: a)) eqn:E; [|reflexivity].
    apply (startswith_app _ _ b) in E. simpl in E, H1. congruence.
Qed.

Lemma contains_suffix_false (p a b : str) :
  contains p (a ++ b) = false -> contains p b = false.
Proof.
  induction a as [|x a IH]; simpl; [easy|].
  intros H. apply orb_false_iff in H as [_ H]. now apply IH.
Qed.

Lemma contains_strip_false (p s : str) :
  contains p s = false -> contains p (strip s) = false.
Proof.
  intros H. unfold strip.
  destruct (rstrip_prefix s) as [w Hw]. rewrite Hw in H.
  apply contains_app_false in H.
  destruct (lstrip_suffix (rstrip s)) as [v Hv]. rewrite Hv in H.
  now apply contains_suffix_false in H.
Qed.

Lemma split_scan_nonempty (sep : str) (skip : nat) (cur s : str) :
  split_scan sep skip cur s <> [].
Proof.
  revert skip cur. induction s as [|c s IH]; intros skip cur; simpl; [easy|].
  destruct skip; [|apply IH].
  destruct (startswith sep (c :: s)); [easy | apply IH].
Qed.

Lemma last_field_cons (f : str) (fs : list str) :
  fs <> [] -> last_field (f :: fs) = last_field fs.
Proof. destruct fs; [easy | reflexivity]. Qed.

(** Without an occurrence of the separator there is a single field. *)
Lemma split_scan_absent (sep cur s : str) :
  contains sep s = false -> split_scan sep O cur s = [rev cur ++ s].
Proof.
  revert cur. induction s as [|c s IH]; intros cur H; simpl in *.
  - now rewrite app_nil_r.
  - apply orb_false_iff in H as [H1 H2]. rewrite H1.
    rewrite IH by assumption. simpl. now rewrite <- app_assoc.
Qed.

End PyStr.

(* ===================================================================== *)
(** * safe_name and the per-page file name *)
(* ===================================================================== *)

Module SafeName.
Import PyStr.

(** The complement of the class in [SAFE = re.compile(r"[^a-zA-Z0-9._-]+")]. *)
Definition is_safe (c : char) : bool :=
  ((97 <=? c) && (c <=? 122) || (65 <=? c) && (c <=? 90)
   || (48 <=? c) && (c <=? 57)
   || (c =? 46) || (c =? 95) || (c =? 45))%N.

Definition underscore : char := 95%N.

(** [SAFE.sub("_", s)]: every maximal run of characters outside the
    class becomes one underscore.  [in_run] tells that the previous
    character was already part of the run being replaced. *)
Fixpoint sub_scan (in_run : bool) (s : str) : str :=
  match s with
  | [] => []
  | c :: s' =>
      if is_safe c then c :: sub_scan false s'
      else if in_run then sub_scan true s'
      else underscore :: sub_scan true s'
  end.

Definition SAFE_sub (s : str) : str := sub_scan false s.

Definition scheme_sep : str := Eval cbv in lit "://".
Definition page : str := Eval cbv in lit "page".

(** [x or y] on strings: the empty string is falsy. *)
Definition str_or (x y : str) : str :=
  match x with [] => y | _ => x end.

(** <<
    def safe_name(url: str) -> str:
        base = url.strip().split("://")[-1]
        base = base[:150]
        return SAFE.sub("_", base) or "page"
    >> *)
Definition safe_name (url : str) : str :=
  let base := last_field (split scheme_sep (strip url)) in
  let base := take 150 base in
  str_or (SAFE_sub base) page.

(** [f"{i:03d}"] for an ordinal [i >= 0]: the decimal digits, padded
    with zeros on the left to a width of at least 3. *)
Definition zero : char := 48%N.

Definition format_03d (i : nat) : str :=
  let d := str_of_Z (Z.of_nat i) in
  replicate (3 - length d) zero ++ d.

(** [name = f"{i:03d}_{safe_name(url)}.pdf"] *)
Definition page_file_name (i : nat) (url : str) : str :=
  format_03d i ++ [underscore] ++ safe_name url ++ lit ".pdf".

(** ** The sanitised name *)

Definition safe_chars (s : str) : Prop := Forall (fun c => is_safe c = true) s.

Lemma sub_scan_safe (b : bool) (s : str) : safe_chars (sub_scan b s).
Proof.
  revert b. induction s as [|c s IH]; intros b; simpl; [constructor|].
  destruct (is_safe c) eqn:E.
  - constructor; [assumption | apply IH].
  - destruct b; [apply IH|]. constructor; [reflexivity | apply IH].
Qed.

Lemma sub_scan_length (b : bool) (s : str) :
  (length (sub_scan b s) <= length s)%nat.
Proof.
  revert b. induction s as [|c s IH]; intros b; simpl; [lia|].
  destruct (is_safe c); simpl.
  - specialize (IH false). lia.
  - destruct b; simpl; specialize (IH true); lia.
Qed.

Lemma safe_name_safe_chars (url : str) : safe_chars (safe_name url).
Proof.
  unfold safe_name, str_or, SAFE_sub.
  destruct (sub_scan false _) eqn:E.
  - repeat constructor.
  - rewrite <- E. apply sub_scan_safe.
Qed.

Lemma safe_name_length (url : str) :
  (1 <= length (safe_name url) <= 150)%nat.
Proof.
  unfold safe_name, str_or, SAFE_sub.
  destruct (sub_scan false _) eqn:E.
  - simpl. lia.
  - rewrite <- E. split; [rewrite E; simpl; lia|].
    etransitivity; [apply sub_scan_length|].
    rewrite length_take. lia.
Qed.

(** ** The scheme prefix *)

Lemma startswith_scheme_sep (s : str) :
  startswith scheme_sep s = true <-> exists t, s = scheme_sep ++ t.
Proof.
  unfold scheme_sep. split.
  - destruct s as [|a [|b [|c t]]]; cbn [startswith];
      rewrite ?andb_false_r; try easy.
    rewrite andb_true_r. intros H.
    apply andb_true_iff in H as [Ha H]. apply andb_true_iff in H as [Hb Hc].
    apply N.eqb_eq in Ha, Hb, Hc. subst. now exists t.
  - intros [t ->]. reflexivity.
Qed.

(** The scan never matches across the boundary of an occurrence that
    lies ahead: whatever precedes it, the last field is the one that the
    text after that occurrence ends with. *)
Lemma last_field_after_sep (r : str) (n : nat) :
  forall q cur, (length q <= n)%nat ->
    last_field (split_scan scheme_sep O cur (q ++ scheme_sep ++ r))
    = last_field (split scheme_sep r).
Proof.
  induction n as [|n IH]; intros q cur Hn.
  - destruct q; [|simpl in Hn; lia]. simpl.
    now rewrite last_field_cons by apply split_scan_nonempty.
  - destruct q as [|c q].
    { simpl. now rewrite last_field_cons by apply split_scan_nonempty. }
    simpl in Hn.
    change ((c :: q) ++ scheme_sep ++ r) with (c :: (q ++ scheme_sep ++ r)).
    cbn [split_scan].
    destruct (startswith scheme_sep (c :: q ++ scheme_sep ++ r)) eqn:E.
    + apply startswith_scheme_sep in E as [t Ht].
      destruct q as [|x [|y q]]; try (unfold scheme_sep in Ht; simpl in Ht; congruence).
      unfold scheme_sep in Ht. simpl in Ht. injection Ht as -> -> -> Ht.
      rewrite last_field_cons by apply split_scan_nonempty.
      simpl. apply IH. simpl in Hn. lia.
    + apply IH. lia.
Qed.

Lemma strip_around_sep (p rest : str) :
  strip (p ++ scheme_sep ++ rest) = lstrip p ++ scheme_sep ++ rstrip rest.
Proof.
  unfold strip, scheme_sep. simpl app.
  change (p ++ 58%N :: 47%N :: 47%N :: rest)
    with (p ++ [58%N; 47%N] ++ 47%N :: rest).
  rewrite app_assoc, rstrip_app_nonspace by reflexivity.
  rewrite <- app_assoc. simpl.
  now rewrite lstrip_app_nonspace by reflexivity.
Qed.

(** What [safe_name] makes of the text that follows a scheme separator. *)
Definition safe_name_after_scheme (rest : str) : str :=
  str_or (SAFE_sub (take 150 (last_field (split scheme_sep (rstrip rest))))) page.

Lemma safe_name_scheme (p rest : str) :
  safe_name (p ++ scheme_sep ++ rest) = safe_name_after_scheme rest.
Proof.
  unfold safe_name, safe_name_after_scheme.
  rewrite strip_around_sep. unfold split at 1.
  now rewrite (last_field_after_sep _ (length (lstrip p))).
Qed.

(** ** The ordinal prefix *)

Definition is_digit (c : char) : bool := ((48 <=? c) && (c <=? 57))%N.

Lemma lit_app (a b : string) : lit (a ++ b)%string = lit a ++ lit b.
Proof.
  unfold lit. induction a as [|c a IH]; simpl; [reflexivity|]. now rewrite IH.
Qed.

Lemma unlit_lit (t : string) : unlit (lit t) = Some t.
Proof.
  induction t as [|a t IH]; [reflexivity|].
  change (lit (String a t)) with (N_of_ascii a :: lit t).
  cbn [unlit]. rewrite IH. cbn [option_map].
  rewrite ascii_N_embedding.
  pose proof (N_ascii_bounded a) as Hb.
  apply N.ltb_lt in Hb. now rewrite Hb.
Qed.

Lemma uint_digits (d : Decimal.uint) :
  Forall (fun c => is_digit c = true) (lit (NilEmpty.string_of_uint d)).
Proof.
  induction d; simpl; constructor; try reflexivity; assumption.
Qed.

Lemma str_of_nat_digits (i : nat) :
  Forall (fun c => is_digit c = true) (str_of_Z (Z.of_nat i)).
Proof.
  unfold str_of_Z. destruct (Z.of_nat i) as [|p|p] eqn:E; try lia.
  - repeat constructor.
  - simpl. unfold NilZero.string_of_uint.
    pose proof (uint_digits (Pos.to_uint p)) as H.
    destruct (Pos.to_uint p); [repeat constructor | exact H ..].
Qed.

Lemma format_03d_digits (i : nat) :
  Forall (fun c => is_digit c = true) (format_03d i).
Proof.
  unfold format_03d. apply Forall_app. split; [|apply str_of_nat_digits].
  induction (3 - _)%nat; simpl; constructor; [reflexivity | assumption].
Qed.

Lemma format_03d_length (i : nat) :
  length (format_03d i) = Nat.max 3 (length (str_of_Z (Z.of_nat i))).
Proof. unfold format_03d. rewrite length_app, length_replicate. lia. Qed.

Lemma format_03d_width_3 (i : nat) :
  (i < 1000)%nat -> length (format_03d i) = 3%nat.
Proof.
  intros Hi.
  assert (H : forallb (fun k => Nat.eqb (length (format_03d k)) 3) (seq 0 1000) = true)
    by (vm_compute; reflexivity).
  rewrite forallb_forall in H.
  apply Nat.eqb_eq, H, in_seq. lia.
Qed.

Lemma decimal_value_zero_padded (k : nat) (t : string) (z : Z) :
  (0 <= z) -> t <> EmptyString ->
  NilZero.int_of_string t = Some (Z.to_int z) ->
  decimal_value (replicate k zero ++ lit t) = Some z.
Proof.
  intros Hz Ht Hd. unfold decimal_value.
  assert (Hu : unlit (replicate k zero ++ lit t)
               = Some (Nat.iter k (String "0"%char) t)).
  { induction k as [|k IH]; simpl.
    - apply unlit_lit.
    - change (zero <? 256)%N with true. cbn iota. now rewrite IH. }
  rewrite Hu. clear Hu.
  assert (Hp : exists d, NilZero.int_of_string (Nat.iter k (String "0"%char) t)
                         = Some (Decimal.Pos d) /\ Z.of_uint d = z).
  { destruct t as [|a t]; [easy|].
    assert (Ha : exists d, NilEmpty.uint_of_string (String a t) = Some d
                           /\ Z.of_uint d = z).
    { unfold NilZero.int_of_string in Hd.
      destruct (Ascii.eqb a "-") eqn:Ea.
      - destruct (NilZero.uint_of_string t); simpl in Hd; [|easy].
        injection Hd as Hd. destruct z; simpl in Hd; try easy; lia.
      - unfold NilZero.uint_of_string in Hd.
        destruct (NilEmpty.uint_of_string (String a t)) as [d|]; [|easy].
        simpl in Hd. injection Hd as Hd. exists d. split; [reflexivity|].
        change (Z.of_uint d) with (Z.of_int (Decimal.Pos d)).
        rewrite Hd. apply DecimalZ.of_to. }
    destruct Ha as [d [Hd1 Hd2]].
    induction k as [|k IH].
    - exists d. split; [|assumption]. simpl Nat.iter.
      unfold NilZero.int_of_string in *.
      destruct (Ascii.eqb a "-") eqn:Ea.
      + destruct (NilZero.uint_of_string t); simpl in Hd; [|easy].
        injection Hd as Hd. destruct z; simpl in Hd; try easy; lia.
      + unfold NilZero.uint_of_string. now rewrite Hd1.
    - destruct IH as [d' [H1 H2]]. exists (Decimal.D0 d'). split; [|exact H2].
      simpl Nat.iter. unfold NilZero.int_of_string.
      change (Ascii.eqb "0" "-") with false. cbn iota.
      unfold NilZero.uint_of_string. cbn [NilEmpty.uint_of_string].
      unfold NilZero.int_of_string in H1.
      destruct (Nat.iter k (String "0"%char) (String a t)) as [|b u] eqn:Eu;
        [easy|].
      destruct (Ascii.eqb b "-").
      * destruct (NilZero.uint_of_string u); easy.
      * unfold NilZero.uint_of_string in H1.
        destruct (NilEmpty.uint_of_string (String b u)); simpl in H1; [|easy].
        injection H1 as ->. reflexivity. }
  destruct Hp as [d [-> <-]]. reflexivity.
Qed.

Lemma format_03d_value (i : nat) :
  decimal_value (format_03d i) = Some (Z.of_nat i).
Proof.
  unfold format_03d, str_of_Z.
  apply decimal_value_zero_padded; [lia | |].
  - destruct (Z.of_nat i); simpl; try easy.
    unfold NilZero.string_of_uint.
    pose proof (DecimalPos.Unsigned.to_uint_nonnil p).
    destruct (Pos.to_uint p); easy.
  - apply NilZero.isi; destruct (Z.of_nat i); simpl; try easy;
      intros [= H]; now apply DecimalPos.Unsigned.to_uint_nonnil in H.
Qed.

(** ** The file name of a page *)

(** The shape a name has when its ordinal is exactly three digits wide:
    three digits, an underscore, a sanitised name of at most 150
    characters and the extension. *)
Definition three_digit_shape (name : str) : Prop :=
  exists d n : str,
    name = d ++ [underscore] ++ n ++ lit ".pdf"
    /\ length d = 3%nat
    /\ Forall (fun c => is_digit c = true) d
    /\ safe_chars n /\ (length n <= 150)%nat.

Definition scholar_url : str :=
  Eval cbv in lit "https://scholar.google.com/scholar?q=coq&start=10".

(** C8, as stated, fails from the thousandth URL on: [{i:03d}] pads to
    a width of at least three, so the ordinal 1000 takes four digits. *)
Lemma page_file_name_1000_not_three_digits :
  page_file_name 1000 scholar_url
    = lit "1000_scholar.google.com_scholar_q_coq_start_10.pdf"
  /\ ~ three_digit_shape (page_file_name 1000 scholar_url).
Proof.
  split; [vm_compute; reflexivity|].
  intros (d & n & Hname & Hlen & _).
  destruct d as [|a [|b [|c [|x d]]]]; try discriminate Hlen.
  vm_compute in Hname. discriminate Hname.
Qed.

(** C8 (amended): the file name of the [i]-th URL is the decimal
    ordinal [i] padded with zeros to at least three digits (exactly
    three up to 999), an underscore, the sanitised URL, which consists
    of characters of [[a-zA-Z0-9._-]] only and is between 1 and 150
    characters long, and the extension [.pdf]. *)
Theorem page_file_name_shape (i : nat) (url : str) :
  page_file_name i url
    = format_03d i ++ [underscore] ++ safe_name url ++ lit ".pdf"
  /\ Forall (fun c => is_digit c = true) (format_03d i)
  /\ decimal_value (format_03d i) = Some (Z.of_nat i)
  /\ length (format_03d i) = Nat.max 3 (length (str_of_Z (Z.of_nat i)))
  /\ ((i < 1000)%nat -> three_digit_shape (page_file_name i url))
  /\ safe_chars (safe_name url)
  /\ (1 <= length (safe_name url) <= 150)%nat.
Proof.
  repeat split.
  - apply format_03d_digits.
  - apply format_03d_value.
  - apply format_03d_length.
  - intros Hi. exists (format_03d i), (safe_name url). repeat split.
    + now apply format_03d_width_3.
    + apply format_03d_digits.
    + apply safe_name_safe_chars.
    + apply safe_name_length.
  - apply safe_name_safe_chars.
  - apply safe_name_length.
  - apply safe_name_length.
Qed.

Lemma page_file_name_shape_witness :
  three_digit_shape (page_file_name 7 scholar_url).
Proof.
  apply (page_file_name_shape 7 scholar_url). lia.
Defined.

Example page_file_name_7 :
  page_file_name 7 scholar_url
  = lit "007_scholar.google.com_scholar_q_coq_start_10.pdf".
Proof. vm_compute. reflexivity. Qed.

(** ** The scheme is ignored *)

(** C10: [safe_name] looks only at what follows the last ["://"].  Two
    URLs that differ in what precedes a scheme separator get the same
    name; and when the text [rest] after the separator holds no further
    separator, the name is the substitution applied to the first 150
    characters of [rest] (without its trailing white space): the prefix
    is dropped first, then the text is cut, then the characters are
    replaced.  A URL without any separator is treated whole. *)
Theorem safe_name_ignores_scheme :
  (forall p1 p2 rest : str,
     safe_name (p1 ++ scheme_sep ++ rest) = safe_name (p2 ++ scheme_sep ++ rest))
  /\ (forall p rest : str,
        contains scheme_sep rest = false ->
        safe_name (p ++ scheme_sep ++ rest)
        = str_or (SAFE_sub (take 150 (rstrip rest))) page)
  /\ (forall rest : str,
        safe_name (lit "http://" ++ rest) = safe_name (lit "https://" ++ rest))
  /\ (forall url : str,
        contains scheme_sep url = false ->
        safe_name url = str_or (SAFE_sub (take 150 (strip url))) page).
Proof.
  split; [|split; [|split]]; cycle 3.
  { intros url H. unfold safe_name, split.
    now rewrite split_scan_absent by now apply contains_strip_false. }
  - intros p1 p2 rest. now rewrite !safe_name_scheme.
  - intros p rest H. rewrite safe_name_scheme.
    unfold safe_name_after_scheme, split.
    destruct (rstrip_prefix rest) as [w Hw].
    rewrite Hw in H. apply contains_app_false in H.
    now rewrite split_scan_absent.
  - intros rest.
    change (lit "http://") with (lit "http" ++ scheme_sep).
    change (lit "https://") with (lit "https" ++ scheme_sep).
    rewrite <- !app_assoc. now rewrite !safe_name_scheme.
Qed.

Lemma safe_name_ignores_scheme_witness :
  safe_name (lit "ftp" ++ scheme_sep ++ lit "a.b/c d?e ")
  = str_or (SAFE_sub (take 150 (rstrip (lit "a.b/c d?e ")))) page.
Proof.
  apply (proj1 (proj2 safe_name_ignores_scheme)). vm_compute. reflexivity.
Defined.

(** Cutting before substituting is not the same as substituting before
    cutting: a run of 149 question marks followed by [ab]. *)
Example truncation_precedes_substitution :
  let url := replicate 149 63%N ++ lit "ab" in
  safe_name url = lit "_a" /\ take 150 (SAFE_sub url) = lit "_ab".
Proof. vm_compute. split; reflexivity. Qed.

(** ** The names of one run *)

Lemma digits_up_to_underscore (a b r r' : str) :
  Forall (fun c => is_digit c = true) a ->
  Forall (fun c => is_digit c = true) b ->
  a ++ underscore :: r = b ++ underscore :: r' -> a = b /\ r = r'.
Proof.
  intros Ha. revert b.
  induction Ha as [|x a Hx _ IH]; intros b Hb;
    destruct Hb as [|y b Hy Hb]; simpl; intros H.
  - injection H as ->. now split.
  - injection H as <- _. discriminate Hy.
  - injection H as -> _. discriminate Hx.
  - injection H as -> H. destruct (IH b Hb H) as [-> ->]. now split.
Qed.

Lemma page_file_name_ordinal (i j : nat) (u v : str) :
  page_file_name i u = page_file_name j v -> i = j.
Proof.
  unfold page_file_name. cbn [app]. intros H.
  apply digits_up_to_underscore in H as [Hd _];
    try apply format_03d_digits.
  pose proof (format_03d_value i) as Hi. rewrite Hd, format_03d_value in Hi.
  injection Hi as Hi. lia.
Qed.

(** X1: the file names of one run never collide.  Two names are equal
    only when the ordinals are equal (and then the sanitised URLs are
    equal too), so the pages of two different positions of the list
    are written to different names even when their URLs sanitise to
    the same text. *)
Theorem page_file_name_injective (i j : nat) (u v : str) :
  page_file_name i u = page_file_name j v ->
  i = j /\ safe_name u = safe_name v.
Proof.
  intros H. split; [exact (page_file_name_ordinal i j u v H)|].
  unfold page_file_name in H. cbn [app] in H.
  apply digits_up_to_underscore in H as [_ Hn];
    try apply format_03d_digits.
  now apply app_inv_tail in Hn.
Qed.

Lemma page_file_name_injective_witness :
  (7 = 7)%nat /\ safe_name (lit "http://a.b/c") = safe_name (lit "https://a.b/c").
Proof.
  apply (page_file_name_injective 7 7 (lit "http://a.b/c") (lit "https://a.b/c")).
  vm_compute. reflexivity.
Defined.

(** ** Names that are safe already *)

Lemma is_safe_not_space (c : char) : is_safe c = true -> isspace c = false.
Proof.
  intros H. apply not_true_is_false. intros Hs. unfold is_safe, isspace in *.
  repeat match goal with
    | H : (_ || _) = true |- _ => apply orb_true_iff in H; destruct H as [H|H]
    | H : (_ && _) = true |- _ => apply andb_true_iff in H; destruct H
    | H : (_ <=? _)%N = true |- _ => apply N.leb_le in H
    | H : (_ =? _)%N = true |- _ => apply N.eqb_eq in H
    end; lia.
Qed.

Lemma strip_safe_chars (s : str) : safe_chars s -> strip s = s.
Proof.
  intros H. unfold strip.
  assert (Hr : rstrip s = s).
  { destruct s as [|x s] using rev_ind; [reflexivity|].
    apply Forall_app in H as [_ Hx]. inversion Hx as [|? ? Hc _]; subst.
    rewrite rstrip_app_nonspace by now apply is_safe_not_space. reflexivity. }
  rewrite Hr. destruct H as [|c s Hc _]; [reflexivity|].
  simpl. now rewrite (is_safe_not_space c Hc).
Qed.

Lemma contains_scheme_sep_safe_chars (s : str) :
  safe_chars s -> contains scheme_sep s = false.
Proof.
  induction 1 as [|c s Hc _ IH]; [reflexivity|].
  cbn [contains]. rewrite IH, orb_false_r.
  unfold scheme_sep. cbn [startswith].
  destruct (58 =? c)%N eqn:E; [|reflexivity].
  apply N.eqb_eq in E. subst c. discriminate Hc.
Qed.

Lemma sub_scan_safe_chars (b : bool) (s : str) :
  safe_chars s -> sub_scan b s = s.
Proof.
  intros H. revert b. induction H as [|c s Hc _ IH]; intros b; simpl;
    [reflexivity|].
  rewrite Hc. now rewrite IH.
Qed.

Lemma safe_name_of_safe_chars (s : str) :
  safe_chars s -> s <> [] -> (length s <= 150)%nat -> safe_name s = s.
Proof.
  intros Hs Hne Hlen. unfold safe_name, split.
  rewrite strip_safe_chars by assumption.
  rewrite split_scan_absent by now apply contains_scheme_sep_safe_chars.
  cbn [rev app last_field List.last].
  rewrite take_ge by assumption.
  unfold SAFE_sub. rewrite sub_scan_safe_chars by assumption.
  now destruct s.
Qed.

(** X2: a name that is safe already is left as it is: a non-empty text
    of at most 150 characters of [[a-zA-Z0-9._-]] is its own sanitised
    name.  Hence sanitising twice is the same as sanitising once. *)
Theorem safe_name_idempotent :
  (forall s : str,
     safe_chars s -> s <> [] -> (length s <= 150)%nat -> safe_name s = s)
  /\ forall url : str, safe_name (safe_name url) = safe_name url.
Proof.
  split; [exact safe_name_of_safe_chars|].
  intros url. apply safe_name_of_safe_chars.
  - apply safe_name_safe_chars.
  - pose proof (safe_name_length url) as H.
    destruct (safe_name url); [simpl in H; lia | discriminate].
  - apply safe_name_length.
Qed.

Lemma safe_name_idempotent_witness :
  safe_name (lit "scholar.google.com_scholar") = lit "scholar.google.com_scholar".
Proof.
  apply (proj1 safe_name_idempotent).
  - repeat constructor.
  - discriminate.
  - vm_compute. lia.
Defined.

(** ** The default name *)

Definition blank (s : str) : Prop := Forall (fun c => isspace c = true) s.

Lemma lstrip_blank (s : str) : blank s -> lstrip s = [].
Proof. induction 1 as [|c s Hc _ IH]; simpl; [reflexivity | now rewrite Hc]. Qed.

Lemma rstrip_blank (s : str) : blank s -> rstrip s = [].
Proof.
  intros H. unfold rstrip. rewrite lstrip_blank; [reflexivity|].
  now apply Forall_rev.
Qed.

Lemma strip_blank (s : str) : blank s -> strip s = [].
Proof. intros H. unfold strip. now rewrite rstrip_blank. Qed.

(** X3: the default name.  A URL that is empty or white space only is
    named [page], and so is a URL with nothing but white space after
    its last scheme separator, whatever precedes the separator. *)
Theorem safe_name_default :
  (forall ws : str, blank ws -> safe_name ws = page)
  /\ (forall p ws : str, blank ws -> safe_name (p ++ scheme_sep ++ ws) = page).
Proof.
  split.
  - intros ws H. unfold safe_name. now rewrite strip_blank.
  - intros p ws H. rewrite safe_name_scheme. unfold safe_name_after_scheme.
    now rewrite rstrip_blank.
Qed.

Lemma safe_name_default_witness :
  safe_name (lit "https" ++ scheme_sep ++ lit "  ") = page.
Proof.
  apply (proj2 safe_name_default). repeat constructor.
Defined.

End SafeName.

(* ===================================================================== *)
(** * merge_pdfs *)
(* ===================================================================== *)

Module Pdf.
Import PyStr.

(** A path is the text of a [pathlib.Path]. *)
Abbreviation path := str (only parsing).

Section Merge.

(** The page objects of pypdf are opaque to the script: it only moves
    them from readers to the writer. *)
Variable page : Type.

(** [open(output, "wb")] returns a file or raises ([FileNotFoundError]
    when the directory is not there, [PermissionError], ...).  Which
    paths can be opened for writing is a fact of the disk that the
    script does not decide.  A failure of the write that follows (a
    disk that fills up) is left out. *)
Variable can_open : path -> bool.

(** [PdfReader(p).pages]: a document is the sequence of its pages,
    [list page]; the PDF files on disk are a map from paths to
    documents. *)

(** [writer.add_page(page)] appends to the writer's pages. *)
Definition add_page (writer : list page) (pg : page) : list page :=
  writer ++ [pg].

(** The two nested loops of [merge_pdfs].  Opening a reader fails when
    there is no such PDF file ([None]). *)
Fixpoint merge_loop (fs : gmap path (list page)) (writer : list page)
    (inputs : list path) : option (list page) :=
  match inputs with
  | [] => Some writer
  | p :: rest =>
      match fs !! p with
      | Some reader_pages =>
          merge_loop fs (fold_left add_page reader_pages writer) rest
      | None => None
      end
  end.

(** <<
    def merge_pdfs(inputs: List[Path], output: Path):
        writer = PdfWriter()
        for p in inputs:
            reader = PdfReader(str(p))
            for page in reader.pages:
                writer.add_page(page)
        with open(output, "wb") as f:
            writer.write(f)
    >>
    The result is the file system after the call; [None] stands for an
    exception, of a reader or of [open], and then nothing has been
    written. *)
Definition merge_pdfs (fs : gmap path (list page)) (inputs : list path)
    (output : path) : option (gmap path (list page)) :=
  match merge_loop fs [] inputs with
  | Some writer =>
      if can_open output then Some (<[output := writer]> fs) else None
  | None => None
  end.

Lemma add_pages (writer pages : list page) :
  fold_left add_page pages writer = writer ++ pages.
Proof.
  revert writer. induction pages as [|pg pages IH]; intros writer; simpl.
  - now rewrite app_nil_r.
  - rewrite IH. unfold add_page. now rewrite <- app_assoc.
Qed.

Lemma merge_loop_concat (fs : gmap path (list page)) (inputs : list path)
    (docs : list (list page)) :
  Forall2 (fun p d => fs !! p = Some d) inputs docs ->
  forall writer, merge_loop fs writer inputs = Some (writer ++ concat docs).
Proof.
  induction 1 as [|p d inputs docs Hp _ IH]; intros writer; simpl.
  - now rewrite app_nil_r.
  - rewrite Hp, add_pages, IH. now rewrite <- app_assoc.
Qed.

Lemma length_concat_sum (docs : list (list page)) :
  length (concat docs) = sum_list (length <$> docs).
Proof.
  induction docs as [|d docs IH]; simpl; [reflexivity|].
  rewrite length_app. now rewrite IH.
Qed.

Lemma merge_pdfs_written (fs : gmap path (list page))
    (inputs : list path) (docs : list (list page)) (output : path) :
  Forall2 (fun p d => fs !! p = Some d) inputs docs ->
  can_open output = true ->
  merge_pdfs fs inputs output = Some (<[output := concat docs]> fs).
Proof.
  intros H Ho. unfold merge_pdfs.
  now rewrite (merge_loop_concat _ _ _ H), Ho.
Qed.

Lemma merge_pdfs_not_opened (fs : gmap path (list page))
    (inputs : list path) (output : path) :
  can_open output = false -> merge_pdfs fs inputs output = None.
Proof.
  intros Ho. unfold merge_pdfs. rewrite Ho.
  now destruct (merge_loop fs [] inputs).
Qed.

(** C7: when the output can be opened for writing, the merged document
    holds the pages of the inputs, in the order of the list, each input
    contributing all of its pages however many it has, and no other
    file is touched; when it cannot, the merge raises and writes
    nothing.  The page count of the merged document is the sum of the
    inputs' page counts, and with one page per input its [i]-th page
    is the page of the [i]-th input. *)
Theorem merge_pdfs_concatenates (fs : gmap path (list page))
    (inputs : list path) (docs : list (list page)) (output : path) :
  Forall2 (fun p d => fs !! p = Some d) inputs docs ->
  (can_open output = true ->
   exists fs',
     merge_pdfs fs inputs output = Some fs'
     /\ fs' !! output = Some (concat docs)
     /\ forall q, q <> output -> fs' !! q = fs !! q)
  /\ (can_open output = false -> merge_pdfs fs inputs output = None)
  /\ length (concat docs) = sum_list (length <$> docs)
  /\ (forall i d, docs !! i = Some d ->
        Forall (fun d' => length d' = 1%nat) docs ->
        concat docs !! i = d !! 0%nat).
Proof.
  intros H. split; [|split; [|split]].
  - intros Ho. exists (<[output := concat docs]> fs).
    split; [now apply merge_pdfs_written|]. split; [apply lookup_insert_eq|].
    intros q Hq. now apply lookup_insert_ne.
  - apply merge_pdfs_not_opened.
  - apply length_concat_sum.
  - clear H. induction docs as [|d0 docs IH]; intros i d Hi Hone; [easy|].
    inversion Hone as [|? ? H0 Hrest]; subst.
    destruct d0 as [|pg [|? ?]]; try discriminate H0.
    destruct i as [|i]; simpl in *.
    + now injection Hi as <-.
    + now apply IH.
Qed.

(** A missing input stops the merge before anything is written. *)
Lemma merge_pdfs_missing_input (fs : gmap path (list page))
    (inputs : list path) (output p : path) :
  In p inputs -> fs !! p = None -> merge_pdfs fs inputs output = None.
Proof.
  intros Hin Hp. unfold merge_pdfs.
  assert (H : forall w, merge_loop fs w inputs = None).
  { induction inputs as [|q rest IH]; intros w; [easy|]. cbn [merge_loop].
    destruct Hin as [-> | Hin]; [now rewrite Hp|].
    destruct (fs !! q); [now apply IH | reflexivity]. }
  now rewrite H.
Qed.

Lemma merge_loop_inv (fs : gmap path (list page)) (inputs : list path)
    (writer writer' : list page) :
  merge_loop fs writer inputs = Some writer' ->
  exists docs,
    Forall2 (fun p d => fs !! p = Some d) inputs docs
    /\ writer' = writer ++ concat docs.
Proof.
  revert writer. induction inputs as [|p rest IH]; intros writer; simpl.
  - intros [= <-]. exists []. split; [constructor | now rewrite app_nil_r].
  - destruct (fs !! p) as [d|] eqn:E; [|discriminate].
    intros H. apply IH in H as (docs & Hd & ->).
    exists (d :: docs). split; [now constructor|].
    rewrite add_pages. simpl. now rewrite <- app_assoc.
Qed.

Lemma merge_loop_missing (fs : gmap path (list page)) (inputs : list path)
    (writer : list page) :
  merge_loop fs writer inputs = None ->
  exists p, In p inputs /\ fs !! p = None.
Proof.
  revert writer. induction inputs as [|q rest IH]; intros w; simpl;
    [discriminate|].
  destruct (fs !! q) as [d|] eqn:Eq.
  - intros H. destruct (IH _ H) as (p & Hin & Hp). exists p. tauto.
  - intros _. exists q. tauto.
Qed.

(** X4: the merge fails exactly when one of its inputs is not there or
    the output cannot be opened for writing; otherwise it writes the
    output. *)
Theorem merge_pdfs_fails_iff_missing (fs : gmap path (list page))
    (inputs : list path) (output : path) :
  merge_pdfs fs inputs output = None
  <-> (exists p, In p inputs /\ fs !! p = None) \/ can_open output = false.
Proof.
  split.
  - unfold merge_pdfs.
    destruct (merge_loop fs [] inputs) eqn:E.
    + destruct (can_open output); [discriminate | now right].
    + intros _. left. now apply (merge_loop_missing _ _ []).
  - intros [(p & Hin & Hp) | Ho].
    + now apply (merge_pdfs_missing_input _ _ _ p).
    + now apply merge_pdfs_not_opened.
Qed.

(** X5: the merge of a list that is put together from two lists.  When
    merging a first list has written the document [da] and merging a
    second list, from the same files, has written [db], then merging
    the first list followed by the second writes [da] followed by [db],
    provided the output can be opened. *)
Theorem merge_pdfs_app (fs fs1 fs2 : gmap path (list page))
    (a b : list path) (m1 m2 out : path) :
  merge_pdfs fs a m1 = Some fs1 ->
  merge_pdfs fs b m2 = Some fs2 ->
  can_open out = true ->
  exists (fs' : gmap path (list page)) (da db : list page),
    fs1 !! m1 = Some da /\ fs2 !! m2 = Some db
    /\ merge_pdfs fs (a ++ b) out = Some fs'
    /\ fs' !! out = Some (da ++ db).
Proof.
  unfold merge_pdfs at 1 2. intros H1 H2 Ho.
  destruct (merge_loop fs [] a) as [wa|] eqn:Ea; [|discriminate].
  destruct (can_open m1); [|discriminate]. injection H1 as <-.
  destruct (merge_loop fs [] b) as [wb|] eqn:Eb; [|discriminate].
  destruct (can_open m2); [|discriminate]. injection H2 as <-.
  apply merge_loop_inv in Ea as (da & Ha & ->).
  apply merge_loop_inv in Eb as (db & Hb & ->). simpl app.
  exists (<[out := concat (da ++ db)]> fs), (concat da), (concat db).
  split; [apply lookup_insert_eq|]. split; [apply lookup_insert_eq|].
  split.
  - apply merge_pdfs_written; [now apply Forall2_app | assumption].
  - rewrite lookup_insert_eq. now rewrite concat_app.
Qed.

End Merge.

Definition a_pdf : path := Eval cbv in lit "001_a.pdf".
Definition b_pdf : path := Eval cbv in lit "002_b.pdf".
Definition merged_pdf : path := Eval cbv in lit "merged.pdf".

(** A disk on which every path can be opened, and one on which the
    directory [nodir] is missing. *)
Definition any_path : path -> bool := fun _ => true.

Definition nodir_merged_pdf : path := Eval cbv in lit "nodir/merged.pdf".

Definition without_nodir : path -> bool :=
  fun p => negb (startswith (lit "nodir/") p).

Definition two_pdfs : gmap path (list nat) :=
  <[a_pdf := [10%nat]]> (<[b_pdf := [20; 21]%nat]> ∅).

Lemma merge_pdfs_concatenates_witness :
  (exists fs',
     merge_pdfs nat without_nodir two_pdfs [a_pdf; b_pdf] merged_pdf
     = Some fs'
     /\ fs' !! merged_pdf = Some [10; 20; 21]%nat)
  /\ merge_pdfs nat without_nodir two_pdfs [a_pdf; b_pdf] nodir_merged_pdf
     = None.
Proof.
  destruct (merge_pdfs_concatenates nat without_nodir two_pdfs
              [a_pdf; b_pdf] [[10%nat]; [20; 21]%nat] merged_pdf)
    as (H1 & _).
  { repeat constructor; vm_compute; reflexivity. }
  destruct (merge_pdfs_concatenates nat without_nodir two_pdfs
              [a_pdf; b_pdf] [[10%nat]; [20; 21]%nat] nodir_merged_pdf)
    as (_ & H2 & _).
  { repeat constructor; vm_compute; reflexivity. }
  split.
  - destruct (H1 eq_refl) as (fs' & Hm & Hc & _). exists fs'. now split.
  - exact (H2 eq_refl).
Defined.

Definition m1_pdf : path := Eval cbv in lit "m1.pdf".
Definition m2_pdf : path := Eval cbv in lit "m2.pdf".

Lemma merge_pdfs_app_witness :
  exists (fs' : gmap path (list nat)) (da db : list nat),
    (<[m1_pdf := [10%nat]]> two_pdfs) !! m1_pdf = Some da
    /\ (<[m2_pdf := [20; 21]%nat]> two_pdfs) !! m2_pdf = Some db
    /\ merge_pdfs nat any_path two_pdfs ([a_pdf] ++ [b_pdf]) merged_pdf
       = Some fs'
    /\ fs' !! merged_pdf = Some (da ++ db).
Proof.
  apply (merge_pdfs_app nat any_path two_pdfs
           (<[m1_pdf := [10%nat]]> two_pdfs)
           (<[m2_pdf := [20; 21]%nat]> two_pdfs)
           [a_pdf] [b_pdf] m1_pdf m2_pdf merged_pdf).
  - reflexivity.
  - reflexivity.
  - reflexivity.
Defined.

Example merge_pdfs_needs_the_directory :
  merge_pdfs nat without_nodir two_pdfs [a_pdf] nodir_merged_pdf = None
  /\ merge_pdfs nat without_nodir two_pdfs [a_pdf; m1_pdf] merged_pdf = None.
Proof. vm_compute. split; reflexivity. Qed.

End Pdf.

(* ===================================================================== *)
(** * compute_full_height_inches *)
(* ===================================================================== *)

(** The function works on Python floats, which are binary64 numbers.
    A float is given here by its value, a rational number, and every
    operation returns the exact result rounded to the nearest number
    with 53 significant bits, ties to even, as IEEE 754 defines it.
    The exponent range is left out: the magnitudes are taken to stay
    below [2^1024], where no operation overflows and the conversion of
    the integer raises no [OverflowError], and the margin and the
    bounds to be numbers (no infinity, no NaN).  Nothing is lost at
    the small end: a quotient by 96 of an integer other than 0 is at
    least 1/96 in magnitude, and a product by 2 and a sum of two floats
    are exact where binary64 numbers are subnormal.  Comparisons are
    exact.  The height that the browser reports for the page is the
    integer [scroll_height]. *)
Module Height.
Local Open Scope Q_scope.

Definition Qlt_bool (a b : Q) : bool := negb (Qle_bool b a).

(** Python's [max(a, b)] and [min(a, b)] keep the first argument unless
    the second is strictly larger (smaller). *)
Definition py_max (a b : Q) : Q := if Qlt_bool a b then b else a.
Definition py_min (a b : Q) : Q := if Qlt_bool b a then b else a.

(** ** Binary64 arithmetic *)

Lemma Qcompare_cases (p q : Q) :
  (Qcompare p q = Lt /\ p < q) \/ (Qcompare p q = Eq /\ p == q)
  \/ (Qcompare p q = Gt /\ q < p).
Proof.
  destruct (Qcompare p q) eqn:E.
  - right. left. split; [reflexivity|]. now apply Qeq_alt.
  - left. split; [reflexivity|]. now apply Qlt_alt.
  - right. right. split; [reflexivity|]. now apply Qgt_alt.
Qed.

(** The integer nearest to [y], the even one when two are as near. *)
Definition round_half_even (y : Q) : Z :=
  let f := Qfloor y in
  match Qcompare (y - inject_Z f) (1 # 2) with
  | Lt => f
  | Gt => (f + 1)%Z
  | Eq => if Z.even f then f else (f + 1)%Z
  end.

Lemma round_half_even_bounds (y : Q) :
  (Qfloor y <= round_half_even y <= Qfloor y + 1)%Z.
Proof.
  unfold round_half_even.
  destruct (Qcompare (y - inject_Z (Qfloor y)) (1 # 2)); [|lia..].
  destruct (Z.even (Qfloor y)); lia.
Qed.

Lemma round_half_even_Z (k : Z) : round_half_even (inject_Z k) = k.
Proof.
  unfold round_half_even. rewrite Qfloor_Z.
  destruct (Qcompare_cases (inject_Z k - inject_Z k) (1 # 2))
    as [[-> _] | [[_ H] | [_ H]]]; [reflexivity | lra..].
Qed.

Lemma round_half_even_mono (x y : Q) :
  x <= y -> (round_half_even x <= round_half_even y)%Z.
Proof.
  intros H. pose proof (Qfloor_resp_le _ _ H) as Hf.
  destruct (Z.eq_dec (Qfloor x) (Qfloor y)) as [E|E].
  - unfold round_half_even. rewrite <- E.
    destruct (Qcompare_cases (x - inject_Z (Qfloor x)) (1 # 2))
      as [[-> Hx] | [[-> Hx] | [-> Hx]]];
      destruct (Qcompare_cases (y - inject_Z (Qfloor x)) (1 # 2))
      as [[-> Hy] | [[-> Hy] | [-> Hy]]];
      try (destruct (Z.even (Qfloor x)); lia); try lia; lra.
  - pose proof (round_half_even_bounds x). pose proof (round_half_even_bounds y).
    lia.
Qed.

Lemma round_half_even_error (y : Q) :
  Qabs (inject_Z (round_half_even y) - y) <= 1 # 2.
Proof.
  unfold round_half_even.
  pose proof (Qfloor_le y) as H1. pose proof (Qlt_floor y) as H2.
  rewrite inject_Z_plus in H2. change (inject_Z 1) with 1 in H2.
  apply Qabs_Qle_condition.
  destruct (Qcompare_cases (y - inject_Z (Qfloor y)) (1 # 2))
    as [[-> E] | [[-> E] | [-> E]]].
  - split; lra.
  - destruct (Z.even (Qfloor y)); rewrite ?inject_Z_plus;
      change (inject_Z 1) with 1; split; lra.
  - rewrite inject_Z_plus. change (inject_Z 1) with 1. split; lra.
Qed.

(** The binade of a positive number: the [e] with [2^e <= x < 2^(e+1)]. *)
Definition binade (x : Q) : Z :=
  let e := (Z.log2 (Qnum x) - Z.log2 (Zpos (Qden x)))%Z in
  if Qle_bool (2 ^ e) x then e else (e - 1)%Z.

Lemma two_power_pos (e : Z) : 0 < 2 ^ e.
Proof. now apply Qpower_0_lt. Qed.

Lemma two_power_plus (a b : Z) : 2 ^ (a + b) == 2 ^ a * 2 ^ b.
Proof. now apply Qpower_plus. Qed.

Lemma inject_Z_two_power (k : Z) : (0 <= k)%Z -> inject_Z (2 ^ k) == 2 ^ k.
Proof. intros H. now rewrite Zpower_Qpower. Qed.

Lemma log2_bounds (n : Z) :
  (0 < n)%Z -> 2 ^ Z.log2 n <= inject_Z n /\ inject_Z n < 2 ^ (Z.log2 n + 1).
Proof.
  intros H. destruct (Z.log2_spec n H) as [H1 H2].
  pose proof (Z.log2_nonneg n) as H0.
  rewrite <- !inject_Z_two_power by lia.
  rewrite <- Zle_Qle, <- Zlt_Qlt. split; [exact H1|]. now rewrite Z.add_1_r.
Qed.

Lemma binade_spec (x : Q) :
  0 < x -> 2 ^ binade x <= x /\ x < 2 ^ (binade x + 1).
Proof.
  intros Hx. unfold binade.
  set (n := Qnum x). set (d := Z.pos (Qden x)).
  assert (Hn : (0 < n)%Z).
  { unfold n. unfold Qlt in Hx. simpl in Hx. lia. }
  assert (Hd : (0 < d)%Z) by (unfold d; lia).
  destruct (log2_bounds n Hn) as [N1 N2].
  destruct (log2_bounds d Hd) as [D1 D2].
  assert (Ex : x * inject_Z d == inject_Z n).
  { unfold n, d. destruct x as [xn xd]. unfold Qeq, Qmult, inject_Z. simpl.
    lia. }
  assert (Dp : 0 < inject_Z d)
    by (change 0 with (inject_Z 0); rewrite <- Zlt_Qlt; exact Hd).
  set (a := Z.log2 n) in *. set (b := Z.log2 d) in *.
  pose proof (two_power_pos (a - b)) as P0.
  pose proof (two_power_pos b) as Pb.
  pose proof (two_power_pos (a - b - 1)) as P1.
  pose proof (two_power_pos (a - b + 1)) as P2.
  assert (E0 : 2 ^ (a - b + 1) * 2 ^ b == 2 ^ (a + 1)).
  { rewrite <- two_power_plus. now replace (a - b + 1 + b)%Z with (a + 1)%Z by lia. }
  assert (E1 : 2 ^ (a - b - 1) * 2 ^ (b + 1) == 2 ^ a).
  { rewrite <- two_power_plus. now replace (a - b - 1 + (b + 1))%Z with a by lia. }
  assert (E2 : 2 ^ (a - b) == 2 ^ (a - b - 1) * 2).
  { replace (a - b)%Z with (a - b - 1 + 1)%Z at 1 by lia.
    now rewrite two_power_plus. }
  assert (E3 : 2 ^ (a - b + 1) == 2 ^ (a - b) * 2).
  { now rewrite two_power_plus. }
  assert (U : x < 2 ^ (a - b + 1)).
  { apply Qnot_le_lt. intros C.
    assert (2 ^ (a - b + 1) * 2 ^ b <= x * inject_Z d) by nra. lra. }
  assert (L : 2 ^ (a - b - 1) <= x).
  { apply Qnot_lt_le. intros C.
    assert (x * inject_Z d < 2 ^ (a - b - 1) * 2 ^ (b + 1)) by nra. lra. }
  destruct (Qle_bool (2 ^ (a - b)) x) eqn:E.
  - apply Qle_bool_iff in E. split; [exact E | exact U].
  - assert (C : x < 2 ^ (a - b)).
    { apply Qnot_le_lt. intros C. apply Qle_bool_iff in C. congruence. }
    split; [exact L|]. now replace (a - b - 1 + 1)%Z with (a - b)%Z by lia.
Qed.

Lemma binade_mono (x y : Q) : 0 < x -> x <= y -> (binade x <= binade y)%Z.
Proof.
  intros Hx Hxy.
  destruct (binade_spec x Hx) as [X1 _].
  destruct (binade_spec y) as [_ Y2]; [lra|].
  assert (H : 2 ^ binade x < 2 ^ (binade y + 1)) by lra.
  apply Qpower_lt_compat_l_inv in H; [lia | reflexivity].
Qed.

(** The unit in the last place of a binary64 number of the binade of
    [x]: 53 significant bits. *)
Definition ulp (x : Q) : Q := 2 ^ (binade x - 52).

(** The binary64 number nearest to a positive [x], and to any [x]
    (rounding is symmetric). *)
Definition fl_pos (x : Q) : Q :=
  inject_Z (round_half_even (x / ulp x)) * ulp x.

Definition fl (x : Q) : Q :=
  match Qcompare x 0 with
  | Eq => 0
  | Gt => fl_pos x
  | Lt => - fl_pos (- x)
  end.

Lemma ulp_pos (x : Q) : 0 < ulp x.
Proof. apply two_power_pos. Qed.

Lemma scaled_bounds (x : Q) :
  0 < x -> inject_Z (2 ^ 52) <= x / ulp x /\ x / ulp x <= inject_Z (2 ^ 53).
Proof.
  intros Hx. destruct (binade_spec x Hx) as [H1 H2].
  pose proof (ulp_pos x) as Hu.
  assert (E1 : 2 ^ binade x == inject_Z (2 ^ 52) * ulp x).
  { unfold ulp. rewrite inject_Z_two_power by lia. rewrite <- two_power_plus.
    now replace (52 + (binade x - 52))%Z with (binade x) by lia. }
  assert (E2 : 2 ^ (binade x + 1) == inject_Z (2 ^ 53) * ulp x).
  { unfold ulp. rewrite inject_Z_two_power by lia. rewrite <- two_power_plus.
    now replace (53 + (binade x - 52))%Z with (binade x + 1)%Z by lia. }
  split.
  - apply Qle_shift_div_l; [exact Hu | lra].
  - apply Qle_shift_div_r; [exact Hu | lra].
Qed.

Lemma fl_pos_bounds (x : Q) :
  0 < x -> 2 ^ binade x <= fl_pos x /\ fl_pos x <= 2 ^ (binade x + 1).
Proof.
  intros Hx. destruct (scaled_bounds x Hx) as [H1 H2].
  apply round_half_even_mono in H1, H2. rewrite round_half_even_Z in H1, H2.
  rewrite Zle_Qle in H1, H2.
  pose proof (ulp_pos x) as Hu. unfold fl_pos.
  assert (E1 : 2 ^ binade x == inject_Z (2 ^ 52) * ulp x).
  { unfold ulp. rewrite inject_Z_two_power by lia. rewrite <- two_power_plus.
    now replace (52 + (binade x - 52))%Z with (binade x) by lia. }
  assert (E2 : 2 ^ (binade x + 1) == inject_Z (2 ^ 53) * ulp x).
  { unfold ulp. rewrite inject_Z_two_power by lia. rewrite <- two_power_plus.
    now replace (53 + (binade x - 52))%Z with (binade x + 1)%Z by lia. }
  rewrite E1, E2. split; apply Qmult_le_compat_r; try assumption;
    now apply Qlt_le_weak.
Qed.

Lemma fl_pos_positive (x : Q) : 0 < x -> 0 < fl_pos x.
Proof.
  intros Hx. destruct (fl_pos_bounds x Hx) as [H _].
  pose proof (two_power_pos (binade x)). lra.
Qed.

Lemma fl_pos_mono (x y : Q) : 0 < x -> x <= y -> fl_pos x <= fl_pos y.
Proof.
  intros Hx Hxy. assert (Hy : 0 < y) by lra.
  pose proof (binade_mono x y Hx Hxy) as Hb.
  destruct (Z.eq_dec (binade x) (binade y)) as [E|E].
  - unfold fl_pos, ulp. rewrite E.
    pose proof (two_power_pos (binade y - 52)) as Hu.
    apply Qmult_le_compat_r; [|now apply Qlt_le_weak].
    rewrite <- Zle_Qle. apply round_half_even_mono.
    unfold Qdiv. apply Qmult_le_compat_r; [exact Hxy|].
    apply Qlt_le_weak. now apply Qinv_lt_0_compat.
  - destruct (fl_pos_bounds x Hx) as [_ H1].
    destruct (fl_pos_bounds y Hy) as [H2 _].
    assert (H : 2 ^ (binade x + 1) <= 2 ^ binade y)
      by (apply Qpower_le_compat_l; [lia | discriminate]).
    lra.
Qed.

Lemma fl_mono (x y : Q) : x <= y -> fl x <= fl y.
Proof.
  intros H. unfold fl.
  destruct (Qcompare_cases x 0) as [[-> Hx] | [[-> Hx] | [-> Hx]]];
    destruct (Qcompare_cases y 0) as [[-> Hy] | [[-> Hy] | [-> Hy]]];
    try lra.
  - assert (H' : fl_pos (- y) <= fl_pos (- x)) by (apply fl_pos_mono; lra).
    lra.
  - pose proof (fl_pos_positive (- x)). lra.
  - pose proof (fl_pos_positive (- x)). pose proof (fl_pos_positive y). lra.
  - pose proof (fl_pos_positive y). lra.
  - now apply fl_pos_mono.
Qed.

Lemma fl_compat (x y : Q) : x == y -> fl x == fl y.
Proof.
  intros E. apply Qle_antisym; apply fl_mono; rewrite E; apply Qle_refl.
Qed.

(** Rounding moves a number by at most half a unit in the last place,
    that is by at most one part in [2^53]. *)
Lemma fl_pos_error (x : Q) :
  0 < x -> Qabs (fl_pos x - x) <= x * (1 # 2 ^ 53).
Proof.
  intros Hx. pose proof (ulp_pos x) as Hu.
  pose proof (round_half_even_error (x / ulp x)) as He.
  destruct (binade_spec x Hx) as [H1 _].
  assert (E : fl_pos x - x
              == (inject_Z (round_half_even (x / ulp x)) - x / ulp x) * ulp x).
  { unfold fl_pos. field. lra. }
  rewrite E, Qabs_Qmult, (Qabs_pos (ulp x)) by lra.
  assert (E1 : 2 ^ binade x == inject_Z (2 ^ 52) * ulp x).
  { unfold ulp. rewrite inject_Z_two_power by lia. rewrite <- two_power_plus.
    now replace (52 + (binade x - 52))%Z with (binade x) by lia. }
  change (inject_Z (2 ^ 52)) with (4503599627370496 # 1) in E1.
  change (1 # 2 ^ 53) with (1 # 9007199254740992).
  set (r := Qabs _) in *. nra.
Qed.

Lemma fl_error (x : Q) : Qabs (fl x - x) <= Qabs x * (1 # 2 ^ 53).
Proof.
  unfold fl.
  destruct (Qcompare_cases x 0) as [[-> Hx] | [[-> Hx] | [-> Hx]]].
  - rewrite (Qabs_neg x) by lra.
    assert (E : - fl_pos (- x) - x == - (fl_pos (- x) - - x)) by ring.
    rewrite E, Qabs_opp. apply fl_pos_error. lra.
  - rewrite Hx. vm_compute. discriminate.
  - rewrite (Qabs_pos x) by lra. now apply fl_pos_error.
Qed.

(** The operations on floats, and the conversion of an [int] that
    [int / float] starts with. *)
Definition float_of_int (n : Z) : Q := fl (inject_Z n).
Definition fdiv (x y : Q) : Q := fl (x / y).
Definition fadd (x y : Q) : Q := fl (x + y).
Definition fmul (x y : Q) : Q := fl (x * y).

(** ** The paper height *)

(** <<
    def compute_full_height_inches(driver, min_in=1.0, max_in=200.0, margin_in=0.4):
        scroll_height = driver.execute_script("return Math.max(...);")
        height_inches = (scroll_height / 96.0) + (margin_in * 2.0)
        return max(min_in, min(height_inches, max_in))
    >> *)
Definition compute_full_height_inches
    (scroll_height : Z) (min_in max_in margin_in : Q) : Q :=
  let height_inches :=
    fadd (fdiv (float_of_int scroll_height) 96) (fmul margin_in 2) in
  py_max min_in (py_min height_inches max_in).

(** The local variable [height_inches]. *)
Definition height_inches (scroll_height : Z) (margin_in : Q) : Q :=
  fadd (fdiv (float_of_int scroll_height) 96) (fmul margin_in 2).

(** The defaults; the literal [0.4] is the float nearest to 4/10. *)
Definition min_in_default : Q := 1.
Definition max_in_default : Q := 200.
Definition margin_in_default : Q := Eval vm_compute in Qred (fl (4 # 10)).

(** Clamping as the specification words it: a value below the interval
    goes to its lower end, a value above it to its upper end, a value
    inside stays. *)
Definition clamp (lo hi x : Q) : Q :=
  if Qlt_bool x lo then lo else if Qlt_bool hi x then hi else x.

(** The height as the specification words it: [s/96 + 2*m], clamped. *)
Definition clamped_exact_height (s : Z) (min_in max_in m : Q) : Q :=
  clamp min_in max_in (inject_Z s / 96 + 2 * m).

Lemma Qlt_bool_iff (a b : Q) : Qlt_bool a b = true <-> a < b.
Proof.
  unfold Qlt_bool. rewrite negb_true_iff.
  split.
  - intros H. apply Qnot_le_lt. intros Hle.
    apply Qle_bool_iff in Hle. congruence.
  - intros H. destruct (Qle_bool b a) eqn:E; [|reflexivity].
    apply Qle_bool_iff in E. exfalso. now apply (Qlt_not_le a b).
Qed.

Lemma Qlt_bool_false (a b : Q) : Qlt_bool a b = false <-> b <= a.
Proof.
  unfold Qlt_bool. rewrite negb_false_iff. apply Qle_bool_iff.
Qed.

Lemma py_max_cases (a b : Q) :
  (a < b /\ py_max a b = b) \/ (b <= a /\ py_max a b = a).
Proof.
  unfold py_max. destruct (Qlt_bool a b) eqn:E.
  - left. split; [now apply Qlt_bool_iff | reflexivity].
  - right. split; [now apply Qlt_bool_false | reflexivity].
Qed.

Lemma py_min_cases (a b : Q) :
  (b < a /\ py_min a b = b) \/ (a <= b /\ py_min a b = a).
Proof.
  unfold py_min. destruct (Qlt_bool b a) eqn:E.
  - left. split; [now apply Qlt_bool_iff | reflexivity].
  - right. split; [now apply Qlt_bool_false | reflexivity].
Qed.

(** The float height never decreases when the measured height grows:
    the conversion, the division by 96, the sum and the three
    roundings are all monotone. *)
Lemma height_inches_mono (s s' : Z) (m : Q) :
  (s <= s')%Z -> height_inches s m <= height_inches s' m.
Proof.
  intros H. rewrite Zle_Qle in H.
  unfold height_inches, fadd, fdiv, float_of_int.
  apply fl_mono, Qplus_le_l, fl_mono.
  unfold Qdiv. apply Qmult_le_compat_r; [now apply fl_mono | discriminate].
Qed.

Lemma clamp_in_range (lo hi x : Q) :
  lo <= hi ->
  lo <= py_max lo (py_min x hi) <= hi.
Proof.
  intros Hlh.
  destruct (py_min_cases x hi) as [[H1 ->] | [H1 ->]];
    [destruct (py_max_cases lo hi) as [[H2 ->] | [H2 ->]]
    |destruct (py_max_cases lo x) as [[H2 ->] | [H2 ->]]];
    split; try apply Qle_refl; try assumption; try now apply Qlt_le_weak.
Qed.

Lemma clamp_mono (lo hi x y : Q) :
  x <= y ->
  py_max lo (py_min x hi) <= py_max lo (py_min y hi).
Proof.
  intros Hxy.
  destruct (py_min_cases x hi) as [[H1 ->] | [H1 ->]];
    destruct (py_min_cases y hi) as [[H2 ->] | [H2 ->]].
  - apply Qle_refl.
  - exfalso. apply (Qlt_irrefl hi).
    eapply Qlt_le_trans; [exact H1|]. now apply (Qle_trans _ y).
  - destruct (py_max_cases lo x) as [[H3 ->] | [H3 ->]];
      destruct (py_max_cases lo hi) as [[H4 ->] | [H4 ->]];
      try assumption; try apply Qle_refl; try now apply Qlt_le_weak.
    exfalso. apply (Qlt_irrefl lo).
    eapply Qlt_le_trans; [exact H3|]. now apply (Qle_trans _ hi).
  - destruct (py_max_cases lo x) as [[H3 ->] | [H3 ->]];
      destruct (py_max_cases lo y) as [[H4 ->] | [H4 ->]];
      try assumption; try apply Qle_refl; try now apply Qlt_le_weak.
    exfalso. apply (Qlt_irrefl lo).
    eapply Qlt_le_trans; [exact H3|]. now apply (Qle_trans _ y).
Qed.

Lemma py_clamp_is_clamp (lo hi x : Q) :
  lo <= hi -> py_max lo (py_min x hi) == clamp lo hi x.
Proof.
  intros Hlh. unfold clamp.
  destruct (Qlt_bool x lo) eqn:E1; [apply Qlt_bool_iff in E1 | apply Qlt_bool_false in E1];
    (destruct (Qlt_bool hi x) eqn:E2; [apply Qlt_bool_iff in E2 | apply Qlt_bool_false in E2]).
  - exfalso. apply (Qlt_irrefl x).
    eapply Qlt_le_trans; [exact E1|].
    eapply Qle_trans; [exact Hlh | now apply Qlt_le_weak].
  - destruct (py_min_cases x hi) as [[H1 ->] | [H1 ->]].
    + exfalso. apply (Qlt_irrefl x). now apply (Qle_lt_trans _ hi).
    + destruct (py_max_cases lo x) as [[H2 ->] | [H2 ->]]; [|reflexivity].
      exfalso. apply (Qlt_irrefl x). now apply (Qlt_trans _ lo).
  - destruct (py_min_cases x hi) as [[H1 ->] | [H1 ->]].
    + destruct (py_max_cases lo hi) as [[H2 ->] | [H2 ->]]; [reflexivity|].
      now apply Qle_antisym.
    + exfalso. apply (Qlt_irrefl x). now apply (Qle_lt_trans _ hi).
  - destruct (py_min_cases x hi) as [[H1 ->] | [H1 ->]].
    + exfalso. apply (Qlt_irrefl x). now apply (Qle_lt_trans _ hi).
    + destruct (py_max_cases lo x) as [[H2 ->] | [H2 ->]]; [reflexivity|].
      now apply Qle_antisym.
Qed.

(** C2 as it is stated fails: the result is a float, and the float
    height of a page of 100 pixels, [0x1.d777777777778p+0], is not the
    number [100/96 + 2 * 0.4], whether [0.4] is read as the float or
    as 4/10. *)
Lemma rounded_height_is_not_the_exact_height :
  compute_full_height_inches 100 min_in_default max_in_default
    margin_in_default == 0x1.d777777777778%xQ
  /\ ~ compute_full_height_inches 100 min_in_default max_in_default
         margin_in_default
       == clamped_exact_height 100 min_in_default max_in_default
            margin_in_default
  /\ ~ compute_full_height_inches 100 min_in_default max_in_default
         margin_in_default
       == clamped_exact_height 100 min_in_default max_in_default (4 # 10).
Proof.
  split; [vm_compute; reflexivity|].
  split; intros H; apply Qeq_bool_iff in H; vm_compute in H; discriminate H.
Qed.

(** C2 (amended): with [min_in <= max_in], the paper height is the
    float height [height_inches], the value of [s / 96.0 + m * 2.0] in
    binary64 arithmetic, clamped to [[min_in, max_in]]; it lies in that
    interval, never decreases when the measured height grows, is
    [min_in] for a page of height 0 and [max_in] for a page of 50000
    pixels (defaults 1.0, 200.0 and margin 0.4).  Every rounding moves
    its argument by at most one part in [2^53]. *)
Theorem compute_full_height_inches_clamped
    (s : Z) (min_in max_in m : Q) :
  min_in <= max_in ->
  compute_full_height_inches s min_in max_in m
    == clamp min_in max_in (height_inches s m)
  /\ min_in <= compute_full_height_inches s min_in max_in m <= max_in
  /\ (forall s' : Z, (s <= s')%Z ->
        compute_full_height_inches s min_in max_in m
        <= compute_full_height_inches s' min_in max_in m)
  /\ compute_full_height_inches 0 min_in_default max_in_default
       margin_in_default = min_in_default
  /\ compute_full_height_inches 50000 min_in_default max_in_default
       margin_in_default = max_in_default
  /\ (forall x : Q, Qabs (fl x - x) <= Qabs x * (1 # 2 ^ 53)).
Proof.
  intros Hlh. unfold compute_full_height_inches.
  fold (height_inches s m). cbv zeta.
  split; [now apply py_clamp_is_clamp|].
  split; [now apply clamp_in_range|]. split.
  { intros s' Hs. fold (height_inches s' m).
    apply clamp_mono. now apply height_inches_mono. }
  split; [vm_compute; reflexivity|].
  split; [vm_compute; reflexivity|]. apply fl_error.
Qed.

Lemma compute_full_height_inches_clamped_witness :
  min_in_default
    <= compute_full_height_inches 1920 min_in_default max_in_default
         margin_in_default
    <= max_in_default.
Proof.
  apply (compute_full_height_inches_clamped 1920 min_in_default
           max_in_default margin_in_default).
  discriminate.
Defined.

Example height_of_1920_pixels :
  compute_full_height_inches 1920 min_in_default max_in_default
    margin_in_default == 0x1.4cccccccccccdp+4%xQ.
Proof. vm_compute. reflexivity. Qed.

(** ** The defaults, and bounds given the wrong way round *)

Lemma unclamped (lo hi x : Q) :
  lo < x -> x < hi -> py_max lo (py_min x hi) = x.
Proof.
  intros H1 H2.
  destruct (py_min_cases x hi) as [[H _] | [_ ->]]; [lra|].
  destruct (py_max_cases lo x) as [[_ ->] | [H _]]; [reflexivity | lra].
Qed.

Lemma clamped_below (lo hi x : Q) :
  lo <= hi -> x <= lo -> py_max lo (py_min x hi) = lo.
Proof.
  intros Hlh H.
  destruct (py_min_cases x hi) as [[H1 _] | [_ ->]]; [lra|].
  destruct (py_max_cases lo x) as [[H1 _] | [_ ->]]; [lra | reflexivity].
Qed.

Lemma clamped_above (lo hi x : Q) :
  lo < hi -> hi < x -> py_max lo (py_min x hi) = hi.
Proof.
  intros Hlh H.
  destruct (py_min_cases x hi) as [[_ ->] | [H1 _]]; [|lra].
  destruct (py_max_cases lo hi) as [[_ ->] | [H1 _]]; [reflexivity | lra].
Qed.

(** X13: with the defaults (1 to 200 inches, margins of 0.4), a page of
    at most 19 CSS pixels gets the minimal height of one inch, a page
    of 20 to 19123 pixels gets its own float height, which lies
    strictly between the two bounds, and every page of 19124 pixels or
    more gets 200 inches: what lies below is cut off. *)
Theorem default_height_thresholds (s : Z) :
  ((s <= 19)%Z ->
   compute_full_height_inches s min_in_default max_in_default
     margin_in_default = min_in_default)
  /\ ((20 <= s <= 19123)%Z ->
      compute_full_height_inches s min_in_default max_in_default
        margin_in_default = height_inches s margin_in_default
      /\ min_in_default < height_inches s margin_in_default < max_in_default)
  /\ ((19124 <= s)%Z ->
      compute_full_height_inches s min_in_default max_in_default
        margin_in_default = max_in_default).
Proof.
  assert (H19 : height_inches 19 margin_in_default < 1)
    by (apply Qlt_bool_iff; vm_compute; reflexivity).
  assert (H20 : 1 < height_inches 20 margin_in_default)
    by (apply Qlt_bool_iff; vm_compute; reflexivity).
  assert (H19123 : height_inches 19123 margin_in_default < 200)
    by (apply Qlt_bool_iff; vm_compute; reflexivity).
  assert (H19124 : 200 < height_inches 19124 margin_in_default)
    by (apply Qlt_bool_iff; vm_compute; reflexivity).
  unfold compute_full_height_inches, min_in_default, max_in_default.
  fold (height_inches s margin_in_default). cbv zeta.
  split; [|split].
  - intros H. apply clamped_below; [discriminate|].
    pose proof (height_inches_mono s 19 margin_in_default H). lra.
  - intros [H1 H2].
    pose proof (height_inches_mono 20 s margin_in_default H1).
    pose proof (height_inches_mono s 19123 margin_in_default H2).
    split; [apply unclamped; lra | split; lra].
  - intros H. apply clamped_above; [reflexivity|].
    pose proof (height_inches_mono 19124 s margin_in_default H). lra.
Qed.

Lemma default_height_thresholds_witness :
  compute_full_height_inches 19124 min_in_default max_in_default
    margin_in_default = max_in_default.
Proof. apply (default_height_thresholds 19124). lia. Defined.

(** X14: bounds given the wrong way round.  When [max_in] lies below
    [min_in], the result is [min_in] whatever the page measures. *)
Theorem compute_full_height_inches_inverted_bounds
    (s : Z) (min_in max_in m : Q) :
  max_in < min_in -> compute_full_height_inches s min_in max_in m = min_in.
Proof.
  intros H. unfold compute_full_height_inches.
  fold (height_inches s m). cbv zeta.
  destruct (py_max_cases min_in (py_min (height_inches s m) max_in))
    as [[H1 _] | [_ ->]]; [|reflexivity].
  exfalso.
  destruct (py_min_cases (height_inches s m) max_in)
    as [[_ E] | [H2 E]]; rewrite E in H1.
  - apply (Qlt_irrefl min_in). now apply (Qlt_trans _ max_in).
  - apply (Qlt_irrefl min_in).
    eapply Qlt_le_trans; [exact H1|].
    eapply Qle_trans; [exact H2 | now apply Qlt_le_weak].
Qed.

Lemma compute_full_height_inches_inverted_bounds_witness :
  compute_full_height_inches 1920 5 2 margin_in_default = 5.
Proof.
  apply (compute_full_height_inches_inverted_bounds 1920 5 2 margin_in_default).
  reflexivity.
Defined.

(** ** The machine's floats

    The same expression on the machine's binary64 numbers, for a height
    that fits 63 bits.  On every height up to 1000 pixels and on the
    heights next to the two thresholds it returns the float whose value
    [compute_full_height_inches] computes. *)
Import PrimFloat.

Definition compute_full_height_inches_binary64
    (scroll_height : Z) (min_in max_in margin_in : PrimFloat.float)
    : PrimFloat.float :=
  let fmax a b := if PrimFloat.ltb a b then b else a in
  let fmin a b := if PrimFloat.ltb b a then b else a in
  let height_inches :=
    PrimFloat.add
      (PrimFloat.div (PrimFloat.of_uint63 (Uint63.of_Z scroll_height))
                     96%float)
      (PrimFloat.mul margin_in 2%float) in
  fmax min_in (fmin height_inches max_in).

(** The value of a finite float. *)
Definition value_of_float (f : PrimFloat.float) : option Q :=
  match FloatOps.Prim2SF f with
  | SpecFloat.S754_zero _ => Some 0
  | SpecFloat.S754_finite sign m e =>
      Some ((if sign then - 1 else 1) * inject_Z (Z.pos m) * 2 ^ e)
  | _ => None
  end.

Definition same_value (f : PrimFloat.float) (q : Q) : bool :=
  match value_of_float f with
  | Some v => Qeq_bool v q
  | None => false
  end.

Example binary64_heights :
  let m := 0x1.999999999999ap-2%float in
  compute_full_height_inches_binary64 0 1%float 200%float m = 1%float
  /\ compute_full_height_inches_binary64 50000 1%float 200%float m
     = 200%float
  /\ compute_full_height_inches_binary64 100 1%float 200%float m
     = 0x1.d777777777778p+0%float
  /\ compute_full_height_inches_binary64 1920 1%float 200%float m
     = 0x1.4cccccccccccdp+4%float.
Proof. vm_compute. repeat split. Qed.

Example binary64_agrees :
  same_value 0x1.999999999999ap-2%float margin_in_default = true
  /\ forallb
       (fun s =>
          same_value
            (compute_full_height_inches_binary64 s 1%float 200%float
               0x1.999999999999ap-2%float)
            (compute_full_height_inches s min_in_default max_in_default
               margin_in_default))
       (map Z.of_nat (seq 0 1001) ++ [1920; 4321; 19123; 19124; 50000]%Z)
     = true.
Proof. vm_compute. split; reflexivity. Qed.

End Height.

(* ===================================================================== *)
(** * Exceptions *)
(* ===================================================================== *)

(** The exceptions that the modelled code can meet, and results that
    are either a value or a raised exception. *)
Module PyExn.

Inductive exn : Type :=
  | ValueError
  | IndexError
  | UnicodeEncodeError
  | ZeroDivisionError
  | WebDriverException
  | OtherException.

Inductive res (A : Type) : Type :=
  | Ok (a : A)
  | Raise (e : exn).
Arguments Ok {A} a.
Arguments Raise {A} e.

Definition bind {A B : Type} (r : res A) (k : A -> res B) : res B :=
  match r with
  | Ok a => k a
  | Raise e => Raise e
  end.

(** A loop that builds a list, stopped by the first exception. *)
Fixpoint map_res {A B : Type} (f : A -> res B) (l : list A) : res (list B) :=
  match l with
  | [] => Ok []
  | a :: l' =>
      bind (f a) (fun b => bind (map_res f l') (fun bs => Ok (b :: bs)))
  end.

Lemma map_res_ok {A B : Type} (f : A -> res B) (g : A -> B) (l : list A) :
  Forall (fun a => f a = Ok (g a)) l -> map_res f l = Ok (List.map g l).
Proof.
  induction 1 as [|a l Ha _ IH]; simpl; [reflexivity|].
  now rewrite Ha, IH.
Qed.

End PyExn.

(* ===================================================================== *)
(** * build_urls_from_range *)
(* ===================================================================== *)

Module Resolver.
Import PyStr PyExn.

Notation "'let*' x := r 'in' k" := (bind r (fun x => k))
  (at level 10, x name, r at level 100, k at level 200).

(** ** Pieces of [urllib.parse] *)

(** The named tuple that [urlparse] returns and [urlunparse] takes. *)
Record ParseResult : Type := {
  scheme : str;
  netloc : str;
  path : str;
  params : str;
  query : str;
  fragment : str
}.

Definition ascii_amp : char := 38%N.
Definition ascii_eq : char := 61%N.
Definition ascii_plus : char := 43%N.
Definition ascii_space : char := 32%N.
Definition ascii_percent : char := 37%N.

(** [s.split(sep, 1)]: at most one split, at the first occurrence. *)
Fixpoint split1_scan (sep cur s : str) : list str :=
  match s with
  | [] => [rev cur]
  | c :: s' =>
      if startswith sep s then [rev cur; drop (length sep) s]
      else split1_scan sep (c :: cur) s'
  end.

Definition split1 (sep s : str) : list str := split1_scan sep [] s.

(** [s.replace(a, b)] for single characters. *)
Definition replace_char (a b : char) (s : str) : str :=
  List.map (fun c => if (c =? a)%N then b else c) s.

(** [_ALWAYS_SAFE]: letters, digits and [_.-~]. *)
Definition is_always_safe (c : char) : bool :=
  ((65 <=? c) && (c <=? 90) || (97 <=? c) && (c <=? 122)
   || (48 <=? c) && (c <=? 57)
   || (c =? 95) || (c =? 46) || (c =? 45) || (c =? 126))%N.

(** [str.encode("utf-8", "strict")] of one code point: lone surrogates
    cannot be encoded. *)
Definition utf8_encode (c : char) : option (list N) :=
  (if c <? 128 then Some [c]
   else if c <? 2048 then Some [192 + c / 64; 128 + c mod 64]
   else if (55296 <=? c) && (c <=? 57343) then None
   else if c <? 65536
        then Some [224 + c / 4096; 128 + (c / 64) mod 64; 128 + c mod 64]
   else if c <? 1114112
        then Some [240 + c / 262144; 128 + (c / 4096) mod 64;
                   128 + (c / 64) mod 64; 128 + c mod 64]
   else None)%N.

Definition hex_digit (d : N) : char :=
  (if d <? 10 then 48 + d else 55 + d)%N.

(** ['%{:02X}'.format(b)] *)
Definition percent_escape (b : N) : str :=
  [ascii_percent; hex_digit (b / 16)%N; hex_digit (b mod 16)%N].

(** What [quote_plus] makes of one character: kept when always safe, a
    plus sign for a space, the escapes of its UTF-8 bytes otherwise. *)
Definition quote_char (c : char) : res str :=
  if is_always_safe c then Ok [c]
  else if (c =? ascii_space)%N then Ok [ascii_plus]
  else match utf8_encode c with
       | Some bytes => Ok (concat (List.map percent_escape bytes))
       | None => Raise UnicodeEncodeError
       end.

(** [quote_plus(string, safe='')] *)
Fixpoint quote_plus (s : str) : res str :=
  match s with
  | [] => Ok []
  | c :: s' =>
      let* q := quote_char c in
      let* r := quote_plus s' in
      Ok (q ++ r)
  end.

(** [urlencode(query)] for a dict of strings, given as its items in
    order: [k + '=' + v] for each item, joined by [&]. *)
Definition encode_item (kv : str * str) : res str :=
  let* k := quote_plus kv.1 in
  let* v := quote_plus kv.2 in
  Ok (k ++ [ascii_eq] ++ v).

Definition urlencode (items : list (str * str)) : res str :=
  let* l := map_res encode_item items in
  Ok (join [ascii_amp] l).

(** A [dict] with string keys keeps its items in insertion order. *)
Definition dict (V : Type) : Type := list (str * V).

Fixpoint dict_get {V : Type} (k : str) (d : dict V) : option V :=
  match d with
  | [] => None
  | (k', v) :: d' => if decide (k' = k) then Some v else dict_get k d'
  end.

(** [d[k] = v]: an existing key keeps its place, a new one goes last. *)
Fixpoint dict_set {V : Type} (k : str) (v : V) (d : dict V) : dict V :=
  match d with
  | [] => [(k, v)]
  | (k', v') :: d' =>
      if decide (k' = k) then (k, v) :: d' else (k', v') :: dict_set k v d'
  end.

Definition lit_start : str := Eval cbv in lit "start".

(** [range(start, stop, step)], with the length that CPython computes
    for it; a zero step is a [ValueError]. *)
Definition range_length (start stop step : Z) : Z :=
  if 0 <? step then
    if start <? stop then (stop - start - 1) / step + 1 else 0
  else
    if stop <? start then (start - stop - 1) / (- step) + 1 else 0.

Definition py_range (start stop step : Z) : res (list Z) :=
  if step =? 0 then Raise ValueError
  else Ok (List.map (fun i => start + Z.of_nat i * step)
             (seq 0 (Z.to_nat (range_length start stop step)))).

(** ** Properties of quoting, splitting and ranges *)

(** The text that [quote_plus] returns when it returns. *)
Definition quoted_char (c : char) : str :=
  match quote_char c with Ok q => q | Raise _ => [] end.

Definition quoted (s : str) : str := concat (List.map quoted_char s).

(** Strings that [quote_plus] accepts: no lone surrogate. *)
Definition encodable (s : str) : bool :=
  forallb (fun c => match quote_char c with Ok _ => true | Raise _ => false end) s.

Lemma quote_plus_encodable (s : str) :
  encodable s = true -> quote_plus s = Ok (quoted s).
Proof.
  induction s as [|c s IH]; simpl; [reflexivity|].
  intros H. apply andb_true_iff in H as [Hc Hs].
  rewrite (IH Hs).
  change (quoted (c :: s)) with (quoted_char c ++ quoted s).
  unfold quoted_char.
  destruct (quote_char c); [reflexivity | discriminate].
Qed.

Ltac bool_to_prop :=
  repeat match goal with
    | H : (_ || _) = true |- _ => apply orb_true_iff in H; destruct H as [H|H]
    | H : (_ && _) = true |- _ => apply andb_true_iff in H; destruct H
    | H : (_ <=? _)%N = true |- _ => apply N.leb_le in H
    | H : (_ <? _)%N = true |- _ => apply N.ltb_lt in H
    | H : (_ =? _)%N = true |- _ => apply N.eqb_eq in H
    end.

Lemma always_safe_plain (c : char) :
  is_always_safe c = true ->
  c <> ascii_amp /\ c <> ascii_eq /\ c <> ascii_plus /\ c <> ascii_percent.
Proof.
  unfold is_always_safe, ascii_amp, ascii_eq, ascii_plus, ascii_percent.
  intros H. bool_to_prop; repeat split; lia.
Qed.

Lemma hex_digit_plain (d : N) :
  hex_digit d <> ascii_amp /\ hex_digit d <> ascii_eq.
Proof.
  unfold hex_digit, ascii_amp, ascii_eq.
  destruct (d <? 10)%N eqn:E; [apply N.ltb_lt in E | apply N.ltb_ge in E];
    split; lia.
Qed.

Definition plain (s : str) : Prop :=
  Forall (fun c => c <> ascii_amp /\ c <> ascii_eq) s.

Lemma quoted_char_plain (c : char) : plain (quoted_char c).
Proof.
  unfold quoted_char, quote_char, plain.
  destruct (is_always_safe c) eqn:Es.
  - constructor; [|constructor]. apply always_safe_plain in Es. tauto.
  - destruct (c =? ascii_space)%N.
    + repeat constructor; discriminate.
    + destruct (utf8_encode c) as [bytes|]; [|constructor].
      induction bytes as [|b bs IH]; simpl; [constructor|].
      repeat constructor; try discriminate; try apply hex_digit_plain.
      exact IH.
Qed.

Lemma quoted_plain (s : str) : plain (quoted s).
Proof.
  unfold quoted, plain. induction s as [|c s IH]; simpl; [constructor|].
  apply Forall_app. split; [apply quoted_char_plain | exact IH].
Qed.

Lemma utf8_encode_nonempty (c : char) : utf8_encode c <> Some [].
Proof.
  unfold utf8_encode.
  repeat match goal with |- context [if ?b then _ else _] => destruct b end;
    discriminate.
Qed.

(** A quoted text made of always-safe characters only is the text that
    was quoted. *)
Lemma quote_plus_safe_inv (k t : str) :
  quote_plus k = Ok t -> forallb is_always_safe t = true -> k = t.
Proof.
  revert t. induction k as [|c k IH]; intros t; simpl.
  - now intros [= <-].
  - unfold quote_char.
    destruct (is_always_safe c) eqn:Es; simpl.
    + destruct (quote_plus k) as [r|]; simpl; [|discriminate].
      intros [= <-]. simpl. rewrite Es. simpl. intros Hr.
      f_equal. now apply IH.
    + destruct (c =? ascii_space)%N; simpl.
      * destruct (quote_plus k); simpl; [|discriminate].
        intros [= <-]. discriminate.
      * destruct (utf8_encode c) as [[|b bs]|] eqn:Eu; simpl; try discriminate.
        { now apply utf8_encode_nonempty in Eu. }
        destruct (quote_plus k); simpl; [|discriminate].
        intros [= <-]. discriminate.
Qed.

Lemma quote_plus_safe (s : str) :
  forallb is_always_safe s = true -> quote_plus s = Ok s.
Proof.
  induction s as [|c s IH]; simpl; [reflexivity|].
  intros H. apply andb_true_iff in H as [Hc Hs].
  unfold quote_char. rewrite Hc. simpl. now rewrite (IH Hs).
Qed.

Lemma str_of_Z_always_safe (z : Z) :
  forallb is_always_safe (str_of_Z z) = true.
Proof.
  assert (Hd : forall d, forallb is_always_safe
                           (lit (NilEmpty.string_of_uint d)) = true)
    by (induction d; simpl; try reflexivity; assumption).
  assert (Hu : forall d, forallb is_always_safe
                           (lit (NilZero.string_of_uint d)) = true)
    by (intros d; unfold NilZero.string_of_uint;
        destruct d; try reflexivity; apply (Hd (_ d))).
  unfold str_of_Z. destruct z; simpl; try reflexivity; apply Hu.
Qed.

Lemma encodable_always_safe (s : str) :
  forallb is_always_safe s = true -> encodable s = true /\ quoted s = s.
Proof.
  intros H. pose proof (quote_plus_safe s H) as Hq. split.
  - clear Hq. induction s as [|c s IH]; simpl in *; [reflexivity|].
    apply andb_true_iff in H as [Hc Hs].
    unfold quote_char. rewrite Hc. simpl. now apply IH.
  - assert (He : encodable s = true).
    { clear Hq. induction s as [|c s IH]; simpl in *; [reflexivity|].
      apply andb_true_iff in H as [Hc Hs].
      unfold quote_char. rewrite Hc. simpl. now apply IH. }
    rewrite (quote_plus_encodable s He) in Hq. now injection Hq.
Qed.

(** Splitting at a character. *)
Lemma split_scan_char_absent (a : char) (cur f : str) :
  Forall (fun c => c <> a) f -> split_scan [a] O cur f = [rev cur ++ f].
Proof.
  intros H. revert cur. induction H as [|c f Hc _ IH]; intros cur; simpl.
  - now rewrite app_nil_r.
  - apply not_eq_sym, N.eqb_neq in Hc. rewrite Hc. simpl.
    rewrite IH. simpl. now rewrite <- app_assoc.
Qed.

Lemma split_scan_char_sep (a : char) (cur f rest : str) :
  Forall (fun c => c <> a) f ->
  split_scan [a] O cur (f ++ a :: rest)
  = (rev cur ++ f) :: split_scan [a] O [] rest.
Proof.
  intros H. revert cur. induction H as [|c f Hc _ IH]; intros cur; simpl.
  - rewrite N.eqb_refl. simpl. now rewrite app_nil_r.
  - apply not_eq_sym, N.eqb_neq in Hc. rewrite Hc. simpl.
    rewrite IH. simpl. now rewrite <- app_assoc.
Qed.

Lemma split_join_char (a : char) (fields : list str) :
  fields <> [] ->
  Forall (Forall (fun c => c <> a)) fields ->
  split [a] (join [a] fields) = fields.
Proof.
  intros Hne H. unfold split.
  induction H as [|f fs Hf Hfs IH]; [easy|].
  destruct fs as [|g fs].
  - simpl. now rewrite split_scan_char_absent.
  - change (join [a] (f :: g :: fs)) with (f ++ a :: join [a] (g :: fs)).
    rewrite split_scan_char_sep by assumption. simpl rev. simpl app at 1.
    f_equal. now apply IH.
Qed.

(** A field [k=v] starts with [name=] exactly when [k] is [name]. *)
Lemma startswith_name (name k r : str) :
  Forall (fun c => c <> ascii_eq) name ->
  Forall (fun c => c <> ascii_eq) k ->
  startswith (name ++ [ascii_eq]) (k ++ ascii_eq :: r) = true <-> k = name.
Proof.
  intros Hn. revert k. induction Hn as [|y name Hy _ IH]; intros k Hk.
  - destruct Hk as [|x k Hx _]; cbn [startswith app].
    + rewrite N.eqb_refl. easy.
    + apply not_eq_sym, N.eqb_neq in Hx. rewrite Hx. easy.
  - destruct Hk as [|x k Hx Hk]; cbn [startswith app].
    + apply N.eqb_neq in Hy. rewrite Hy. easy.
    + rewrite andb_true_iff, N.eqb_eq, IH by assumption.
      split; [intros [-> ->]; reflexivity | intros [= -> ->]; easy].
Qed.

Lemma py_range_ascending (start_from start_to step : Z) :
  start_from <= start_to -> 1 <= step ->
  exists n : nat,
    Z.of_nat n = (start_to - start_from) / step + 1
    /\ py_range start_from (start_to + 1) step
       = Ok (List.map (fun i => start_from + Z.of_nat i * step) (seq 0 n)).
Proof.
  intros Hft Hs. unfold py_range, range_length.
  destruct (step =? 0) eqn:E0; [apply Z.eqb_eq in E0; lia|].
  destruct (0 <? step) eqn:E1; [|apply Z.ltb_ge in E1; lia].
  destruct (start_from <? start_to + 1) eqn:E2; [|apply Z.ltb_ge in E2; lia].
  replace (start_to + 1 - start_from - 1) with (start_to - start_from) by lia.
  exists (Z.to_nat ((start_to - start_from) / step + 1)). split; [|reflexivity].
  apply Z2Nat.id.
  assert (0 <= (start_to - start_from) / step) by (apply Z.div_pos; lia). lia.
Qed.

(** ** The resolver *)

Section Urllib.

(** Three functions of [urllib.parse] are taken as they come.
    [urlparse] splits a URL into its six components, or raises;
    [urlunparse] puts six components together; [unquote] expands the
    percent escapes of a string (decoding them as UTF-8, with
    replacement characters for what does not decode). *)
Variable urlparse : str -> res ParseResult.
Variable urlunparse : ParseResult -> str.
Variable unquote : str -> str.

(** One field of a query string in [parse_qsl], with the defaults
    [keep_blank_values=False] and [strict_parsing=False]: empty fields,
    fields without an equals sign and fields with a blank value are
    passed over. *)
Definition parse_field (name_value : str) : option (str * str) :=
  match name_value with
  | [] => None
  | _ =>
      match split1 [ascii_eq] name_value with
      | [n; v] =>
          match v with
          | [] => None
          | _ => Some (unquote (replace_char ascii_plus ascii_space n),
                       unquote (replace_char ascii_plus ascii_space v))
          end
      | _ => None
      end
  end.

(** [parse_qsl(qs)] *)
Definition parse_qsl (qs : str) : list (str * str) :=
  let query_args := match qs with [] => [] | _ => split [ascii_amp] qs end in
  omap parse_field query_args.

(** The loop of [parse_qs]:
    <<
    for name, value in pairs:
        if name in parsed_result:
            parsed_result[name].append(value)
        else:
            parsed_result[name] = [value]
    >> *)
Definition add_value (parsed_result : dict (list str)) (nv : str * str)
    : dict (list str) :=
  match dict_get nv.1 parsed_result with
  | Some values => dict_set nv.1 (values ++ [nv.2]) parsed_result
  | None => dict_set nv.1 [nv.2] parsed_result
  end.

Definition parse_qs (qs : str) : dict (list str) :=
  fold_left add_value (parse_qsl qs) [].

(** [v[0]] *)
Definition first_value (v : list str) : res str :=
  match v with
  | x :: _ => Ok x
  | [] => Raise IndexError
  end.

(** The components of the URL for one value [s] of the range.
    <<
    q_mod = dict(q)
    q_mod["start"] = [str(s)]
    new_query = urlencode({k: v[0] if isinstance(v, list) else v
                           for k, v in q_mod.items()})
    >>
    followed by the tuple that is handed to [urlunparse]. *)
Definition new_components (parsed : ParseResult) (q : dict (list str)) (s : Z)
    : res ParseResult :=
  let q_mod := dict_set lit_start [str_of_Z s] q in
  let* items := map_res (fun kv : str * list str =>
                           let* v0 := first_value kv.2 in Ok (kv.1, v0))
                        q_mod in
  let* new_query := urlencode items in
  Ok {| scheme := scheme parsed; netloc := netloc parsed;
        path := path parsed; params := params parsed;
        query := new_query; fragment := fragment parsed |}.

(** <<
    def build_urls_from_range(base_url, start_from, start_to, step):
        urls = []
        parsed = urlparse(base_url)
        q = parse_qs(parsed.query)
        for s in range(start_from, start_to + 1, step):
            q_mod = dict(q)
            q_mod["start"] = [str(s)]
            new_query = urlencode({...})
            new_url = urlunparse((parsed.scheme, parsed.netloc, parsed.path,
                                  parsed.params, new_query, parsed.fragment))
            urls.append(new_url)
        return urls
    >> *)
Definition build_urls_from_range (base_url : str)
    (start_from start_to step : Z) : res (list str) :=
  let* parsed := urlparse base_url in
  let q := parse_qs (query parsed) in
  let* values := py_range start_from (start_to + 1) step in
  map_res (fun s => let* c := new_components parsed q s in Ok (urlunparse c))
          values.

(** *** Dictionaries *)

(** The first value of every item. *)
Definition pick (kv : str * list str) : str * str := (kv.1, hd [] kv.2).

Definition nonempty_values (d : dict (list str)) : Prop :=
  Forall (fun kv => kv.2 <> []) d.

(** What remains of a list of pairs when only the first pair of each
    name is kept. *)
Fixpoint first_occurrences (pairs : list (str * str)) : list (str * str) :=
  match pairs with
  | [] => []
  | nv :: ps => nv :: filter (fun p => p.1 <> nv.1) (first_occurrences ps)
  end.

Definition add_first (acc : list (str * str)) (nv : str * str)
    : list (str * str) :=
  match dict_get nv.1 acc with
  | Some _ => acc
  | None => acc ++ [nv]
  end.

Lemma dict_get_pick (k : str) (d : dict (list str)) :
  dict_get k (List.map pick d) = option_map (hd []) (dict_get k d).
Proof.
  induction d as [|[k' v] d IH]; simpl; [reflexivity|].
  destruct (decide (k' = k)); [reflexivity | exact IH].
Qed.

Lemma dict_set_absent {V : Type} (k : str) (v : V) (d : dict V) :
  dict_get k d = None -> dict_set k v d = d ++ [(k, v)].
Proof.
  induction d as [|[k' v'] d IH]; simpl; [reflexivity|].
  destruct (decide (k' = k)); [discriminate|].
  intros H. now rewrite IH.
Qed.

Lemma pick_dict_set (k x : str) (d : dict (list str)) :
  List.map pick (dict_set k [x] d) = dict_set k x (List.map pick d).
Proof.
  induction d as [|[k' v'] d IH]; simpl; [reflexivity|].
  destruct (decide (k' = k)); simpl; [reflexivity|]. now rewrite IH.
Qed.

Lemma pick_dict_set_append (k x : str) (vs : list str) (d : dict (list str)) :
  nonempty_values d -> dict_get k d = Some vs ->
  List.map pick (dict_set k (vs ++ [x]) d) = List.map pick d.
Proof.
  induction 1 as [|[k' v'] d Hne _ IH]; simpl; [discriminate|].
  destruct (decide (k' = k)) as [->|Hk]; simpl.
  - intros [= ->]. unfold pick. simpl in *. destruct vs; [easy | reflexivity].
  - intros H. now rewrite IH.
Qed.

Lemma nonempty_values_dict_set (k : str) (v : list str) (d : dict (list str)) :
  v <> [] -> nonempty_values d -> nonempty_values (dict_set k v d).
Proof.
  intros Hv. induction 1 as [|[k' v'] d Hne Hd IH]; simpl.
  - now repeat constructor.
  - destruct (decide (k' = k)); constructor; assumption.
Qed.

Lemma nonempty_values_add_value (d : dict (list str)) (nv : str * str) :
  nonempty_values d -> nonempty_values (add_value d nv).
Proof.
  intros H. unfold add_value.
  destruct (dict_get nv.1 d) as [vs|];
    apply nonempty_values_dict_set; try assumption; [now destruct vs | easy].
Qed.

Lemma pick_add_value (d : dict (list str)) (nv : str * str) :
  nonempty_values d ->
  List.map pick (add_value d nv) = add_first (List.map pick d) nv.
Proof.
  intros H. unfold add_value, add_first. rewrite dict_get_pick.
  destruct (dict_get nv.1 d) as [vs|] eqn:E; simpl.
  - now apply pick_dict_set_append.
  - rewrite dict_set_absent by assumption.
    rewrite List.map_app. simpl. now destruct nv.
Qed.

Lemma pick_fold_add_value (pairs : list (str * str)) (d : dict (list str)) :
  nonempty_values d ->
  nonempty_values (fold_left add_value pairs d)
  /\ List.map pick (fold_left add_value pairs d)
     = fold_left add_first pairs (List.map pick d).
Proof.
  revert d. induction pairs as [|nv ps IH]; intros d H; simpl; [easy|].
  destruct (IH (add_value d nv)) as [H1 H2];
    [now apply nonempty_values_add_value|].
  split; [assumption|]. now rewrite H2, pick_add_value.
Qed.

Lemma dict_get_app_None {V : Type} (k : str) (a b : dict V) :
  dict_get k (a ++ b) = None <-> dict_get k a = None /\ dict_get k b = None.
Proof.
  induction a as [|[k' v] a IH]; simpl; [tauto|].
  destruct (decide (k' = k)); [|exact IH].
  split; [discriminate | intros [? _]; discriminate].
Qed.

#[local] Instance dict_get_None_dec {V : Type} (k : str) (d : dict V) :
  Decision (dict_get k d = None).
Proof. destruct (dict_get k d); [right; discriminate | left; reflexivity]. Defined.

Lemma fold_add_first (pairs acc : list (str * str)) :
  fold_left add_first pairs acc
  = acc ++ filter (fun p => dict_get p.1 acc = None) (first_occurrences pairs).
Proof.
  revert acc. induction pairs as [|nv ps IH]; intros acc; simpl.
  - now rewrite app_nil_r.
  - rewrite IH. unfold add_first.
    destruct (dict_get nv.1 acc) as [x|] eqn:E.
    + rewrite filter_cons_False by (simpl; congruence).
      rewrite list_filter_filter. f_equal.
      apply list_filter_iff. intros p. split; [|tauto].
      intros Hp. split; [assumption|]. intros Heq. rewrite Heq in Hp. congruence.
    + rewrite filter_cons_True by assumption.
      rewrite <- app_assoc. simpl. do 2 f_equal.
      rewrite list_filter_filter.
      apply list_filter_iff. intros p.
      rewrite dict_get_app_None. destruct nv as [n v]. simpl.
      destruct (decide (n = p.1)) as [Heq|Hne].
      * split; [intros [_ H]; discriminate | intros [_ H]; congruence].
      * split; [intros [? _]; split; [assumption | congruence] | tauto].
Qed.

(** [parse_qs] keeps, as first value of every name, the value of its
    first occurrence. *)
Lemma pick_parse_qs (qs : str) :
  nonempty_values (parse_qs qs)
  /\ List.map pick (parse_qs qs) = first_occurrences (parse_qsl qs).
Proof.
  unfold parse_qs.
  destruct (pick_fold_add_value (parse_qsl qs) []) as [H1 H2]; [constructor|].
  split; [assumption|]. rewrite H2, fold_add_first. simpl.
  induction (first_occurrences (parse_qsl qs)) as [|p l IHl]; [reflexivity|].
  rewrite filter_cons_True by reflexivity. now f_equal.
Qed.

(** *** The query of a generated URL *)

(** The parsed base URL with another query. *)
Definition with_query (parsed : ParseResult) (new_query : str) : ParseResult :=
  {| scheme := scheme parsed; netloc := netloc parsed;
     path := path parsed; params := params parsed;
     query := new_query; fragment := fragment parsed |}.

(** One field [k=v] of an encoded query. *)
Definition field (kv : str * str) : str :=
  quoted kv.1 ++ [ascii_eq] ++ quoted kv.2.

Definition encodable_pairs (pairs : list (str * str)) : bool :=
  forallb (fun kv => encodable kv.1 && encodable kv.2) pairs.

(** The items that are encoded for the value [s]: the first occurrence
    of every name of the base query, with [start] set to [str(s)]. *)
Definition range_items (qs : str) (s : Z) : list (str * str) :=
  dict_set lit_start (str_of_Z s) (first_occurrences (parse_qsl qs)).

Definition range_query (qs : str) (s : Z) : str :=
  join [ascii_amp] (List.map field (range_items qs s)).

Definition start_eq : str := Eval cbv in lit "start=".

Lemma first_values_ok (d : dict (list str)) :
  nonempty_values d ->
  map_res (fun kv : str * list str =>
             let* v0 := first_value kv.2 in Ok (kv.1, v0)) d
  = Ok (List.map pick d).
Proof.
  intros H. apply map_res_ok.
  induction H as [|[k v] d Hv _ IH]; constructor; [|exact IH].
  simpl in *. destruct v; [easy | reflexivity].
Qed.

Lemma encodable_pairs_first_occurrences (pairs : list (str * str)) :
  encodable_pairs pairs = true ->
  encodable_pairs (first_occurrences pairs) = true.
Proof.
  unfold encodable_pairs. rewrite !forallb_forall.
  intros H kv Hin. apply H. clear H.
  induction pairs as [|nv ps IH]; simpl in *; [easy|].
  destruct Hin as [<- | Hin]; [now left | right].
  apply IH. apply list_elem_of_In in Hin.
  apply list_elem_of_filter in Hin as [_ Hin]. now apply list_elem_of_In.
Qed.

Lemma encodable_pairs_dict_set (k v : str) (d : list (str * str)) :
  encodable k = true -> encodable v = true ->
  encodable_pairs d = true -> encodable_pairs (dict_set k v d) = true.
Proof.
  intros Hk Hv. induction d as [|[k' v'] d IH]; simpl.
  - now rewrite Hk, Hv.
  - intros H. apply andb_true_iff in H as [H1 H2].
    destruct (decide (k' = k)); simpl.
    + now rewrite Hk, Hv, H2.
    + now rewrite H1, IH.
Qed.

Lemma urlencode_ok (items : list (str * str)) :
  encodable_pairs items = true ->
  urlencode items = Ok (join [ascii_amp] (List.map field items)).
Proof.
  intros H. unfold urlencode.
  rewrite (map_res_ok encode_item field); [reflexivity|].
  unfold encodable_pairs in H. rewrite forallb_forall in H.
  apply List.Forall_forall. intros kv Hin.
  specialize (H kv Hin). apply andb_true_iff in H as [H1 H2].
  unfold encode_item, field.
  now rewrite (quote_plus_encodable _ H1), (quote_plus_encodable _ H2).
Qed.

Lemma range_items_encodable (qs : str) (s : Z) :
  encodable_pairs (parse_qsl qs) = true ->
  encodable_pairs (range_items qs s) = true.
Proof.
  intros H. apply encodable_pairs_dict_set.
  - reflexivity.
  - apply encodable_always_safe, str_of_Z_always_safe.
  - now apply encodable_pairs_first_occurrences.
Qed.

Lemma new_components_ok (parsed : ParseResult) (s : Z) :
  encodable_pairs (parse_qsl (query parsed)) = true ->
  new_components parsed (parse_qs (query parsed)) s
  = Ok (with_query parsed (range_query (query parsed) s)).
Proof.
  intros H. unfold new_components.
  destruct (pick_parse_qs (query parsed)) as [Hne Hpick].
  rewrite first_values_ok
    by (apply nonempty_values_dict_set; [discriminate | assumption]).
  simpl. rewrite pick_dict_set, Hpick.
  fold (range_items (query parsed) s).
  rewrite urlencode_ok by now apply range_items_encodable.
  reflexivity.
Qed.

Lemma build_urls_from_range_ok (base_url : str) (parsed : ParseResult)
    (start_from start_to step : Z) (values : list Z) :
  urlparse base_url = Ok parsed ->
  encodable_pairs (parse_qsl (query parsed)) = true ->
  py_range start_from (start_to + 1) step = Ok values ->
  build_urls_from_range base_url start_from start_to step
  = Ok (List.map (fun s => urlunparse
                             (with_query parsed (range_query (query parsed) s)))
          values).
Proof.
  intros Hp He Hr. unfold build_urls_from_range.
  rewrite Hp. simpl. rewrite Hr. simpl.
  apply map_res_ok. apply List.Forall_forall. intros s _.
  now rewrite new_components_ok.
Qed.

(** *** The items of a generated query *)

Lemma dict_get_filter_ne (k n : str) (l : list (str * str)) :
  k <> n -> dict_get k (filter (fun p => p.1 <> n) l) = dict_get k l.
Proof.
  intros Hk. induction l as [|[k' v] l IH]; [reflexivity|].
  destruct (decide (k' = n)) as [->|Hn].
  - rewrite filter_cons_False by (simpl; tauto).
    simpl. destruct (decide (n = k)); [congruence | exact IH].
  - rewrite filter_cons_True by assumption.
    simpl. destruct (decide (k' = k)); [reflexivity | exact IH].
Qed.

Lemma dict_get_first_occurrences (k : str) (pairs : list (str * str)) :
  dict_get k (first_occurrences pairs) = dict_get k pairs.
Proof.
  induction pairs as [|[n v] ps IH]; simpl; [reflexivity|].
  destruct (decide (n = k)); [reflexivity|].
  now rewrite dict_get_filter_ne by congruence.
Qed.

Lemma NoDup_first_occurrences (pairs : list (str * str)) :
  List.NoDup (List.map fst (first_occurrences pairs)).
Proof.
  induction pairs as [|[n v] ps IH]; simpl; constructor.
  - rewrite in_map_iff. intros [[k x] [Hk Hin]]. simpl in Hk. subst k.
    apply list_elem_of_In, list_elem_of_filter in Hin as [Hne _]. now apply Hne.
  - revert IH. generalize (first_occurrences ps). intros l.
    induction l as [|[k x] l IHl]; [constructor|].
    intros Hnd. inversion Hnd as [|? ? Hnotin Hnd']; subst.
    destruct (decide (k = n)) as [->|Hkn].
    + rewrite filter_cons_False by (simpl; tauto). now apply IHl.
    + rewrite filter_cons_True by assumption. simpl. constructor; [|now apply IHl].
      rewrite in_map_iff. intros [[k' x'] [Hk' Hin']]. simpl in Hk'. subst k'.
      apply Hnotin. rewrite in_map_iff. exists (k, x'). split; [reflexivity|].
      apply list_elem_of_In, list_elem_of_filter in Hin' as [_ Hin'].
      now apply list_elem_of_In.
Qed.

Lemma dict_get_dict_set {V : Type} (k k' : str) (v : V) (d : dict V) :
  dict_get k' (dict_set k v d)
  = if decide (k = k') then Some v else dict_get k' d.
Proof.
  induction d as [|[n x] d IH]; simpl.
  - reflexivity.
  - destruct (decide (n = k)) as [->|Hn]; simpl.
    + destruct (decide (k = k')); reflexivity.
    + destruct (decide (n = k')) as [->|Hn'].
      * destruct (decide (k = k')); [congruence | reflexivity].
      * exact IH.
Qed.

Lemma keys_dict_set_in {V : Type} (k n : str) (v : V) (d : dict V) :
  In n (List.map fst (dict_set k v d)) -> n = k \/ In n (List.map fst d).
Proof.
  induction d as [|[k' x] d IH]; simpl.
  - intros [<- | []]. now left.
  - destruct (decide (k' = k)) as [->|Hk]; simpl.
    + intros [<- | H]; [now left | right; now right].
    + intros [<- | H]; [right; now left|].
      destruct (IH H) as [-> | H']; [now left | right; now right].
Qed.

Lemma NoDup_dict_set {V : Type} (k : str) (v : V) (d : dict V) :
  List.NoDup (List.map fst d) -> List.NoDup (List.map fst (dict_set k v d)).
Proof.
  induction d as [|[k' x] d IH]; simpl.
  - intros _. repeat constructor. easy.
  - intros Hnd. inversion Hnd as [|? ? Hnotin Hnd']; subst.
    destruct (decide (k' = k)) as [->|Hk]; simpl.
    + now constructor.
    + constructor; [|now apply IH].
      intros Hin. apply keys_dict_set_in in Hin as [-> | Hin]; easy.
Qed.

(** *** The [start] field *)

Lemma field_starts (k x : str) :
  encodable k = true ->
  startswith start_eq (field (k, x)) = true <-> k = lit_start.
Proof.
  intros Hk. unfold field. simpl fst. simpl snd.
  change start_eq with (lit_start ++ [ascii_eq]).
  change (quoted k ++ [ascii_eq] ++ quoted x)
    with (quoted k ++ ascii_eq :: quoted x).
  rewrite startswith_name.
  - split.
    + intros Hq. apply quote_plus_safe_inv; [|reflexivity].
      now rewrite quote_plus_encodable, Hq.
    + now intros ->.
  - repeat constructor; discriminate.
  - eapply Forall_impl; [apply quoted_plain|]. simpl. tauto.
Qed.

Lemma encodable_pairs_cons (kv : str * str) (items : list (str * str)) :
  encodable_pairs (kv :: items) = true ->
  encodable kv.1 = true /\ encodable_pairs items = true.
Proof.
  unfold encodable_pairs. cbn [forallb]. intros H.
  apply andb_true_iff in H as [Hkx He].
  apply andb_true_iff in Hkx as [Hk _]. now split.
Qed.

Lemma no_start_field (items : list (str * str)) :
  encodable_pairs items = true ->
  ~ In lit_start (List.map fst items) ->
  List.filter (startswith start_eq) (List.map field items) = [].
Proof.
  induction items as [|[k x] items IH]; [reflexivity|].
  intros He Hnotin. apply encodable_pairs_cons in He as [Hk He].
  cbn [List.map List.filter fst In] in *.
  destruct (startswith start_eq (field (k, x))) eqn:E.
  - apply field_starts in E; [|assumption]. exfalso. apply Hnotin. now left.
  - apply IH; [assumption|]. intros Hin. apply Hnotin. now right.
Qed.

Lemma one_start_field (items : list (str * str)) (v : str) :
  List.NoDup (List.map fst items) ->
  encodable_pairs items = true ->
  dict_get lit_start items = Some v ->
  List.filter (startswith start_eq) (List.map field items)
  = [field (lit_start, v)].
Proof.
  induction items as [|[k x] items IH]; [discriminate|].
  intros Hnd He Hget. apply encodable_pairs_cons in He as [Hk He].
  cbn [List.map List.filter fst dict_get] in *.
  inversion Hnd as [|? ? Hnotin Hnd']; subst.
  destruct (decide (k = lit_start)) as [->|Hne].
  - injection Hget as ->.
    assert (E : startswith start_eq (field (lit_start, v)) = true)
      by (now apply field_starts).
    rewrite E. f_equal. now apply no_start_field.
  - destruct (startswith start_eq (field (k, x))) eqn:E.
    + apply field_starts in E; [congruence | assumption].
    + now apply IH.
Qed.

Lemma field_plain (kv : str * str) :
  Forall (fun c => c <> ascii_amp) (field kv).
Proof.
  unfold field. apply Forall_app. split; [|apply Forall_app; split].
  - eapply Forall_impl; [apply quoted_plain|]. simpl. tauto.
  - repeat constructor. discriminate.
  - eapply Forall_impl; [apply quoted_plain|]. simpl. tauto.
Qed.

(** Splitting a generated query at [&] gives back its fields, and
    exactly one of them is a [start] field: [start=] followed by the
    decimal text of [s]. *)
Lemma range_query_start (qs : str) (s : Z) :
  encodable_pairs (parse_qsl qs) = true ->
  split [ascii_amp] (range_query qs s) = List.map field (range_items qs s)
  /\ List.filter (startswith start_eq) (split [ascii_amp] (range_query qs s))
     = [start_eq ++ str_of_Z s].
Proof.
  intros He. unfold range_query.
  assert (Hs : split [ascii_amp]
                 (join [ascii_amp] (List.map field (range_items qs s)))
               = List.map field (range_items qs s)).
  { apply split_join_char.
    - unfold range_items.
      destruct (first_occurrences (parse_qsl qs)) as [|[k v] l]; simpl;
        [discriminate|].
      destruct (decide (k = lit_start)); discriminate.
    - apply List.Forall_forall. intros f Hin.
      apply in_map_iff in Hin as [kv [<- _]]. apply field_plain. }
  split; [exact Hs|]. rewrite Hs.
  rewrite (one_start_field _ (str_of_Z s)).
  - unfold field. simpl fst. simpl snd.
    destruct (encodable_always_safe _ (str_of_Z_always_safe s)) as [_ ->].
    reflexivity.
  - apply NoDup_dict_set, NoDup_first_occurrences.
  - now apply range_items_encodable.
  - unfold range_items. rewrite dict_get_dict_set.
    destruct (decide (lit_start = lit_start)); [reflexivity | congruence].
Qed.

(** C3: for a base URL that parses and a range with
    [start_from <= start_to] and [step >= 1], the resolver returns
    [(start_to - start_from) / step + 1] URLs.  The [i]-th of them is the
    parsed base URL with a new query whose fields hold exactly one
    [start] field, with the value [start_from + i * step]: whatever
    [start] fields the base URL had are replaced by this one, and the
    values grow strictly with [i]. *)
Theorem build_urls_from_range_count_and_start
    (base_url : str) (parsed : ParseResult) (start_from start_to step : Z) :
  urlparse base_url = Ok parsed ->
  encodable_pairs (parse_qsl (query parsed)) = true ->
  start_from <= start_to -> 1 <= step ->
  exists urls : list str,
    build_urls_from_range base_url start_from start_to step = Ok urls
    /\ Z.of_nat (length urls) = (start_to - start_from) / step + 1
    /\ (forall i : nat, (i < length urls)%nat ->
          exists new_query : str,
            urls !! i = Some (urlunparse (with_query parsed new_query))
            /\ List.filter (startswith start_eq) (split [ascii_amp] new_query)
               = [start_eq ++ str_of_Z (start_from + Z.of_nat i * step)]
            /\ start_from + Z.of_nat i * step
               < start_from + Z.of_nat (S i) * step).
Proof.
  intros Hp He Hft Hstep.
  destruct (py_range_ascending start_from start_to step Hft Hstep)
    as (n & Hn & Hr).
  eexists. split; [exact (build_urls_from_range_ok _ _ _ _ _ _ Hp He Hr)|].
  split; [now rewrite !length_map, length_seq|].
  intros i Hi. rewrite !length_map, length_seq in Hi.
  exists (range_query (query parsed) (start_from + Z.of_nat i * step)).
  split; [|split].
  - change (List.map ?f ?l) with (f <$> l).
    rewrite !list_lookup_fmap, lookup_seq_lt by assumption. reflexivity.
  - now apply range_query_start.
  - nia.
Qed.

(** C4 (amended): every generated URL is put together from the scheme,
    host, path, parameters and fragment of the parsed base URL and a
    query that is encoded anew from these items: the first occurrence
    of every name of the base query that has a non-blank value, in the
    order of the base query, with [start] set to the value of the
    range.  Every name other than [start] keeps the value of its first
    occurrence, and no name occurs twice. *)
Theorem build_urls_from_range_keeps_first_values
    (base_url : str) (parsed : ParseResult) (start_from start_to step : Z) :
  urlparse base_url = Ok parsed ->
  encodable_pairs (parse_qsl (query parsed)) = true ->
  step <> 0 ->
  exists urls : list str,
    build_urls_from_range base_url start_from start_to step = Ok urls
    /\ Forall (fun url =>
         exists (s : Z) (items : list (str * str)) (new_query : str),
           url = urlunparse (with_query parsed new_query)
           /\ urlencode items = Ok new_query
           /\ items = dict_set lit_start (str_of_Z s)
                        (first_occurrences (parse_qsl (query parsed)))
           /\ List.NoDup (List.map fst items)
           /\ dict_get lit_start items = Some (str_of_Z s)
           /\ forall k : str, k <> lit_start ->
                dict_get k items = dict_get k (parse_qsl (query parsed)))
       urls.
Proof.
  intros Hp He Hstep.
  assert (Hr : exists values,
             py_range start_from (start_to + 1) step = Ok values).
  { unfold py_range. destruct (step =? 0) eqn:E; [|eauto].
    apply Z.eqb_eq in E. contradiction. }
  destruct Hr as [values Hr].
  eexists. split; [exact (build_urls_from_range_ok _ _ _ _ _ _ Hp He Hr)|].
  apply List.Forall_forall. intros url Hin.
  apply in_map_iff in Hin as [s [<- _]].
  exists s, (range_items (query parsed) s), (range_query (query parsed) s).
  split; [reflexivity|]. split; [|split; [reflexivity|split; [|split]]].
  - apply urlencode_ok. now apply range_items_encodable.
  - apply NoDup_dict_set, NoDup_first_occurrences.
  - unfold range_items. rewrite dict_get_dict_set.
    destruct (decide (lit_start = lit_start)); [reflexivity | congruence].
  - intros k Hk. unfold range_items. rewrite dict_get_dict_set.
    destruct (decide (lit_start = k)); [congruence|].
    apply dict_get_first_occurrences.
Qed.

(** *** Ranges that give no URL, and descending ranges *)

(** X9: the range is resolved after the base URL is parsed, so a base
    URL that does not parse fails with the parser's exception whatever
    the range is.  For a base URL that parses, a step of zero is a
    [ValueError]; an ascending range whose end lies below its start
    and a descending range whose start is at most one above its end
    give the empty list, without looking at the query. *)
Theorem build_urls_from_range_degenerate
    (base_url : str) (start_from start_to step : Z) :
  (forall e : exn,
     urlparse base_url = Raise e ->
     build_urls_from_range base_url start_from start_to step = Raise e)
  /\ (forall parsed : ParseResult,
        urlparse base_url = Ok parsed ->
        (step = 0 ->
         build_urls_from_range base_url start_from start_to step
         = Raise ValueError)
        /\ (1 <= step -> start_to < start_from ->
            build_urls_from_range base_url start_from start_to step = Ok [])
        /\ (step <= -1 -> start_from <= start_to + 1 ->
            build_urls_from_range base_url start_from start_to step = Ok [])).
Proof.
  split.
  - intros e He. unfold build_urls_from_range. now rewrite He.
  - intros parsed Hp. unfold build_urls_from_range. rewrite Hp.
    cbn [bind]. unfold py_range, range_length. repeat split.
    + now intros ->.
    + intros Hs Hft.
      destruct (step =? 0) eqn:E0; [apply Z.eqb_eq in E0; lia|].
      destruct (0 <? step) eqn:E1; [|apply Z.ltb_ge in E1; lia].
      destruct (start_from <? start_to + 1) eqn:E2;
        [apply Z.ltb_lt in E2; lia | reflexivity].
    + intros Hs Hft.
      destruct (step =? 0) eqn:E0; [apply Z.eqb_eq in E0; lia|].
      destruct (0 <? step) eqn:E1; [apply Z.ltb_lt in E1; lia|].
      destruct (start_to + 1 <? start_from) eqn:E2;
        [apply Z.ltb_lt in E2; lia | reflexivity].
Qed.

(** X10: a descending range.  With a negative step and a start that
    lies at least two above the end, the resolver returns
    [(start_from - start_to - 2) / (- step) + 1] URLs whose [start]
    values go down from [start_from] by the step; every one of them is
    at least [start_to + 2], so that neither [start_to] nor
    [start_to + 1] is ever among them. *)
Theorem build_urls_from_range_descending
    (base_url : str) (parsed : ParseResult) (start_from start_to step : Z) :
  urlparse base_url = Ok parsed ->
  encodable_pairs (parse_qsl (query parsed)) = true ->
  step <= -1 -> start_to + 1 < start_from ->
  exists urls : list str,
    build_urls_from_range base_url start_from start_to step = Ok urls
    /\ Z.of_nat (length urls) = (start_from - start_to - 2) / (- step) + 1
    /\ (forall i : nat, (i < length urls)%nat ->
          exists new_query : str,
            urls !! i = Some (urlunparse (with_query parsed new_query))
            /\ List.filter (startswith start_eq) (split [ascii_amp] new_query)
               = [start_eq ++ str_of_Z (start_from + Z.of_nat i * step)]
            /\ start_to + 2 <= start_from + Z.of_nat i * step).
Proof.
  intros Hp He Hs Hft.
  set (k := (start_from - start_to - 2) / (- step)).
  assert (Hk : 0 <= k) by (apply Z.div_pos; lia).
  assert (Hr : py_range start_from (start_to + 1) step
               = Ok (List.map (fun i => start_from + Z.of_nat i * step)
                       (seq 0 (Z.to_nat (k + 1))))).
  { unfold py_range, range_length.
    destruct (step =? 0) eqn:E0; [apply Z.eqb_eq in E0; lia|].
    destruct (0 <? step) eqn:E1; [apply Z.ltb_lt in E1; lia|].
    destruct (start_to + 1 <? start_from) eqn:E2; [|apply Z.ltb_ge in E2; lia].
    replace (start_from - (start_to + 1) - 1) with (start_from - start_to - 2)
      by lia.
    reflexivity. }
  eexists. split; [exact (build_urls_from_range_ok _ _ _ _ _ _ Hp He Hr)|].
  split; [rewrite !length_map, length_seq; lia|].
  intros i Hi. rewrite !length_map, length_seq in Hi.
  exists (range_query (query parsed) (start_from + Z.of_nat i * step)).
  split; [|split].
  - change (List.map ?f ?l) with (f <$> l).
    rewrite !list_lookup_fmap, lookup_seq_lt by assumption. reflexivity.
  - now apply range_query_start.
  - assert (Hi' : Z.of_nat i <= k) by lia.
    pose proof (Z.mul_div_le (start_from - start_to - 2) (- step)
                  ltac:(lia)) as Hd.
    fold k in Hd. nia.
Qed.

(** *** Where the [start] field goes *)

Lemma keys_dict_set_present {V : Type} (k : str) (v x : V) (d : dict V) :
  dict_get k d = Some x -> List.map fst (dict_set k v d) = List.map fst d.
Proof.
  induction d as [|[k' v'] d IH]; simpl; [discriminate|].
  destruct (decide (k' = k)) as [->|Hk]; simpl; [reflexivity|].
  intros H. now rewrite IH.
Qed.

Lemma start_field_text (s : Z) :
  field (lit_start, str_of_Z s) = start_eq ++ str_of_Z s.
Proof.
  unfold field. simpl fst. simpl snd.
  destruct (encodable_always_safe _ (str_of_Z_always_safe s)) as [_ ->].
  reflexivity.
Qed.

(** X11: where the [start] field goes.  The new query is made of one
    field per item.  When the base query has no [start], the items are
    those of the base query followed by [start]: the field comes last.
    When it has one, the names keep their order: [start] stays where
    it first occurred.  For a base URL without a query the new query is
    [start=] followed by the value. *)
Theorem start_field_position (parsed : ParseResult) (s : Z) :
  encodable_pairs (parse_qsl (query parsed)) = true ->
  exists items : list (str * str),
    new_components parsed (parse_qs (query parsed)) s
    = Ok (with_query parsed (join [ascii_amp] (List.map field items)))
    /\ (dict_get lit_start (parse_qsl (query parsed)) = None ->
        items = first_occurrences (parse_qsl (query parsed))
                ++ [(lit_start, str_of_Z s)])
    /\ (is_Some (dict_get lit_start (parse_qsl (query parsed))) ->
        List.map fst items
        = List.map fst (first_occurrences (parse_qsl (query parsed))))
    /\ (query parsed = [] ->
        join [ascii_amp] (List.map field items) = start_eq ++ str_of_Z s).
Proof.
  intros He. exists (range_items (query parsed) s).
  split; [now apply new_components_ok|]. unfold range_items.
  split; [|split].
  - intros H. apply dict_set_absent. now rewrite dict_get_first_occurrences.
  - intros [v Hv]. apply (keys_dict_set_present _ _ v).
    now rewrite dict_get_first_occurrences.
  - intros ->. cbn [parse_qsl omap first_occurrences dict_set List.map join].
    apply start_field_text.
Qed.

(** *** Different values, different queries *)

Lemma decimal_value_str_of_Z (z : Z) : decimal_value (str_of_Z z) = Some z.
Proof.
  unfold decimal_value, str_of_Z. rewrite SafeName.unlit_lit.
  rewrite NilZero.isi.
  - cbn [option_map]. now rewrite DecimalZ.of_to.
  - destruct z; simpl; try easy.
    intros [= H]. now apply DecimalPos.Unsigned.to_uint_nonnil in H.
  - destruct z; simpl; try easy.
    intros [= H]. now apply DecimalPos.Unsigned.to_uint_nonnil in H.
Qed.

(** X12: the decimal text of a [start] value reads back as the value,
    and so two values of the range never give the same query: URLs
    built for different values differ. *)
Theorem generated_queries_distinct (parsed c c' : ParseResult) (s s' : Z) :
  encodable_pairs (parse_qsl (query parsed)) = true ->
  new_components parsed (parse_qs (query parsed)) s = Ok c ->
  new_components parsed (parse_qs (query parsed)) s' = Ok c' ->
  query c = query c' -> s = s'.
Proof.
  intros He. rewrite !new_components_ok by assumption.
  intros [= <-] [= <-]. cbn [with_query query]. intros Hq.
  destruct (range_query_start (query parsed) s He) as [_ H1].
  destruct (range_query_start (query parsed) s' He) as [_ H2].
  rewrite Hq, H2 in H1. injection H1 as H1.
  pose proof (decimal_value_str_of_Z s) as Hs.
  rewrite <- H1, decimal_value_str_of_Z in Hs. congruence.
Qed.

End Urllib.

(** ** The library functions on plain URLs

    An instance of the three functions, for running the resolver on
    concrete URLs.  It follows [urlsplit], [urlparse], [urlunparse] and
    [unquote] of CPython 3.11 on URLs whose host is ASCII and has no
    bracketed IPv6 literal (which the library validates further) and
    whose percent escapes are below [%80] (an escape from [%80] on is
    given the replacement character here, as if it stood alone). *)

Fixpoint find_char (c : char) (s : str) : option nat :=
  match s with
  | [] => None
  | x :: s' => if (x =? c)%N then Some O else option_map S (find_char c s')
  end.

Definition in_str (c : char) (s : str) : bool :=
  match find_char c s with Some _ => true | None => false end.

Definition str_eqb (a b : str) : bool := bool_decide (a = b).

(** [url, rest = url.split(c, 1)] when [c] occurs, else [rest = ''] *)
Definition cut_at (c : char) (s : str) : str * str :=
  match find_char c s with
  | Some i => (take i s, drop (S i) s)
  | None => (s, [])
  end.

Definition lower (s : str) : str :=
  List.map (fun c => if ((65 <=? c) && (c <=? 90))%N then (c + 32)%N else c) s.

Definition is_alpha (c : char) : bool :=
  ((65 <=? c) && (c <=? 90) || (97 <=? c) && (c <=? 122))%N.

Definition is_scheme_char (c : char) : bool :=
  (is_alpha c || (48 <=? c) && (c <=? 57)
   || (c =? 43) || (c =? 45) || (c =? 46))%N.

Fixpoint lstrip_c0 (s : str) : str :=
  match s with
  | c :: s' => if (c <=? 32)%N then lstrip_c0 s' else s
  | [] => []
  end.

Definition uses_params : list str :=
  Eval cbv in List.map lit
    [""; "ftp"; "hdl"; "prospero"; "http"; "imap"; "https"; "shttp"; "rtsp";
     "rtspu"; "sip"; "sips"; "mms"; "sftp"; "tel"]%string.

Definition uses_netloc : list str :=
  Eval cbv in List.map lit
    [""; "ftp"; "http"; "gopher"; "nntp"; "telnet"; "imap"; "wais"; "file";
     "mms"; "https"; "shttp"; "snews"; "prospero"; "rtsp"; "rtspu"; "rsync";
     "svn"; "svn+ssh"; "sftp"; "nfs"; "git"; "git+ssh"; "ws"; "wss"]%string.

Definition split_scheme (url : str) : str * str :=
  match find_char 58%N url, url with
  | Some (S i), c :: _ =>
      if is_alpha c && forallb is_scheme_char (take (S i) url)
      then (lower (take (S i) url), drop (S (S i)) url)
      else ([], url)
  | _, _ => ([], url)
  end.

(** [_splitnetloc(url, 2)] on the text after the two slashes. *)
Fixpoint splitnetloc (cur s : str) : str * str :=
  match s with
  | [] => (rev cur, [])
  | c :: s' =>
      if ((c =? 47) || (c =? 63) || (c =? 35))%N then (rev cur, s)
      else splitnetloc (c :: cur) s'
  end.

(** [url.rfind('/')] *)
Definition rfind_char (c : char) (s : str) : option nat :=
  match find_char c (rev s) with
  | Some i => Some (length s - 1 - i)%nat
  | None => None
  end.

Definition splitparams (url : str) : str * str :=
  match rfind_char 47%N url with
  | Some j =>
      match find_char 59%N (drop j url) with
      | Some i => (take (j + i) url, drop (S (j + i)) url)
      | None => (url, [])
      end
  | None => cut_at 59%N url
  end.

Definition urlparse_plain (url : str) : res ParseResult :=
  let url := lstrip_c0 url in
  let url := List.filter
               (fun c => negb ((c =? 9) || (c =? 13) || (c =? 10))%N) url in
  let '(sch, url) := split_scheme url in
  let '(loc, url) :=
    if startswith [47; 47]%N url then splitnetloc [] (drop 2 url)
    else ([], url) in
  if xorb (in_str 91%N loc) (in_str 93%N loc) then Raise ValueError
  else
    let '(url, frag) := cut_at 35%N url in
    let '(url, qry) := cut_at 63%N url in
    let '(url, prm) :=
      if existsb (str_eqb sch) uses_params && in_str 59%N url
      then splitparams url else (url, []) in
    Ok {| scheme := sch; netloc := loc; path := url; params := prm;
          query := qry; fragment := frag |}.

Definition nonempty (s : str) : bool :=
  match s with [] => false | _ => true end.

Definition urlunparse_plain (c : ParseResult) : str :=
  let url := if nonempty (params c) then path c ++ [59%N] ++ params c
             else path c in
  let url :=
    if nonempty (netloc c)
       || (nonempty (scheme c) && existsb (str_eqb (scheme c)) uses_netloc
           && negb (str_eqb (take 2 url) [47; 47]%N))
    then [47; 47]%N ++ netloc c
         ++ (if nonempty url && negb (str_eqb (take 1 url) [47%N])
             then 47%N :: url else url)
    else url in
  let url := if nonempty (scheme c) then scheme c ++ [58%N] ++ url else url in
  let url := if nonempty (query c) then url ++ [63%N] ++ query c else url in
  if nonempty (fragment c) then url ++ [35%N] ++ fragment c else url.

Definition hex_value (c : char) : option N :=
  (if (48 <=? c) && (c <=? 57) then Some (c - 48)
   else if (65 <=? c) && (c <=? 70) then Some (c - 55)
   else if (97 <=? c) && (c <=? 102) then Some (c - 87)
   else None)%N.

(** [unquote] on queries whose percent escapes are those of ASCII
    characters.  An escape from [%80] on is given as U+FFFD, which is
    urllib's answer only for a byte outside a UTF-8 sequence: escapes
    that form a multi-byte character are outside this function.  The
    theorems of this module hold for any [unquote]; this one serves
    the computed examples, whose escapes are ASCII. *)
Fixpoint unquote_scan (skip : nat) (s : str) : str :=
  match s with
  | [] => []
  | c :: s' =>
      match skip with
      | S k => unquote_scan k s'
      | O =>
          match (c =? ascii_percent)%N, s' with
          | true, h :: l :: _ =>
              match hex_value h, hex_value l with
              | Some a, Some b =>
                  (if (16 * a + b <? 128)%N then (16 * a + b)%N else 65533%N)
                  :: unquote_scan 2 s'
              | _, _ => c :: unquote_scan O s'
              end
          | _, _ => c :: unquote_scan O s'
          end
      end
  end.

Definition unquote_plain (s : str) : str := unquote_scan O s.

(** ** The resolver on concrete URLs *)

Definition resolve : str -> Z -> Z -> Z -> res (list str) :=
  build_urls_from_range urlparse_plain urlunparse_plain unquote_plain.

Example resolve_three_pages :
  resolve (lit "https://scholar.google.com/scholar?hl=en&start=5&q=coq") 0 20 10
  = Ok [lit "https://scholar.google.com/scholar?hl=en&start=0&q=coq";
        lit "https://scholar.google.com/scholar?hl=en&start=10&q=coq";
        lit "https://scholar.google.com/scholar?hl=en&start=20&q=coq"].
Proof. vm_compute. reflexivity. Qed.

Example resolve_injects_start :
  resolve (lit "https://scholar.google.com/scholar?q=coq#top") 3 10 4
  = Ok [lit "https://scholar.google.com/scholar?q=coq&start=3#top";
        lit "https://scholar.google.com/scholar?q=coq&start=7#top"].
Proof. vm_compute. reflexivity. Qed.

Example resolve_zero_step :
  resolve (lit "https://scholar.google.com/scholar?q=coq") 0 20 0
  = Raise ValueError.
Proof. vm_compute. reflexivity. Qed.

Example resolve_lone_surrogate :
  resolve (lit "https://scholar.google.com/scholar?q=" ++ [56575%N]) 0 0 10
  = Raise UnicodeEncodeError.
Proof. vm_compute. reflexivity. Qed.

(** The fields of a query other than its [start] fields, as written. *)
Definition other_fields (qs : str) : list str :=
  List.filter (fun f => negb (startswith start_eq f)) (split [ascii_amp] qs).

(** C4 as it is stated: a generated URL differs from the base URL in the
    value of [start] only, every other field of the query being kept as
    it is written, repeated names included. *)
Definition differs_only_in_start (base_url url : str) : Prop :=
  match urlparse_plain base_url, urlparse_plain url with
  | Ok b, Ok u =>
      scheme u = scheme b /\ netloc u = netloc b /\ path u = path b
      /\ params u = params b /\ fragment u = fragment b
      /\ other_fields (query u) = other_fields (query b)
  | _, _ => False
  end.

Definition two_q_url : str :=
  Eval cbv in lit "https://scholar.google.com/scholar?q=a&q=b&start=5".

(** A parameter given twice loses its second value: C4 fails as stated. *)
Lemma repeated_parameter_not_preserved :
  resolve two_q_url 0 0 10
    = Ok [lit "https://scholar.google.com/scholar?q=a&start=0"]
  /\ ~ differs_only_in_start two_q_url
        (lit "https://scholar.google.com/scholar?q=a&start=0").
Proof.
  split; [vm_compute; reflexivity|].
  unfold differs_only_in_start. vm_compute.
  intros (_ & _ & _ & _ & _ & H). discriminate H.
Qed.

(** Neither is the way a value is written kept, nor a blank value. *)
Example escapes_not_preserved :
  resolve (lit "https://scholar.google.com/scholar?q=a%20b&lr=&as_sdt=0,5") 0 0 10
  = Ok [lit "https://scholar.google.com/scholar?q=a+b&as_sdt=0%2C5&start=0"].
Proof. vm_compute. reflexivity. Qed.

Lemma build_urls_from_range_count_and_start_witness :
  exists urls : list str,
    resolve two_q_url 0 25 10 = Ok urls
    /\ Z.of_nat (length urls) = (25 - 0) / 10 + 1.
Proof.
  destruct (build_urls_from_range_count_and_start
              urlparse_plain urlunparse_plain unquote_plain two_q_url
              {| scheme := lit "https"; netloc := lit "scholar.google.com";
                 path := lit "/scholar"; params := [];
                 query := lit "q=a&q=b&start=5"; fragment := [] |}
              0 25 10)
    as (urls & H1 & H2 & _).
  - vm_compute. reflexivity.
  - vm_compute. reflexivity.
  - lia.
  - lia.
  - exists urls. split; assumption.
Defined.

Lemma build_urls_from_range_keeps_first_values_witness :
  exists urls : list str,
    resolve two_q_url 0 25 10 = Ok urls
    /\ Forall (fun url => exists new_query : str,
                 url = urlunparse_plain
                         (with_query
                            {| scheme := lit "https";
                               netloc := lit "scholar.google.com";
                               path := lit "/scholar"; params := [];
                               query := lit "q=a&q=b&start=5";
                               fragment := [] |} new_query)) urls.
Proof.
  destruct (build_urls_from_range_keeps_first_values
              urlparse_plain urlunparse_plain unquote_plain two_q_url
              {| scheme := lit "https"; netloc := lit "scholar.google.com";
                 path := lit "/scholar"; params := [];
                 query := lit "q=a&q=b&start=5"; fragment := [] |}
              0 25 10)
    as (urls & H1 & H2).
  - vm_compute. reflexivity.
  - vm_compute. reflexivity.
  - lia.
  - exists urls. split; [assumption|].
    eapply Forall_impl; [exact H2|]. simpl.
    intros url (s & items & new_query & Hu & _). now exists new_query.
Defined.

Definition scholar_parsed : ParseResult :=
  Eval cbv in
    {| scheme := lit "https"; netloc := lit "scholar.google.com";
       path := lit "/scholar"; params := [];
       query := lit "q=a&q=b&start=5"; fragment := [] |}.

Lemma build_urls_from_range_degenerate_witness :
  resolve two_q_url 20 0 10 = Ok [] /\ resolve two_q_url 0 20 0 = Raise ValueError.
Proof.
  destruct (proj2 (build_urls_from_range_degenerate
                     urlparse_plain urlunparse_plain unquote_plain
                     two_q_url 20 0 10) scholar_parsed)
    as (_ & H & _); [vm_compute; reflexivity|].
  split; [apply H; lia|]. vm_compute. reflexivity.
Defined.

Lemma build_urls_from_range_descending_witness :
  exists urls : list str,
    resolve two_q_url 20 0 (-10) = Ok urls
    /\ Z.of_nat (length urls) = (20 - 0 - 2) / (- -10) + 1.
Proof.
  destruct (build_urls_from_range_descending
              urlparse_plain urlunparse_plain unquote_plain two_q_url
              scholar_parsed 20 0 (-10))
    as (urls & H1 & H2 & _).
  - vm_compute. reflexivity.
  - vm_compute. reflexivity.
  - lia.
  - lia.
  - exists urls. split; assumption.
Defined.

Example resolve_descending :
  resolve two_q_url 20 0 (-10)
  = Ok [lit "https://scholar.google.com/scholar?q=a&start=20";
        lit "https://scholar.google.com/scholar?q=a&start=10"].
Proof. vm_compute. reflexivity. Qed.

Lemma start_field_position_witness :
  exists items : list (str * str),
    new_components scholar_parsed (parse_qs unquote_plain (query scholar_parsed)) 30
    = Ok (with_query scholar_parsed (join [ascii_amp] (List.map field items))).
Proof.
  destruct (start_field_position urlparse_plain unquote_plain scholar_parsed 30)
    as (items & H & _).
  - vm_compute. reflexivity.
  - now exists items.
Defined.

Lemma generated_queries_distinct_witness : 10 = 10.
Proof.
  apply (generated_queries_distinct urlparse_plain unquote_plain scholar_parsed
           (with_query scholar_parsed (lit "q=a&start=10"))
           (with_query scholar_parsed (lit "q=a&start=10")) 10 10).
  - vm_compute. reflexivity.
  - vm_compute. reflexivity.
  - vm_compute. reflexivity.
  - reflexivity.
Defined.

End Resolver.

(* ===================================================================== *)
(** * read_urls_from_file *)
(* ===================================================================== *)

(** The list of URLs can also come from a text file, one URL per line.
    The text files on disk are a map from paths to their decoded
    characters; a file that cannot be read is a file that is not
    there. *)
Module UrlsFile.
Import PyStr.

Definition lf : char := 10%N.
Definition cr : char := 13%N.

(** Reading in text mode translates [\r\n] and a lone [\r] to [\n].
    [after_cr] tells that the previous character was a [\r]. *)
Fixpoint universal_newlines (after_cr : bool) (s : str) : str :=
  match s with
  | [] => []
  | c :: s' =>
      if after_cr && (c =? lf)%N then universal_newlines false s'
      else if (c =? cr)%N then lf :: universal_newlines true s'
      else c :: universal_newlines false s'
  end.

(** [path.read_text()] *)
Definition read_text (fs : gmap str str) (path : str) : option str :=
  match fs !! path with
  | Some chars => Some (universal_newlines false chars)
  | None => None
  end.

(** The line boundaries of [str.splitlines()]: [\n], [\r], [\v], [\f],
    the separators [\x1c], [\x1d], [\x1e], [\x85] and the Unicode line
    and paragraph separators. *)
Definition is_line_boundary (c : char) : bool :=
  ((10 <=? c) && (c <=? 13) || (28 <=? c) && (c <=? 30)
   || (c =? 133) || (c =? 8232) || (c =? 8233))%N.

(** [s.splitlines()]: the lines without their boundaries; [\r\n] is one
    boundary, and a boundary at the very end opens no further line.
    [cur] is the current line, reversed. *)
Fixpoint splitlines_scan (after_cr : bool) (cur : str) (s : str) : list str :=
  match s with
  | [] => match cur with [] => [] | _ => [rev cur] end
  | c :: s' =>
      if after_cr && (c =? lf)%N then splitlines_scan false cur s'
      else if is_line_boundary c
           then rev cur :: splitlines_scan (c =? cr)%N [] s'
           else splitlines_scan false (c :: cur) s'
  end.

Definition splitlines (s : str) : list str := splitlines_scan false [] s.

(** The body of the loop:
    <<
    u = line.strip()
    if u:
        out.append(u)
    >> *)
Definition keep_url (out : list str) (line : str) : list str :=
  let u := strip line in
  match u with
  | [] => out
  | _ => out ++ [u]
  end.

(** <<
    def read_urls_from_file(path: Path) -> List[str]:
        out = []
        for line in path.read_text().splitlines():
            ...
        return out
    >> *)
Definition read_urls_from_file (fs : gmap str str) (path : str)
    : option (list str) :=
  match read_text fs path with
  | Some text => Some (fold_left keep_url (splitlines text) [])
  | None => None
  end.

Example splitlines_examples :
  splitlines (lit "a" ++ [cr; lf] ++ [lf] ++ lit "b" ++ [cr])
    = [lit "a"; []; lit "b"]
  /\ splitlines [lf] = [[]]
  /\ splitlines (lit "a" ++ [28; 29; 30; 31]%N ++ lit "e")
     = [lit "a"; []; []; [31%N] ++ lit "e"]
  /\ splitlines (lit "a" ++ [lf; cr] ++ lit "b") = [lit "a"; []; lit "b"].
Proof. vm_compute. repeat split. Qed.

(** ** Lines *)

(** The translation of reading leaves the lines as they are. *)
Lemma splitlines_universal_newlines (b : bool) (cur s : str) :
  splitlines_scan false cur (universal_newlines b s) = splitlines_scan b cur s.
Proof.
  revert b cur. induction s as [|c s IH]; intros b cur; [reflexivity|].
  cbn [universal_newlines splitlines_scan].
  destruct (b && (c =? lf)%N) eqn:E1; [apply IH|].
  destruct (c =? cr)%N eqn:E2.
  - apply N.eqb_eq in E2. subst c. cbn [splitlines_scan]. simpl. f_equal. apply IH.
  - cbn [splitlines_scan andb].
    destruct (is_line_boundary c) eqn:E3.
    + f_equal. rewrite <- (IH false).
      destruct (c =? cr)%N; [discriminate | reflexivity].
    + apply IH.
Qed.

Definition no_boundary (s : str) : Prop :=
  Forall (fun c => is_line_boundary c = false) s.

Lemma splitlines_scan_no_boundary (b : bool) (cur s : str) :
  no_boundary cur -> Forall no_boundary (splitlines_scan b cur s).
Proof.
  revert b cur. induction s as [|c s IH]; intros b cur Hcur;
    cbn [splitlines_scan].
  - destruct cur; constructor; [|constructor]. now apply Forall_rev.
  - destruct (b && (c =? lf)%N); [now apply IH|].
    destruct (is_line_boundary c) eqn:E.
    + constructor; [now apply Forall_rev | apply IH; constructor].
    + apply IH. now constructor.
Qed.

Lemma splitlines_scan_chars (P : char -> Prop) (b : bool) (cur s : str) :
  Forall P cur -> Forall P s -> Forall (Forall P) (splitlines_scan b cur s).
Proof.
  revert b cur. induction s as [|c s IH]; intros b cur Hcur Hs;
    cbn [splitlines_scan].
  - destruct cur; constructor; [|constructor]. now apply Forall_rev.
  - inversion Hs as [|? ? Hc Hs']; subst.
    destruct (b && (c =? lf)%N); [now apply IH|].
    destruct (is_line_boundary c).
    + constructor; [now apply Forall_rev | apply IH; [constructor | assumption]].
    + apply IH; [now constructor | assumption].
Qed.

Lemma splitlines_scan_line (cur f rest : str) :
  no_boundary f ->
  splitlines_scan false cur (f ++ rest) = splitlines_scan false (rev f ++ cur) rest.
Proof.
  intros H. revert cur. induction H as [|c f Hc _ IH]; intros cur;
    [reflexivity|].
  cbn [app splitlines_scan andb]. rewrite Hc, IH. simpl.
  now rewrite <- app_assoc.
Qed.

(** ** Stripping *)

Definition starts_clean (s : str) : Prop :=
  match s with [] => True | c :: _ => isspace c = false end.

Lemma lstrip_starts_clean (s : str) : starts_clean (lstrip s).
Proof.
  induction s as [|c s IH]; simpl; [exact I|].
  destruct (isspace c) eqn:E; [exact IH | exact E].
Qed.

Lemma lstrip_clean (s : str) : starts_clean s -> lstrip s = s.
Proof. destruct s as [|c s]; simpl; [reflexivity|]. now intros ->. Qed.

Lemma rstrip_clean (s : str) : starts_clean (rev s) -> rstrip s = s.
Proof.
  intros H. unfold rstrip. rewrite lstrip_clean by assumption.
  apply rev_involutive.
Qed.

Lemma strip_fixed (s : str) :
  starts_clean s -> starts_clean (rev s) -> strip s = s.
Proof.
  intros H1 H2. unfold strip. rewrite rstrip_clean by assumption.
  now apply lstrip_clean.
Qed.

Lemma strip_clean_ends (s : str) :
  starts_clean (strip s) /\ starts_clean (rev (strip s)).
Proof.
  unfold strip. split; [apply lstrip_starts_clean|].
  assert (Hr : starts_clean (rev (rstrip s))).
  { unfold rstrip. rewrite rev_involutive. apply lstrip_starts_clean. }
  destruct (lstrip_suffix (rstrip s)) as [w Hw].
  destruct (lstrip (rstrip s)) as [|c t] using rev_ind; [exact I|].
  rewrite Hw, app_assoc, rev_app_distr in Hr.
  rewrite rev_app_distr. exact Hr.
Qed.

Lemma strip_idempotent (s : str) : strip (strip s) = strip s.
Proof. apply strip_fixed; apply strip_clean_ends. Qed.

Lemma strip_chars (P : char -> Prop) (s : str) :
  Forall P s -> Forall P (strip s).
Proof.
  intros H. unfold strip.
  destruct (rstrip_prefix s) as [w Hw]. rewrite Hw in H.
  apply Forall_app in H as [H _].
  destruct (lstrip_suffix (rstrip s)) as [v Hv]. rewrite Hv in H.
  now apply Forall_app in H as [_ H].
Qed.

(** ** The entries of the list *)

(** An entry as the function returns it: not empty, without white
    space at either end, and within one line. *)
Definition clean_url (u : str) : Prop :=
  u <> [] /\ strip u = u /\ no_boundary u.

Lemma fold_keep_url (lines out : list str) :
  fold_left keep_url lines out
  = out ++ List.filter (fun u => negb (Nat.eqb (length u) 0))
             (List.map strip lines).
Proof.
  revert out. induction lines as [|l lines IH]; intros out; simpl.
  - now rewrite app_nil_r.
  - rewrite IH. unfold keep_url.
    destruct (strip l); simpl; [reflexivity | now rewrite <- app_assoc].
Qed.

Lemma keep_clean_urls (urls out : list str) :
  Forall clean_url urls -> fold_left keep_url urls out = out ++ urls.
Proof.
  intros H. revert out. induction H as [|u urls (Hne & Hs & _) _ IH];
    intros out; simpl.
  - now rewrite app_nil_r.
  - rewrite IH. unfold keep_url. rewrite Hs.
    destruct u; [contradiction | now rewrite <- app_assoc].
Qed.

Lemma splitlines_join (u : str) (urls : list str) (tail : str) :
  Forall clean_url (u :: urls) -> tail = [] \/ tail = [lf] ->
  splitlines_scan false [] (join [lf] (u :: urls) ++ tail) = u :: urls.
Proof.
  intros H Ht. revert u H. induction urls as [|v urls IH]; intros u H.
  - inversion H as [|? ? (Hne & _ & Hb) _]; subst. cbn [join].
    rewrite splitlines_scan_line by assumption. rewrite app_nil_r.
    destruct Ht as [-> | ->]; cbn [splitlines_scan].
    + destruct (rev u) eqn:E; [|now rewrite <- E, rev_involutive].
      apply (f_equal (@rev char)) in E. rewrite rev_involutive in E.
      contradiction.
    + simpl. now rewrite rev_involutive.
  - inversion H as [|? ? (Hne & _ & Hb) H']; subst.
    change (join [lf] (u :: v :: urls)) with (u ++ lf :: join [lf] (v :: urls)).
    rewrite <- app_assoc. rewrite splitlines_scan_line by assumption.
    rewrite app_nil_r. cbn [app splitlines_scan]. simpl.
    rewrite rev_involutive. f_equal. now apply IH.
Qed.

Lemma read_urls_clean (fs : gmap str str) (path : str) (urls : list str) :
  read_urls_from_file fs path = Some urls -> Forall clean_url urls.
Proof.
  unfold read_urls_from_file, read_text.
  destruct (fs !! path) as [chars|]; [|discriminate]. intros [= <-].
  rewrite fold_keep_url. simpl. unfold splitlines.
  rewrite splitlines_universal_newlines.
  pose proof (splitlines_scan_no_boundary false [] chars (List.Forall_nil _))
    as H.
  induction H as [|l lines Hl _ IH]; simpl; [constructor|].
  destruct (strip l) as [|c t] eqn:E; simpl; [exact IH|].
  constructor; [|exact IH]. rewrite <- E. split; [|split].
  - now rewrite E.
  - apply strip_idempotent.
  - now apply strip_chars.
Qed.

(** X6: every URL that is read from a file is non-empty, has no white
    space at either end (stripping it again changes nothing) and holds
    no line break; and it is what stripping leaves of one of the lines
    of the file. *)
Theorem read_urls_from_file_clean (fs : gmap str str) (path : str)
    (urls : list str) :
  read_urls_from_file fs path = Some urls ->
  Forall clean_url urls
  /\ exists chars : str,
       (fs !! path : option str) = Some chars
       /\ Forall (fun u => exists line, In line (splitlines chars)
                                        /\ u = strip line) urls.
Proof.
  intros H. split; [exact (read_urls_clean fs path urls H)|].
  unfold read_urls_from_file, read_text in H.
  destruct (fs !! path) as [chars|]; [|discriminate H].
  injection H as <-. exists chars. split; [reflexivity|].
  rewrite fold_keep_url. cbn [app]. unfold splitlines.
  rewrite splitlines_universal_newlines.
  apply List.Forall_forall. intros u Hu.
  apply filter_In in Hu as [Hu _]. apply in_map_iff in Hu as (line & <- & Hl).
  now exists line.
Qed.

Lemma read_blank_chars (fs : gmap str str) (path chars : str) :
  (fs !! path : option str) = Some chars -> SafeName.blank chars ->
  read_urls_from_file fs path = Some [].
Proof.
  intros Hf Hb. unfold read_urls_from_file, read_text. rewrite Hf.
  f_equal. unfold splitlines. rewrite splitlines_universal_newlines.
  rewrite fold_keep_url. simpl.
  pose proof (splitlines_scan_chars _ false [] chars (List.Forall_nil _) Hb)
    as H.
  induction H as [|l lines Hl _ IH]; simpl; [reflexivity|].
  now rewrite SafeName.strip_blank.
Qed.

(** X7: writing and reading back.  A file that holds clean URLs, one
    per line with [\n] between them and with or without a final [\n],
    is read as exactly these URLs, in their order. *)
Theorem read_urls_from_file_round_trip (fs : gmap str str) (path : str)
    (urls : list str) (tail : str) :
  Forall clean_url urls -> tail = [] \/ tail = [lf] ->
  (fs !! path : option str) = Some (join [lf] urls ++ tail) ->
  read_urls_from_file fs path = Some urls.
Proof.
  intros H Ht Hf. unfold read_urls_from_file, read_text. rewrite Hf.
  f_equal. unfold splitlines. rewrite splitlines_universal_newlines.
  destruct urls as [|u urls].
  - destruct Ht as [-> | ->]; reflexivity.
  - rewrite splitlines_join by assumption. now apply keep_clean_urls.
Qed.

(** X8: a file without a URL.  A file that holds white space only (an
    empty file, blank lines) gives the empty list, and a file that is
    not there gives no list at all. *)
Theorem read_urls_from_file_blank (fs : gmap str str) (path : str) :
  (forall chars : str,
     (fs !! path : option str) = Some chars -> SafeName.blank chars ->
     read_urls_from_file fs path = Some [])
  /\ (fs !! path = None -> read_urls_from_file fs path = None).
Proof.
  split; [intros chars; apply read_blank_chars|].
  intros Hf. unfold read_urls_from_file, read_text. now rewrite Hf.
Qed.

Definition urls_txt : str := Eval cbv in lit "urls.txt".
Definition two_urls : list str :=
  Eval cbv in [lit "https://a.b/c?start=0"; lit "https://a.b/c?start=10"].

Lemma read_urls_from_file_clean_witness : Forall clean_url two_urls.
Proof.
  apply (read_urls_from_file_clean
           (<[urls_txt := lit "  https://a.b/c?start=0 " ++ [cr; lf; lf]
                          ++ lit "https://a.b/c?start=10"]> ∅)
           urls_txt two_urls).
  vm_compute. reflexivity.
Defined.

Lemma two_urls_clean : Forall clean_url two_urls.
Proof.
  repeat constructor; try discriminate; try (vm_compute; reflexivity).
Qed.

Lemma read_urls_from_file_round_trip_witness :
  read_urls_from_file (<[urls_txt := join [lf] two_urls ++ [lf]]> ∅) urls_txt
  = Some two_urls.
Proof.
  apply (read_urls_from_file_round_trip _ urls_txt two_urls [lf]).
  - exact two_urls_clean.
  - now right.
  - apply lookup_insert_eq.
Defined.

Lemma read_urls_from_file_blank_witness :
  read_urls_from_file (<[urls_txt := lit " " ++ [lf; cr; lf] ++ lit "  "]> ∅)
    urls_txt = Some [].
Proof.
  apply (proj1 (read_urls_from_file_blank _ urls_txt)
           (lit " " ++ [lf; cr; lf] ++ lit "  ")).
  - apply lookup_insert_eq.
  - repeat constructor.
Defined.

End UrlsFile.

(* ===================================================================== *)
(** * The processing loop of main *)
(* ===================================================================== *)

(** The browser is an environment: what it answers to the script's
    calls is not decided by the script.  A run is modelled against an
    arbitrary script of answers, [browser n] being the answer to the
    [n]-th call made to the driver, and an arbitrary sequence of random
    pacing delays.  Time is the time the script spends sleeping.  The
    messages printed on the way and the creation of the output
    directory are left out, and so are interrupts from the keyboard:
    the exceptions of a run are those that a call, a sleep or the
    cooldown test raises, and the one of [open] when the merged
    document cannot be written.  Durations and paper sizes are given
    by their values; the paper height is the float that
    [Height.compute_full_height_inches] computes. *)
Module Run.
Import PyStr PyExn.

(** A page of a PDF, identified by a number. *)
Abbreviation page := Z (only parsing).

Inductive selector : Type :=
  | ById (id : str)
  | ByCssSelector (css : str).

(** The calls made to the driver. *)
Inductive call : Type :=
  | Launch
  | Get (url : str)
  | FindElements (sel : selector)
  | SetEmulatedMedia
  | ScrollHeightScript
  | PrintToPDF (paper_width paper_height margin : Q)
  | Quit.

(** What a call returns. *)
Inductive value : Type :=
  | VNone
  | VNum (n : Z)
  | VElements (n : nat)
  | VData (doc : list page).

Inductive response : Type :=
  | Returns (v : value)
  | Raises (e : exn).

(** What a run does, in order. *)
Inductive event : Type :=
  | ECall (c : call)
  | ESleep (seconds : Q)
  | EWriteBytes (p : str)
  | EMerged (p : str).

(** The state of a run: the number of driver calls made, the clock, the
    events so far, the PDF files on disk, and the local variables
    [pdf_paths], [attempts] and [backoff] of [main]. *)
Record world : Type := mkWorld {
  calls : nat;
  now : Q;
  trace : list event;
  files : gmap str (list page);
  pdf_paths : list str;
  attempts : Z;
  backoff : Z
}.

(** The parsed command line, as far as the loop reads it. *)
Record args : Type := mkArgs {
  headful : bool;
  captcha_timeout : Z;
  wait_ms : Z;
  margin : Q;
  letter : bool;
  rest_every : Z;
  cooldown_sec : Z;
  out_dir : str;
  merged : str
}.

(** A statement: it changes the state and either returns or raises. *)
Definition M (A : Type) : Type := world -> res A * world.

Definition ret {A : Type} (a : A) : M A := fun w => (Ok a, w).

Definition raise {A : Type} (e : exn) : M A := fun w => (Raise e, w).

Definition seq_bind {A B : Type} (m : M A) (k : A -> M B) : M B :=
  fun w =>
    match m w with
    | (Ok a, w') => k a w'
    | (Raise e, w') => (Raise e, w')
    end.

Notation "'do' x <- m ; k" := (seq_bind m (fun x => k))
  (at level 10, x name, m at level 100, k at level 200).
Notation "m ;; k" := (seq_bind m (fun _ => k))
  (at level 100, k at level 200, right associativity).

(** [try: body / except Exception: pass], followed by a statement that
    yields [fallback]. *)
Definition except_pass {A : Type} (body : M A) (fallback : A) : M A :=
  fun w =>
    match body w with
    | (Ok a, w') => (Ok a, w')
    | (Raise _, w') => (Ok fallback, w')
    end.

(** [try: body / finally: cleanup]: the cleanup runs in every case; an
    exception of the cleanup replaces the outcome of the body. *)
Definition try_finally {A : Type} (body : M A) (cleanup : M unit) : M A :=
  fun w =>
    match body w with
    | (r, w') =>
        match cleanup w' with
        | (Ok _, w'') => (r, w'')
        | (Raise e, w'') => (Raise e, w'')
        end
    end.

Definition log (ev : event) (w : world) : world :=
  mkWorld (calls w) (now w) (trace w ++ [ev]) (files w) (pdf_paths w)
          (attempts w) (backoff w).

(** [time.sleep(seconds)]; a negative length is a [ValueError]. *)
Definition sleep (seconds : Q) : M unit :=
  fun w =>
    if Height.Qlt_bool seconds 0 then (Raise ValueError, w)
    else
      (Ok tt, mkWorld (calls w) (now w + seconds)%Q
                (trace w ++ [ESleep seconds]) (files w) (pdf_paths w)
                (attempts w) (backoff w)).

(** [time.time()] *)
Definition time : M Q := fun w => (Ok (now w), w).

(** [out_path.write_bytes(pdf)] *)
Definition write_bytes (p : str) (doc : list page) : M unit :=
  fun w =>
    (Ok tt, mkWorld (calls w) (now w) (trace w ++ [EWriteBytes p])
              (<[p := doc]> (files w)) (pdf_paths w) (attempts w) (backoff w)).

(** [pdf_paths.append(out_path)] *)
Definition append_pdf_path (p : str) : M unit :=
  fun w =>
    (Ok tt, mkWorld (calls w) (now w) (trace w) (files w) (pdf_paths w ++ [p])
              (attempts w) (backoff w)).

Definition set_attempts (n : Z) (w : world) : world :=
  mkWorld (calls w) (now w) (trace w) (files w) (pdf_paths w) n (backoff w).

Definition set_backoff (n : Z) (w : world) : world :=
  mkWorld (calls w) (now w) (trace w) (files w) (pdf_paths w) (attempts w) n.

Definition set_pdf_paths (l : list str) (w : world) : world :=
  mkWorld (calls w) (now w) (trace w) (files w) l (attempts w) (backoff w).

(** Truth value of what a call returned. *)
Definition truthy (v : value) : bool :=
  match v with
  | VNone => false
  | VNum n => negb (n =? 0)
  | VElements n => negb (Nat.eqb n 0)
  | VData doc => match doc with [] => false | _ => true end
  end.

Definition gs_captcha_ccl : selector :=
  Eval cbv in ById (lit "gs_captcha_ccl").
Definition recaptcha : selector := Eval cbv in ById (lit "recaptcha").
Definition sorry_form : selector :=
  Eval cbv in ByCssSelector (lit "form[action*='sorry']").

Section Loop.

Variable browser : nat -> response.

(** [random.uniform(args.min_wait, args.max_wait)] for the [i]-th URL. *)
Variable uniform : nat -> Q.

(** [out_dir / name] *)
Variable joinpath : str -> str -> str.

Variable a : args.

(** Whether [open(path, "wb")] succeeds, for the merged document: the
    directories of the disk and their permissions. *)
Variable can_open : str -> bool.

(** A call to the driver: the browser's next answer. *)
Definition driver_call (c : call) : M value :=
  fun w =>
    let w' := mkWorld (S (calls w)) (now w) (trace w ++ [ECall c]) (files w)
                (pdf_paths w) (attempts w) (backoff w) in
    match browser (calls w) with
    | Returns v => (Ok v, w')
    | Raises e => (Raise e, w')
    end.

(** <<
    driver.find_elements(By.ID, "gs_captcha_ccl") or \
    driver.find_elements(By.ID, "recaptcha") or \
    driver.find_elements(By.CSS_SELECTOR, "form[action*='sorry']")
    >>
    as a truth value. *)
Definition captcha_markers : M bool :=
  do v1 <- driver_call (FindElements gs_captcha_ccl);
  if truthy v1 then ret true
  else
    do v2 <- driver_call (FindElements recaptcha);
    if truthy v2 then ret true
    else
      do v3 <- driver_call (FindElements sorry_form);
      ret (truthy v3).

(** <<
    while time.time() < end:
        time.sleep(3)
        still_there = ...
        if not still_there:
            return True
    return True
    >>
    [fuel] bounds the number of iterations; with the fuel that
    [maybe_wait_for_captcha] gives, the clock has reached [end] when
    the fuel is used up ([poll_fuel]). *)
Fixpoint poll (fuel : nat) (end_ : Q) : M bool :=
  match fuel with
  | O => ret true
  | S fuel' =>
      do t <- time;
      if Height.Qlt_bool t end_ then
        sleep 3 ;;
        do still_there <- captcha_markers;
        if negb still_there then ret true else poll fuel' end_
      else ret true
  end.

Definition poll_fuel (timeout_s : Z) : nat := Z.to_nat timeout_s.

(** [maybe_wait_for_captcha(driver, timeout_s)] *)
Definition maybe_wait_for_captcha (timeout_s : Z) : M bool :=
  except_pass
    (do captcha_present <- captcha_markers;
     if captcha_present then
       do t <- time;
       poll (poll_fuel timeout_s) (t + inject_Z timeout_s)%Q
     else ret false)
    false.

(** [compute_full_height_inches(driver, margin_in=margin_in)]: a height
    that is not a number is a [TypeError]. *)
Definition measure_height (margin_in : Q) : M Q :=
  do v <- driver_call ScrollHeightScript;
  match v with
  | VNum scroll_height =>
      ret (Height.compute_full_height_inches scroll_height
             Height.min_in_default Height.max_in_default margin_in)
  | _ => raise OtherException
  end.

(** [print_one_page_pdf(driver, url, out_path, width_in, margin_in, wait_ms)] *)
Definition print_one_page_pdf (url out_path : str)
    (width_in margin_in : Q) (wait_ms' : Z) : M unit :=
  driver_call (Get url) ;;
  sleep (inject_Z wait_ms' / 1000)%Q ;;
  driver_call SetEmulatedMedia ;;
  do paper_height_in <- measure_height margin_in;
  do result <- driver_call (PrintToPDF width_in paper_height_in margin_in);
  match result with
  | VData pdf => write_bytes out_path pdf
  | _ => raise OtherException
  end.

Definition width : Q := if letter a then (85 # 10)%Q else (827 # 100)%Q.

(** The body of the [try] of one attempt. *)
Definition attempt (url out_path : str) : M unit :=
  driver_call (Get url) ;;
  do solved <- (if headful a then maybe_wait_for_captcha (captcha_timeout a)
                else ret false);
  (if solved then driver_call (Get url) ;; ret tt else ret tt) ;;
  sleep (Height.py_max 1 (inject_Z (wait_ms a) / 1000))%Q ;;
  print_one_page_pdf url out_path width (margin a) 0 ;;
  append_pdf_path out_path.

(** <<
    while attempts < 3:
        attempts += 1
        try:
            ...
            pdf_paths.append(out_path)
            break  # success
        except WebDriverException as e:
            time.sleep(backoff)
            backoff *= 2  # exponential backoff
    >>
    Three iterations of fuel are enough ([retry_loop_fuel]). *)
Fixpoint retry_loop (fuel : nat) (url out_path : str) : M unit :=
  match fuel with
  | O => ret tt
  | S fuel' =>
      fun w =>
        if attempts w <? 3 then
          match attempt url out_path (set_attempts (attempts w + 1) w) with
          | (Ok _, w') => (Ok tt, w')
          | (Raise WebDriverException, w') =>
              (sleep (inject_Z (backoff w')) ;;
               (fun w'' => (Ok tt, set_backoff (backoff w'' * 2) w'')) ;;
               retry_loop fuel' url out_path) w'
          | (Raise e, w') => (Raise e, w')
          end
        else (Ok tt, w)
  end.

(** The cooldown after a burst:
    <<
    if i % args.rest_every == 0 and i < len(urls):
        time.sleep(args.cooldown_sec)
    >> *)
Definition cooldown (i n : nat) : M unit :=
  if rest_every a =? 0 then raise ZeroDivisionError
  else if (Z.of_nat i mod rest_every a =? 0) && (i <? n)%nat
       then sleep (inject_Z (cooldown_sec a))
       else ret tt.

(** The body of the [for] loop for the [i]-th URL of [n]. *)
Definition process_url (i n : nat) (url : str) : M unit :=
  let name := SafeName.page_file_name i url in
  let out_path := joinpath (out_dir a) name in
  sleep (uniform i) ;;
  (fun w => (Ok tt, set_backoff 3 (set_attempts 0 w))) ;;
  retry_loop 3 url out_path ;;
  cooldown i n.

(** [for i, url in enumerate(urls, 1): ...] from the index [i] on. *)
Fixpoint url_loop (i n : nat) (urls : list str) : M unit :=
  match urls with
  | [] => ret tt
  | url :: rest => process_url i n url ;; url_loop (S i) n rest
  end.

(** [driver.quit()] in the [finally] clause. *)
Definition close_session : M unit := driver_call Quit ;; ret tt.

(** How a run ends. *)
Inductive outcome : Type :=
  | Completed
  | Exited (status : Z)
  | Uncaught (e : exn).

(** [main], from the resolved list of URLs on. *)
Definition main (urls : list str) (w : world) : outcome * world :=
  match urls with
  | [] => (Exited 1, w)
  | _ =>
      match driver_call Launch w with
      | (Raise e, w1) => (Uncaught e, w1)
      | (Ok _, w1) =>
          match try_finally (url_loop 1 (length urls) urls)
                  close_session (set_pdf_paths [] w1) with
          | (Raise e, w2) => (Uncaught e, w2)
          | (Ok _, w2) =>
              match pdf_paths w2 with
              | [] => (Exited 2, w2)
              | _ =>
                  match Pdf.merge_pdfs page can_open (files w2) (pdf_paths w2)
                          (merged a) with
                  | Some fs =>
                      (Completed,
                       mkWorld (calls w2) (now w2)
                         (trace w2 ++ [EMerged (merged a)]) fs
                         (pdf_paths w2) (attempts w2) (backoff w2))
                  | None => (Uncaught OtherException, w2)
                  end
              end
          end
      end
  end.

(** ** What the statements leave unchanged *)

(** An event of the URL loop: neither the closing of the session nor
    the writing of the merged document. *)
Definition loop_event (ev : event) : Prop :=
  ev <> ECall Quit /\ forall p, ev <> EMerged p.

Definition extends (w w' : world) : Prop :=
  exists evs, trace w' = trace w ++ evs /\ Forall loop_event evs.

(** A step that captures nothing: files and local variables are as
    they were. *)
Definition quiet (w w' : world) : Prop :=
  files w' = files w /\ pdf_paths w' = pdf_paths w
  /\ attempts w' = attempts w /\ backoff w' = backoff w
  /\ extends w w'.

(** A step that captures the page at [p]: the file is written and its
    path recorded. *)
Definition captured (p : str) (w w' : world) : Prop :=
  (exists doc, files w' = <[p := doc]> (files w))
  /\ pdf_paths w' = pdf_paths w ++ [p]
  /\ attempts w' = attempts w /\ backoff w' = backoff w
  /\ extends w w'.

(** Steps of the URL loop: the paths [ps] recorded on the way name
    files that exist, and no other file is touched. *)
Definition progress (w w' : world) : Prop :=
  extends w w'
  /\ exists ps, pdf_paths w' = pdf_paths w ++ ps
      /\ (forall q, ~ In q ps -> files w' !! q = files w !! q)
      /\ Forall (fun p => is_Some (files w' !! p)) ps.

Lemma extends_refl (w : world) : extends w w.
Proof. exists []. split; [now rewrite app_nil_r | constructor]. Qed.

Lemma extends_trans (w1 w2 w3 : world) :
  extends w1 w2 -> extends w2 w3 -> extends w1 w3.
Proof.
  intros (e1 & H1 & F1) (e2 & H2 & F2). exists (e1 ++ e2). split.
  - now rewrite H2, H1, app_assoc.
  - apply Forall_app. now split.
Qed.

Lemma extends_log (ev : event) (w w' : world) :
  loop_event ev -> trace w' = trace w ++ [ev] -> extends w w'.
Proof. intros He Ht. exists [ev]. split; [assumption | now constructor]. Qed.

Lemma quiet_refl (w : world) : quiet w w.
Proof. repeat split; apply extends_refl. Qed.

Lemma quiet_trans (w1 w2 w3 : world) :
  quiet w1 w2 -> quiet w2 w3 -> quiet w1 w3.
Proof.
  intros (F1 & P1 & A1 & B1 & E1) (F2 & P2 & A2 & B2 & E2).
  repeat split; try congruence. now apply (extends_trans _ w2).
Qed.

Lemma quiet_captured (p : str) (w1 w2 w3 : world) :
  quiet w1 w2 -> captured p w2 w3 -> captured p w1 w3.
Proof.
  intros (F1 & P1 & A1 & B1 & E1) ((doc & F2) & P2 & A2 & B2 & E2).
  repeat split; try congruence.
  - exists doc. congruence.
  - now apply (extends_trans _ w2).
Qed.

Lemma progress_refl (w : world) : progress w w.
Proof.
  split; [apply extends_refl|]. exists [].
  split; [now rewrite app_nil_r|]. split; [reflexivity | constructor].
Qed.

Lemma progress_trans (w1 w2 w3 : world) :
  progress w1 w2 -> progress w2 w3 -> progress w1 w3.
Proof.
  intros (E1 & ps1 & P1 & U1 & S1) (E2 & ps2 & P2 & U2 & S2).
  split; [now apply (extends_trans _ w2)|].
  exists (ps1 ++ ps2). split; [now rewrite P2, P1, app_assoc|]. split.
  - intros q Hq. rewrite U2, U1; [reflexivity | |];
      intros Hin; apply Hq, in_app_iff; tauto.
  - apply Forall_app. split; [|assumption].
    apply List.Forall_forall. intros p Hp.
    destruct (decide (p ∈ ps2)) as [Hin|Hout]; rewrite list_elem_of_In in *.
    + rewrite List.Forall_forall in S2. now apply S2.
    + rewrite U2 by assumption. rewrite List.Forall_forall in S1. now apply S1.
Qed.

Lemma quiet_progress (w w' : world) : quiet w w' -> progress w w'.
Proof.
  intros (F & P & _ & _ & E). split; [assumption|]. exists [].
  split; [now rewrite app_nil_r|]. split; [now rewrite F | constructor].
Qed.

Lemma captured_progress (p : str) (w w' : world) :
  captured p w w' -> progress w w'.
Proof.
  intros ((doc & F) & P & _ & _ & E). split; [assumption|]. exists [p].
  split; [assumption|]. split.
  - intros q Hq. rewrite F. apply lookup_insert_ne.
    intros ->. apply Hq. now left.
  - constructor; [|constructor]. rewrite F, lookup_insert_eq. eauto.
Qed.

(** A statement all of whose steps are quiet. *)
Definition quietly {A : Type} (m : M A) : Prop :=
  forall w, quiet w (m w).2.

Lemma quietly_ret {A : Type} (x : A) : quietly (ret x).
Proof. intros w. apply quiet_refl. Qed.

Lemma quietly_raise {A : Type} (e : exn) : quietly (@raise A e).
Proof. intros w. apply quiet_refl. Qed.

Lemma quietly_bind {A B : Type} (m : M A) (k : A -> M B) :
  quietly m -> (forall x, quietly (k x)) -> quietly (seq_bind m k).
Proof.
  intros Hm Hk w. unfold seq_bind. specialize (Hm w).
  destruct (m w) as [[x|e] w1]; simpl in *; [|assumption].
  apply (quiet_trans _ w1); [assumption | apply Hk].
Qed.

Lemma quietly_except_pass {A : Type} (m : M A) (x : A) :
  quietly m -> quietly (except_pass m x).
Proof.
  intros Hm w. unfold except_pass. specialize (Hm w).
  now destruct (m w) as [[y|e] w1].
Qed.

Lemma quietly_time : quietly time.
Proof. intros w. apply quiet_refl. Qed.

Lemma quietly_sleep (seconds : Q) : quietly (sleep seconds).
Proof.
  intros w. unfold sleep. destruct (Height.Qlt_bool seconds 0); simpl.
  - apply quiet_refl.
  - repeat split. eapply extends_log; [|reflexivity]. now split.
Qed.

Lemma quietly_driver_call (c : call) : c <> Quit -> quietly (driver_call c).
Proof.
  intros Hc w. unfold driver_call.
  assert (H : quiet w (mkWorld (S (calls w)) (now w) (trace w ++ [ECall c])
                         (files w) (pdf_paths w) (attempts w) (backoff w))).
  { repeat split. eapply extends_log; [|reflexivity].
    split; [congruence | discriminate]. }
  now destruct (browser (calls w)).
Qed.

Lemma quietly_captcha_markers : quietly captcha_markers.
Proof.
  unfold captcha_markers.
  repeat first
    [ apply quietly_bind; [apply quietly_driver_call; discriminate | intros ?]
    | match goal with |- quietly (if ?b then _ else _) => destruct b end
    | apply quietly_ret ].
Qed.

Lemma quietly_poll (fuel : nat) (end_ : Q) : quietly (poll fuel end_).
Proof.
  induction fuel as [|fuel IH]; simpl; [apply quietly_ret|].
  apply quietly_bind; [apply quietly_time | intros t].
  destruct (Height.Qlt_bool t end_); [|apply quietly_ret].
  apply quietly_bind; [apply quietly_sleep | intros _].
  apply quietly_bind; [apply quietly_captcha_markers | intros still].
  destruct (negb still); [apply quietly_ret | exact IH].
Qed.

Lemma quietly_maybe_wait_for_captcha (timeout_s : Z) :
  quietly (maybe_wait_for_captcha timeout_s).
Proof.
  apply quietly_except_pass.
  apply quietly_bind; [apply quietly_captcha_markers | intros present].
  destruct present; [|apply quietly_ret].
  apply quietly_bind; [apply quietly_time | intros t]. apply quietly_poll.
Qed.

Lemma quietly_measure_height (margin_in : Q) :
  quietly (measure_height margin_in).
Proof.
  apply quietly_bind; [apply quietly_driver_call; discriminate | intros v].
  destruct v; first [apply quietly_ret | apply quietly_raise].
Qed.

(** ** One attempt *)

(** A statement that is quiet when it raises and stands in the relation
    [R] to its start when it returns. *)
Definition returns_with {A : Type} (R : world -> world -> Prop) (m : M A)
    : Prop :=
  forall w,
    match m w with
    | (Ok _, w') => R w w'
    | (Raise _, w') => quiet w w'
    end.

Lemma returns_with_bind {A B : Type} (R : world -> world -> Prop)
    (m : M A) (k : A -> M B) :
  (forall w1 w2 w3, quiet w1 w2 -> R w2 w3 -> R w1 w3) ->
  quietly m -> (forall x, returns_with R (k x)) ->
  returns_with R (seq_bind m k).
Proof.
  intros HR Hm Hk w. unfold seq_bind. specialize (Hm w).
  destruct (m w) as [[x|e] w1]; simpl in *; [|assumption].
  specialize (Hk x w1). destruct (k x w1) as [[y|e] w2].
  - now apply (HR _ w1).
  - now apply (quiet_trans _ w1).
Qed.

(** The file at [p] is written, nothing is recorded yet. *)
Definition written (p : str) (w w' : world) : Prop :=
  (exists doc, files w' = <[p := doc]> (files w))
  /\ pdf_paths w' = pdf_paths w
  /\ attempts w' = attempts w /\ backoff w' = backoff w
  /\ extends w w'.

Lemma quiet_written (p : str) (w1 w2 w3 : world) :
  quiet w1 w2 -> written p w2 w3 -> written p w1 w3.
Proof.
  intros (F1 & P1 & A1 & B1 & E1) ((doc & F2) & P2 & A2 & B2 & E2).
  repeat split; try congruence.
  - exists doc. congruence.
  - now apply (extends_trans _ w2).
Qed.

Lemma print_one_page_pdf_writes (url out_path : str) (wd mg : Q) (ms : Z) :
  returns_with (written out_path) (print_one_page_pdf url out_path wd mg ms).
Proof.
  unfold print_one_page_pdf.
  apply returns_with_bind;
    [apply quiet_written | apply quietly_driver_call; discriminate | intros _].
  apply returns_with_bind;
    [apply quiet_written | apply quietly_sleep | intros _].
  apply returns_with_bind;
    [apply quiet_written | apply quietly_driver_call; discriminate | intros _].
  apply returns_with_bind;
    [apply quiet_written | apply quietly_measure_height | intros h].
  apply returns_with_bind;
    [apply quiet_written | apply quietly_driver_call; discriminate | intros r].
  intros w. destruct r; simpl; try apply quiet_refl.
  repeat split; [now exists doc|].
  eapply extends_log; [|reflexivity]. split; discriminate.
Qed.

(** An attempt that raises has captured nothing; an attempt that
    returns has written the file and recorded its path. *)
Lemma attempt_captures (url out_path : str) :
  returns_with (captured out_path) (attempt url out_path).
Proof.
  unfold attempt.
  apply returns_with_bind;
    [apply quiet_captured | apply quietly_driver_call; discriminate | intros _].
  apply returns_with_bind; [apply quiet_captured | | intros solved].
  { destruct (headful a);
      [apply quietly_maybe_wait_for_captcha | apply quietly_ret]. }
  apply returns_with_bind; [apply quiet_captured | | intros _].
  { destruct solved; [|apply quietly_ret].
    apply quietly_bind; [apply quietly_driver_call; discriminate | intros _].
    apply quietly_ret. }
  apply returns_with_bind;
    [apply quiet_captured | apply quietly_sleep | intros _].
  intros w. unfold seq_bind.
  pose proof (print_one_page_pdf_writes url out_path width (margin a) 0 w) as H.
  destruct (print_one_page_pdf url out_path width (margin a) 0 w)
    as [[[]|e] w1]; [|assumption].
  destruct H as ((doc & F) & P & A1 & B1 & E). simpl.
  repeat split; simpl; try congruence; [now exists doc | exact E].
Qed.

(** ** The loops make progress *)

Definition progressing {A : Type} (m : M A) : Prop :=
  forall w, progress w (m w).2.

Lemma progressing_bind {A B : Type} (m : M A) (k : A -> M B) :
  progressing m -> (forall x, progressing (k x)) -> progressing (seq_bind m k).
Proof.
  intros Hm Hk w. unfold seq_bind. specialize (Hm w).
  destruct (m w) as [[x|e] w1]; simpl in *; [|assumption].
  apply (progress_trans _ w1); [assumption | apply Hk].
Qed.

Lemma quietly_progressing {A : Type} (m : M A) : quietly m -> progressing m.
Proof. intros H w. apply quiet_progress, H. Qed.

Lemma progress_set_attempts (n : Z) (w : world) : progress w (set_attempts n w).
Proof.
  split; [exists []; simpl; split; [now rewrite app_nil_r | constructor]|].
  exists []. simpl.
  split; [now rewrite app_nil_r|]. split; [reflexivity | constructor].
Qed.

Lemma progress_set_backoff (n : Z) (w : world) : progress w (set_backoff n w).
Proof.
  split; [exists []; simpl; split; [now rewrite app_nil_r | constructor]|].
  exists []. simpl.
  split; [now rewrite app_nil_r|]. split; [reflexivity | constructor].
Qed.

Lemma progressing_attempt (url out_path : str) :
  progressing (attempt url out_path).
Proof.
  intros w. pose proof (attempt_captures url out_path w) as H.
  destruct (attempt url out_path w) as [[x|e] w1]; simpl.
  - now apply (captured_progress out_path).
  - now apply quiet_progress.
Qed.

Lemma progressing_retry_loop (fuel : nat) (url out_path : str) :
  progressing (retry_loop fuel url out_path).
Proof.
  induction fuel as [|fuel IH]; intros w; simpl; [apply progress_refl|].
  destruct (attempts w <? 3); [|apply progress_refl].
  pose proof (progressing_attempt url out_path
                (set_attempts (attempts w + 1) w)) as H.
  apply (progress_trans _ _ _ (progress_set_attempts (attempts w + 1) w)).
  destruct (attempt url out_path (set_attempts (attempts w + 1) w))
    as [[x|e] w1]; simpl in *; [assumption|].
  destruct e; simpl; try assumption.
  apply (progress_trans _ _ _ H).
  apply progressing_bind; [apply quietly_progressing, quietly_sleep|].
  intros _. apply progressing_bind; [|intros _; apply IH].
  intros w2. apply progress_set_backoff.
Qed.

Lemma progressing_cooldown (i n : nat) : progressing (cooldown i n).
Proof.
  apply quietly_progressing. unfold cooldown.
  destruct (rest_every a =? 0); [apply quietly_raise|].
  destruct (_ && _); [apply quietly_sleep | apply quietly_ret].
Qed.

Lemma progressing_process_url (i n : nat) (url : str) :
  progressing (process_url i n url).
Proof.
  unfold process_url.
  apply progressing_bind; [apply quietly_progressing, quietly_sleep|].
  intros _. apply progressing_bind.
  { intros w. simpl.
    apply (progress_trans _ _ _ (progress_set_attempts 0 w)).
    apply progress_set_backoff. }
  intros _. apply progressing_bind; [apply progressing_retry_loop|].
  intros _. apply progressing_cooldown.
Qed.

Lemma progressing_url_loop (urls : list str) (i n : nat) :
  progressing (url_loop i n urls).
Proof.
  revert i. induction urls as [|url rest IH]; intros i; simpl.
  - intros w. apply progress_refl.
  - apply progressing_bind; [apply progressing_process_url|].
    intros _. apply IH.
Qed.

(** ** The retry loop *)

(** The start of an attempt ([attempts += 1]) and the handler of a
    browser-control failure ([time.sleep(backoff); backoff *= 2]). *)
Definition begin_attempt (w : world) : world :=
  set_attempts (attempts w + 1) w.

Definition back_off (w : world) : world :=
  let w' := (sleep (inject_Z (backoff w)) w).2 in
  set_backoff (backoff w' * 2) w'.

Lemma sleep_backoff (w : world) :
  0 <= backoff w ->
  (sleep (inject_Z (backoff w)) ;;
   (fun w'' => (Ok tt, set_backoff (backoff w'' * 2) w''))) w
  = (Ok tt, back_off w)
  /\ trace (back_off w) = trace w ++ [ESleep (inject_Z (backoff w))]
  /\ attempts (back_off w) = attempts w
  /\ backoff (back_off w) = backoff w * 2
  /\ pdf_paths (back_off w) = pdf_paths w
  /\ files (back_off w) = files w.
Proof.
  intros Hb. unfold back_off, seq_bind, sleep.
  assert (E : Height.Qlt_bool (inject_Z (backoff w)) 0 = false).
  { apply Height.Qlt_bool_false. now rewrite <- (Zle_Qle 0). }
  rewrite E. simpl. repeat split.
Qed.

Lemma failed_attempt (url out_path : str) (e : exn) (w w1 : world) :
  attempt url out_path (begin_attempt w) = (Raise e, w1) ->
  files w1 = files w /\ pdf_paths w1 = pdf_paths w
  /\ attempts w1 = attempts w + 1 /\ backoff w1 = backoff w.
Proof.
  intros H. pose proof (attempt_captures url out_path (begin_attempt w)) as Q.
  rewrite H in Q. destruct Q as (F & P & A & B & _). now repeat split.
Qed.

Lemma successful_attempt (url out_path : str) (w w1 : world) :
  attempt url out_path (begin_attempt w) = (Ok tt, w1) ->
  is_Some (files w1 !! out_path) /\ pdf_paths w1 = pdf_paths w ++ [out_path]
  /\ attempts w1 = attempts w + 1 /\ backoff w1 = backoff w.
Proof.
  intros H. pose proof (attempt_captures url out_path (begin_attempt w)) as Q.
  rewrite H in Q. destruct Q as ((doc & F) & P & A & B & _).
  repeat split; try assumption. rewrite F. simpl. rewrite lookup_insert_eq. eauto.
Qed.

Lemma retry_loop_step (fuel : nat) (url out_path : str) (w : world) :
  attempts w < 3 -> 0 <= backoff w ->
  retry_loop (S fuel) url out_path w
  = match attempt url out_path (begin_attempt w) with
    | (Ok _, w') => (Ok tt, w')
    | (Raise WebDriverException, w') =>
        retry_loop fuel url out_path (back_off w')
    | (Raise e, w') => (Raise e, w')
    end.
Proof.
  intros Ha Hb. simpl. apply Z.ltb_lt in Ha. rewrite Ha.
  fold (begin_attempt w).
  pose proof (attempt_captures url out_path (begin_attempt w)) as H.
  destruct (attempt url out_path (begin_attempt w)) as [[x|e] w'];
    [reflexivity|].
  destruct e; try reflexivity.
  destruct H as (_ & _ & _ & B & _). simpl in B.
  assert (Hb' : 0 <= backoff w') by lia.
  destruct (sleep_backoff w' Hb') as [Hs _].
  unfold seq_bind in *.
  destruct (sleep (inject_Z (backoff w')) w') as [[[]|e] w2]; [|discriminate].
  f_equal. congruence.
Qed.

Lemma retry_loop_done (fuel : nat) (url out_path : str) (w : world) :
  3 <= attempts w -> retry_loop fuel url out_path w = (Ok tt, w).
Proof.
  intros Ha. destruct fuel; [reflexivity|]. simpl.
  apply Z.ltb_ge in Ha. now rewrite Ha.
Qed.

(** The counter never passes 3, and fuel beyond the attempts that are
    left changes nothing. *)
Lemma retry_loop_attempts (fuel : nat) (url out_path : str) (w : world) :
  attempts w <= 3 -> 0 <= backoff w ->
  attempts w <= attempts (retry_loop fuel url out_path w).2 <= 3.
Proof.
  revert w. induction fuel as [|fuel IH]; intros w Ha Hb; [simpl; lia|].
  destruct (Z.eq_dec (attempts w) 3) as [E|E].
  { rewrite retry_loop_done by lia. simpl. lia. }
  rewrite retry_loop_step by lia.
  pose proof (attempt_captures url out_path (begin_attempt w)) as H.
  destruct (attempt url out_path (begin_attempt w)) as [[x|e] w'].
  - destruct H as (_ & _ & A & _). simpl in *. lia.
  - destruct H as (_ & _ & A & B & _). simpl in A, B.
    destruct e; simpl; try lia.
    assert (Hb' : 0 <= backoff w') by lia.
    destruct (sleep_backoff w' Hb') as (_ & _ & A' & B' & _).
    specialize (IH (back_off w')). lia.
Qed.

Lemma retry_loop_fuel (fuel extra : nat) (url out_path : str) (w : world) :
  3 - attempts w <= Z.of_nat fuel -> 0 <= backoff w ->
  retry_loop (fuel + extra) url out_path w = retry_loop fuel url out_path w.
Proof.
  revert w. induction fuel as [|fuel IH]; intros w Ha Hb.
  - rewrite !retry_loop_done by lia. reflexivity.
  - destruct (Z_lt_le_dec (attempts w) 3) as [Hlt|Hge];
      [|now rewrite !retry_loop_done by lia].
    change (S fuel + extra)%nat with (S (fuel + extra)).
    rewrite !retry_loop_step by lia.
    pose proof (attempt_captures url out_path (begin_attempt w)) as H.
    destruct (attempt url out_path (begin_attempt w)) as [[x|e] w'];
      [reflexivity|].
    destruct e; try reflexivity.
    destruct H as (_ & _ & A & B & _). simpl in A, B.
    assert (Hb' : 0 <= backoff w') by lia.
    destruct (sleep_backoff w' Hb') as (_ & _ & A' & B' & _).
    apply IH; lia.
Qed.

(** C1: the retry loop of one URL.  The counter [attempts] ends between
    1 and 3, and fuel beyond three iterations changes nothing.  When
    three attempts in a row fail with a browser-control error, the loop
    sleeps 3, 6 and 12 seconds after them, returns without an exception
    with [attempts = 3], and neither a file nor a path has been added.
    When the first attempt fails and the second succeeds, the loop
    returns after the second with exactly one more path, that of this
    URL.  In either case the run goes on with the cooldown check and
    the remaining URLs. *)
Theorem retry_policy (url out_path : str) :
  (forall w : world,
     attempts w = 0 -> backoff w = 3 ->
     1 <= attempts (retry_loop 3 url out_path w).2 <= 3
     /\ forall extra : nat,
          retry_loop (3 + extra) url out_path w = retry_loop 3 url out_path w)
  /\ (forall w w1 w2 w3 : world,
        attempts w = 0 -> backoff w = 3 ->
        attempt url out_path (begin_attempt w)
          = (Raise WebDriverException, w1) ->
        attempt url out_path (begin_attempt (back_off w1))
          = (Raise WebDriverException, w2) ->
        attempt url out_path (begin_attempt (back_off w2))
          = (Raise WebDriverException, w3) ->
        retry_loop 3 url out_path w = (Ok tt, back_off w3)
        /\ attempts (back_off w3) = 3
        /\ trace (back_off w1) = trace w1 ++ [ESleep 3]
        /\ trace (back_off w2) = trace w2 ++ [ESleep 6]
        /\ trace (back_off w3) = trace w3 ++ [ESleep 12]
        /\ pdf_paths (back_off w3) = pdf_paths w
        /\ files (back_off w3) = files w)
  /\ (forall w w1 w2 : world,
        attempts w = 0 -> backoff w = 3 ->
        attempt url out_path (begin_attempt w)
          = (Raise WebDriverException, w1) ->
        attempt url out_path (begin_attempt (back_off w1)) = (Ok tt, w2) ->
        retry_loop 3 url out_path w = (Ok tt, w2)
        /\ attempts w2 = 2
        /\ trace (back_off w1) = trace w1 ++ [ESleep 3]
        /\ pdf_paths w2 = pdf_paths w ++ [out_path])
  /\ (forall (i n : nat) (rest : list str) (w0 w w' : world),
        out_path = joinpath (out_dir a) (SafeName.page_file_name i url) ->
        sleep (uniform i) w0 = (Ok tt, w) ->
        retry_loop 3 url out_path (set_backoff 3 (set_attempts 0 w))
          = (Ok tt, w') ->
        url_loop i n (url :: rest) w0
        = (cooldown i n ;; url_loop (S i) n rest) w').
Proof.
  split; [|split; [|split]].
  - intros w Ha Hb. split.
    + rewrite retry_loop_step by lia.
      pose proof (attempt_captures url out_path (begin_attempt w)) as H.
      destruct (attempt url out_path (begin_attempt w)) as [[x|e] w'].
      * destruct H as (_ & _ & A & _). simpl in *. lia.
      * destruct H as (_ & _ & A & B & _). simpl in A, B.
        destruct e; cbn [snd]; try lia.
        assert (Hb' : 0 <= backoff w') by lia.
        destruct (sleep_backoff w' Hb') as (_ & _ & A' & B' & _).
        pose proof (retry_loop_attempts 2 url out_path (back_off w')). lia.
    + intros extra. apply retry_loop_fuel; lia.
  - intros w w1 w2 w3 Ha Hb H1 H2 H3.
    destruct (failed_attempt _ _ _ _ _ H1) as (F1 & P1 & A1 & B1).
    destruct (sleep_backoff w1) as (_ & T1 & A1' & B1' & P1' & F1'); [lia|].
    destruct (failed_attempt _ _ _ _ _ H2) as (F2 & P2 & A2 & B2).
    destruct (sleep_backoff w2) as (_ & T2 & A2' & B2' & P2' & F2'); [lia|].
    destruct (failed_attempt _ _ _ _ _ H3) as (F3 & P3 & A3 & B3).
    destruct (sleep_backoff w3) as (_ & T3 & A3' & B3' & P3' & F3'); [lia|].
    split.
    { rewrite retry_loop_step, H1 by lia.
      rewrite retry_loop_step, H2 by lia.
      rewrite retry_loop_step, H3 by lia.
      apply retry_loop_done. lia. }
    split; [lia|].
    replace (backoff w1) with 3 in T1 by lia.
    replace (backoff w2) with 6 in T2 by lia.
    replace (backoff w3) with 12 in T3 by lia.
    repeat split; try assumption; congruence.
  - intros w w1 w2 Ha Hb H1 H2.
    destruct (failed_attempt _ _ _ _ _ H1) as (F1 & P1 & A1 & B1).
    destruct (sleep_backoff w1) as (_ & T1 & A1' & B1' & P1' & F1'); [lia|].
    destruct (successful_attempt _ _ _ _ H2) as (F2 & P2 & A2 & B2).
    split.
    { rewrite retry_loop_step, H1 by lia.
      now rewrite retry_loop_step, H2 by lia. }
    split; [lia|].
    replace (backoff w1) with 3 in T1 by lia.
    split; [assumption | congruence].
  - intros i n rest w0 w w' -> Hs Hr.
    change (url_loop i n (url :: rest))
      with (process_url i n url ;; url_loop (S i) n rest).
    unfold process_url, seq_bind. rewrite Hs. cbn beta iota.
    now rewrite Hr.
Qed.

(** ** Closing the session *)

Lemma close_session_effect (w : world) :
  trace (close_session w).2 = trace w ++ [ECall Quit]
  /\ files (close_session w).2 = files w
  /\ pdf_paths (close_session w).2 = pdf_paths w.
Proof.
  unfold close_session, seq_bind, driver_call.
  destruct (browser (calls w)); simpl; repeat split.
Qed.

Lemma try_finally_close {A : Type} (m : M A) (w : world) :
  trace (try_finally m close_session w).2 = trace (m w).2 ++ [ECall Quit]
  /\ files (try_finally m close_session w).2 = files (m w).2
  /\ pdf_paths (try_finally m close_session w).2 = pdf_paths (m w).2.
Proof.
  unfold try_finally. destruct (m w) as [r w1]. simpl.
  pose proof (close_session_effect w1) as H.
  destruct (close_session w1) as [[[]|e] w2]; exact H.
Qed.

(** The state in which the loop starts: the session has started and
    [pdf_paths = []]. *)
Definition launched (w : world) : world :=
  set_pdf_paths []
    (mkWorld (S (calls w)) (now w) (trace w ++ [ECall Launch]) (files w)
       (pdf_paths w) (attempts w) (backoff w)).

(** What is left of [main] once the loop and its [finally] clause are
    over. *)
Definition finish (r : res unit) (w2 : world) : outcome * world :=
  match r with
  | Raise e => (Uncaught e, w2)
  | Ok _ =>
      match pdf_paths w2 with
      | [] => (Exited 2, w2)
      | _ =>
          match Pdf.merge_pdfs page can_open (files w2) (pdf_paths w2)
                  (merged a) with
          | Some fs =>
              (Completed,
               mkWorld (calls w2) (now w2) (trace w2 ++ [EMerged (merged a)])
                 fs (pdf_paths w2) (attempts w2) (backoff w2))
          | None => (Uncaught OtherException, w2)
          end
      end
  end.

Lemma main_launched (urls : list str) (w : world) (v : value) :
  urls <> [] -> browser (calls w) = Returns v ->
  main urls w
  = let rw := try_finally (url_loop 1 (length urls) urls) close_session
                (launched w) in
    finish rw.1 rw.2.
Proof.
  intros Hne Hv. destruct urls as [|u us]; [contradiction|].
  unfold main, driver_call at 1. rewrite Hv. fold (launched w).
  cbv zeta. unfold finish.
  destruct (try_finally _ _ _) as [[[]|e] w2]; reflexivity.
Qed.

Lemma loop_then_close (urls : list str) (i n : nat) (w : world) :
  exists evs : list event,
    trace (try_finally (url_loop i n urls) close_session w).2
    = trace w ++ evs ++ [ECall Quit]
    /\ Forall loop_event evs.
Proof.
  destruct (try_finally_close (url_loop i n urls) w) as (T & _).
  destruct (progressing_url_loop urls i n w) as ((evs & E & F) & _).
  exists evs. split; [now rewrite T, E, app_assoc | assumption].
Qed.

Lemma finish_trace (r : res unit) (w2 : world) :
  exists rest, trace (finish r w2).2 = trace w2 ++ rest
               /\ (rest = [] \/ rest = [EMerged (merged a)]).
Proof.
  unfold finish. destruct r as [[]|e].
  - destruct (pdf_paths w2).
    + exists []. cbn [snd]. rewrite app_nil_r. now split; [|left].
    + destruct (Pdf.merge_pdfs _ _ _ _).
      * exists [EMerged (merged a)]. cbn [snd trace]. now split; [|right].
      * exists []. cbn [snd]. rewrite app_nil_r. now split; [|left].
  - exists []. cbn [snd]. rewrite app_nil_r. now split; [|left].
Qed.

(** C5: whatever the browser answers, however many URLs fail and
    whether the loop returns or raises, the loop with its [finally]
    clause adds exactly one closing of the session to the events, as
    the last of them; and in a run of [main] whose session starts, the
    session is closed once, after the loop and before the merged
    document is written. *)
Theorem session_closed_once (urls : list str) (i n : nat) (w : world) :
  (exists evs : list event,
     trace (try_finally (url_loop i n urls) close_session w).2
     = trace w ++ evs ++ [ECall Quit]
     /\ Forall (fun ev => ev <> ECall Quit) evs)
  /\ (urls <> [] ->
      forall v : value, browser (calls w) = Returns v ->
      exists evs rest : list event,
        trace (main urls w).2
        = trace w ++ [ECall Launch] ++ evs ++ [ECall Quit] ++ rest
        /\ Forall (fun ev => ev <> ECall Quit) evs
        /\ (rest = [] \/ rest = [EMerged (merged a)])).
Proof.
  split.
  - destruct (loop_then_close urls i n w) as (evs & T & F).
    exists evs. split; [assumption|].
    eapply Forall_impl; [exact F|]. now intros ev [H _].
  - intros Hne v Hv. rewrite (main_launched urls w v Hne Hv). cbv zeta.
    destruct (loop_then_close urls 1 (length urls) (launched w))
      as (evs & T & F).
    destruct (finish_trace
                (try_finally (url_loop 1 (length urls) urls) close_session
                   (launched w)).1
                (try_finally (url_loop 1 (length urls) urls) close_session
                   (launched w)).2) as (rest & R & Hrest).
    exists evs, rest. split; [|split; [|assumption]].
    + rewrite R, T. cbn [launched set_pdf_paths trace].
      now rewrite <- !app_assoc.
    + eapply Forall_impl; [exact F|]. now intros ev [H _].
Qed.

(** ** How a run ends *)





(** ** Waiting for a challenge to be solved *)

(** The runs of the polling loop, without fuel: [polled end k w r w']
    says that the loop, started in [w], ends in [w'] with [r] after [k]
    rounds, each of which sleeps 3 seconds and looks for the markers. *)
Inductive polled (end_ : Q) : nat -> world -> res bool -> world -> Prop :=
  | polled_timeout (w : world) :
      Height.Qlt_bool (now w) end_ = false ->
      polled end_ 0 w (Ok true) w
  | polled_cleared (w w1 w2 : world) :
      Height.Qlt_bool (now w) end_ = true ->
      sleep 3 w = (Ok tt, w1) ->
      captcha_markers w1 = (Ok false, w2) ->
      polled end_ 1 w (Ok true) w2
  | polled_raised (w w1 w2 : world) (e : exn) :
      Height.Qlt_bool (now w) end_ = true ->
      sleep 3 w = (Ok tt, w1) ->
      captcha_markers w1 = (Raise e, w2) ->
      polled end_ 1 w (Raise e) w2
  | polled_again (k : nat) (w w1 w2 w3 : world) (r : res bool) :
      Height.Qlt_bool (now w) end_ = true ->
      sleep 3 w = (Ok tt, w1) ->
      captcha_markers w1 = (Ok true, w2) ->
      polled end_ k w2 r w3 ->
      polled end_ (S k) w r w3.

Lemma driver_call_now (c : call) (w : world) :
  now (driver_call c w).2 = now w.
Proof. unfold driver_call. now destruct (browser (calls w)). Qed.

Lemma captcha_markers_now (w : world) : now (captcha_markers w).2 = now w.
Proof.
  unfold captcha_markers, seq_bind.
  pose proof (driver_call_now (FindElements gs_captcha_ccl) w) as H1.
  destruct (driver_call (FindElements gs_captcha_ccl) w) as [[v1|e1] w1];
    [|exact H1].
  cbn [snd] in H1. destruct (truthy v1); [exact H1|].
  pose proof (driver_call_now (FindElements recaptcha) w1) as H2.
  destruct (driver_call (FindElements recaptcha) w1) as [[v2|e2] w2];
    cbn [snd] in *; [|congruence].
  destruct (truthy v2); cbn [ret snd]; [congruence|].
  pose proof (driver_call_now (FindElements sorry_form) w2) as H3.
  destruct (driver_call (FindElements sorry_form) w2) as [[v3|e3] w3];
    cbn [ret snd] in *; congruence.
Qed.

Lemma sleep_3 (w : world) :
  exists w1, sleep 3 w = (Ok tt, w1) /\ now w1 = (now w + 3)%Q
             /\ trace w1 = trace w ++ [ESleep 3].
Proof. eexists. unfold sleep. simpl. repeat split. Qed.

Lemma poll_S (fuel : nat) (end_ : Q) (w : world) :
  poll (S fuel) end_ w
  = if Height.Qlt_bool (now w) end_ then
      match sleep 3 w with
      | (Ok _, w1) =>
          match captcha_markers w1 with
          | (Ok still, w2) =>
              if negb still then (Ok true, w2) else poll fuel end_ w2
          | (Raise e, w2) => (Raise e, w2)
          end
      | (Raise e, w1) => (Raise e, w1)
      end
    else (Ok true, w).
Proof.
  cbn [poll]. unfold seq_bind, time, ret.
  destruct (Height.Qlt_bool (now w) end_); [|reflexivity].
  destruct (sleep 3 w) as [[[]|e] w1]; [|reflexivity].
  destruct (captcha_markers w1) as [[still|e] w2]; [|reflexivity].
  now destruct still.
Qed.

(** With fuel for every round that fits before [end_], the function
    [poll] computes a run of the loop. *)
Lemma poll_polled (end_ : Q) (fuel : nat) (w : world) :
  (end_ - now w <= 3 * inject_Z (Z.of_nat fuel))%Q ->
  exists k : nat,
    polled end_ k w (poll fuel end_ w).1 (poll fuel end_ w).2
    /\ (k <= fuel)%nat.
Proof.
  revert w. induction fuel as [|fuel IH]; intros w Hf.
  - exists O. split; [|lia]. simpl. apply polled_timeout.
    apply Height.Qlt_bool_false.
    change (inject_Z (Z.of_nat 0)) with 0%Q in Hf. lra.
  - rewrite poll_S.
    destruct (Height.Qlt_bool (now w) end_) eqn:E;
      [|exists O; split; [now apply polled_timeout | lia]].
    destruct (sleep_3 w) as (w1 & Hs & Hn & _). rewrite Hs.
    pose proof (captcha_markers_now w1) as Hm.
    destruct (captcha_markers w1) as [[still|e] w2] eqn:Ec; cbn [snd] in Hm.
    + destruct still; cbn [negb].
      * destruct (IH w2) as (k & Hk & Hle).
        { rewrite Hm, Hn. rewrite Nat2Z.inj_succ, <- Z.add_1_r in Hf.
          rewrite inject_Z_plus in Hf. change (inject_Z 1) with 1%Q in Hf.
          generalize dependent (inject_Z (Z.of_nat fuel)). intros. lra. }
        exists (S k). split; [|lia].
        now apply (polled_again _ _ _ w1 w2).
      * exists 1%nat. split; [|lia]. now apply (polled_cleared _ _ w1).
    + exists 1%nat. split; [|lia]. now apply (polled_raised _ _ w1).
Qed.


Lemma poll_fuel_enough (t : Z) (w : world) :
  (now w + inject_Z t - now w <= 3 * inject_Z (Z.of_nat (poll_fuel t)))%Q.
Proof.
  assert (H : (inject_Z t <= 3 * inject_Z (Z.of_nat (poll_fuel t)))%Q).
  { unfold poll_fuel. change 3%Q with (inject_Z 3).
    rewrite <- inject_Z_mult, <- Zle_Qle. lia. }
  generalize dependent (inject_Z (Z.of_nat (poll_fuel t))).
  generalize (inject_Z t). intros. lra.
Qed.



(** ** What a run asks of the browser *)

(** A statement all of whose events satisfy [P]. *)
Definition emits {A : Type} (P : event -> Prop) (m : M A) : Prop :=
  forall w, exists evs, trace (m w).2 = trace w ++ evs /\ Forall P evs.

Lemma emits_nothing {A : Type} (P : event -> Prop) (m : M A) :
  (forall w, trace (m w).2 = trace w) -> emits P m.
Proof.
  intros H w. exists []. split; [now rewrite app_nil_r | constructor].
Qed.

Lemma emits_one {A : Type} (P : event -> Prop) (m : M A) (ev : event) :
  P ev -> (forall w, trace (m w).2 = trace w ++ [ev]) -> emits P m.
Proof. intros Hev H w. exists [ev]. split; [apply H | now constructor]. Qed.

Lemma emits_ret {A : Type} (P : event -> Prop) (x : A) : emits P (ret x).
Proof. now apply emits_nothing. Qed.

Lemma emits_raise {A : Type} (P : event -> Prop) (e : exn) :
  emits P (@raise A e).
Proof. now apply emits_nothing. Qed.

Lemma emits_bind {A B : Type} (P : event -> Prop) (m : M A) (k : A -> M B) :
  emits P m -> (forall x, emits P (k x)) -> emits P (seq_bind m k).
Proof.
  intros Hm Hk w. unfold seq_bind. destruct (Hm w) as (e1 & T1 & F1).
  destruct (m w) as [[x|e] w1]; cbn [snd] in *; [|now exists e1].
  destruct (Hk x w1) as (e2 & T2 & F2). exists (e1 ++ e2). split.
  - now rewrite T2, T1, app_assoc.
  - apply Forall_app. now split.
Qed.

Lemma emits_except_pass {A : Type} (P : event -> Prop) (m : M A) (x : A) :
  emits P m -> emits P (except_pass m x).
Proof.
  intros Hm w. unfold except_pass. specialize (Hm w).
  now destruct (m w) as [[y|e] w1].
Qed.

Lemma emits_sleep (P : event -> Prop) (seconds : Q) :
  ((0 <= seconds)%Q -> P (ESleep seconds)) -> emits P (sleep seconds).
Proof.
  intros H w. unfold sleep.
  destruct (Height.Qlt_bool seconds 0) eqn:E; cbn [snd trace].
  - exists []. split; [now rewrite app_nil_r | constructor].
  - exists [ESleep seconds]. split; [reflexivity|].
    constructor; [|constructor]. now apply H, Height.Qlt_bool_false.
Qed.

Lemma emits_driver_call (P : event -> Prop) (c : call) :
  P (ECall c) -> emits P (driver_call c).
Proof.
  intros H. apply (emits_one _ _ (ECall c)); [assumption|].
  intros w. unfold driver_call. now destruct (browser (calls w)).
Qed.

(** The events of the work on the [i]-th URL: navigation to this URL
    only; lookups of the three markers, and only with a visible
    browser; print requests with the width of the paper format, the
    margin of the command line and a height of 1 to 200 inches; sleeps
    of a length that is not negative; and one file, named after the
    position and the URL. *)
Definition url_event (i : nat) (url : str) (ev : event) : Prop :=
  match ev with
  | ECall (Get u) => u = url
  | ECall (FindElements sel) =>
      headful a = true
      /\ (sel = gs_captcha_ccl \/ sel = recaptcha \/ sel = sorry_form)
  | ECall SetEmulatedMedia => True
  | ECall ScrollHeightScript => True
  | ECall (PrintToPDF paper_width paper_height margin_in) =>
      paper_width = width /\ margin_in = margin a
      /\ (1 <= paper_height <= 200)%Q
  | ECall Launch => False
  | ECall Quit => False
  | ESleep seconds => (0 <= seconds)%Q
  | EWriteBytes p => p = joinpath (out_dir a) (SafeName.page_file_name i url)
  | EMerged _ => False
  end.

Definition url_loop_event (i : nat) (urls : list str) (ev : event) : Prop :=
  exists (k : nat) (url : str),
    urls !! k = Some url /\ url_event (i + k) url ev.

Lemma emits_captcha_markers (i : nat) (url : str) :
  headful a = true -> emits (url_event i url) captcha_markers.
Proof.
  intros Hh. unfold captcha_markers.
  repeat first
    [ apply emits_bind; [apply emits_driver_call; cbn; tauto | intros ?]
    | match goal with |- emits _ (if ?b then _ else _) => destruct b end
    | apply emits_ret ].
Qed.

Lemma emits_poll (i : nat) (url : str) (fuel : nat) (end_ : Q) :
  headful a = true -> emits (url_event i url) (poll fuel end_).
Proof.
  intros Hh. induction fuel as [|fuel IH]; cbn [poll]; [apply emits_ret|].
  apply emits_bind; [now apply emits_nothing | intros t].
  destruct (Height.Qlt_bool t end_); [|apply emits_ret].
  apply emits_bind; [apply emits_sleep; now cbn | intros _].
  apply emits_bind; [now apply emits_captcha_markers | intros still].
  destruct (negb still); [apply emits_ret | exact IH].
Qed.

Lemma emits_maybe_wait_for_captcha (i : nat) (url : str) (timeout_s : Z) :
  headful a = true ->
  emits (url_event i url) (maybe_wait_for_captcha timeout_s).
Proof.
  intros Hh. apply emits_except_pass.
  apply emits_bind; [now apply emits_captcha_markers | intros present].
  destruct present; [|apply emits_ret].
  apply emits_bind; [now apply emits_nothing | intros t].
  now apply emits_poll.
Qed.

Lemma default_height_in_range (scroll_height : Z) (margin_in : Q) :
  (1 <= Height.compute_full_height_inches scroll_height
          Height.min_in_default Height.max_in_default margin_in <= 200)%Q.
Proof. apply Height.clamp_in_range. discriminate. Qed.

Lemma emits_measure_height {B : Type} (P : event -> Prop) (margin_in : Q)
    (k : Q -> M B) :
  P (ECall ScrollHeightScript) ->
  (forall h : Q, (1 <= h <= 200)%Q -> emits P (k h)) ->
  emits P (seq_bind (measure_height margin_in) k).
Proof.
  intros HP Hk w. unfold seq_bind, measure_height, seq_bind.
  destruct (emits_driver_call P ScrollHeightScript HP w) as (e1 & T1 & F1).
  destruct (driver_call ScrollHeightScript w) as [[v|e] w1]; cbn [snd] in *;
    [|now exists e1].
  destruct v; cbn [ret raise]; try now exists e1.
  destruct (Hk _ (default_height_in_range n margin_in) w1) as (e2 & T2 & F2).
  exists (e1 ++ e2). split.
  - now rewrite T2, T1, app_assoc.
  - apply Forall_app. now split.
Qed.

Lemma emits_print_one_page_pdf (i : nat) (url : str) (ms : Z) :
  emits (url_event i url)
    (print_one_page_pdf url
       (joinpath (out_dir a) (SafeName.page_file_name i url))
       width (margin a) ms).
Proof.
  unfold print_one_page_pdf.
  apply emits_bind; [now apply emits_driver_call | intros _].
  apply emits_bind; [apply emits_sleep; now cbn | intros _].
  apply emits_bind; [now apply emits_driver_call | intros _].
  apply emits_measure_height; [exact I | intros h Hh].
  apply emits_bind; [apply emits_driver_call; now cbn | intros r].
  destruct r; try apply emits_raise.
  now apply (emits_one _ _
               (EWriteBytes
                  (joinpath (out_dir a) (SafeName.page_file_name i url)))).
Qed.

Lemma emits_attempt (i : nat) (url : str) :
  emits (url_event i url)
    (attempt url (joinpath (out_dir a) (SafeName.page_file_name i url))).
Proof.
  unfold attempt.
  apply emits_bind; [now apply emits_driver_call | intros _].
  apply emits_bind; [|intros solved].
  { destruct (headful a) eqn:Hh;
      [now apply emits_maybe_wait_for_captcha | apply emits_ret]. }
  apply emits_bind; [|intros _].
  { destruct solved; [|apply emits_ret].
    apply emits_bind; [now apply emits_driver_call | intros _].
    apply emits_ret. }
  apply emits_bind; [apply emits_sleep; now cbn | intros _].
  apply emits_bind; [apply emits_print_one_page_pdf | intros _].
  now apply emits_nothing.
Qed.

Lemma emits_retry_loop (i : nat) (url : str) (fuel : nat) :
  emits (url_event i url)
    (retry_loop fuel url
       (joinpath (out_dir a) (SafeName.page_file_name i url))).
Proof.
  induction fuel as [|fuel IH]; [apply emits_ret|].
  intros w. cbn [retry_loop].
  destruct (attempts w <? 3); [|apply (emits_ret _ tt w)].
  destruct (emits_attempt i url (set_attempts (attempts w + 1) w))
    as (e1 & T1 & F1).
  destruct (attempt _ _ (set_attempts (attempts w + 1) w)) as [[x|e] w1];
    cbn [snd set_attempts trace] in *; [now exists e1|].
  destruct e; try now exists e1.
  assert (H : emits (url_event i url)
                (sleep (inject_Z (backoff w1)) ;;
                 (fun w'' => (Ok tt, set_backoff (backoff w'' * 2) w'')) ;;
                 retry_loop fuel url
                   (joinpath (out_dir a) (SafeName.page_file_name i url)))).
  { apply emits_bind; [apply emits_sleep; now cbn | intros _].
    apply emits_bind; [now apply emits_nothing | intros _]. exact IH. }
  destruct (H w1) as (e2 & T2 & F2). exists (e1 ++ e2). split.
  - now rewrite T2, T1, app_assoc.
  - apply Forall_app. now split.
Qed.

Lemma emits_cooldown (P : event -> Prop) (i n : nat) :
  (forall seconds : Q, (0 <= seconds)%Q -> P (ESleep seconds)) ->
  emits P (cooldown i n).
Proof.
  intros H. unfold cooldown.
  destruct (rest_every a =? 0); [apply emits_raise|].
  destruct (_ && _); [apply emits_sleep, H | apply emits_ret].
Qed.

Lemma emits_process_url (i n : nat) (url : str) :
  emits (url_event i url) (process_url i n url).
Proof.
  unfold process_url.
  apply emits_bind; [apply emits_sleep; now cbn | intros _].
  apply emits_bind; [now apply emits_nothing | intros _].
  apply emits_bind; [apply emits_retry_loop | intros _].
  apply emits_cooldown. now cbn.
Qed.

Lemma emits_impl {A : Type} (P P' : event -> Prop) (m : M A) :
  (forall ev, P ev -> P' ev) -> emits P m -> emits P' m.
Proof.
  intros H Hm w. destruct (Hm w) as (evs & T & F). exists evs.
  split; [assumption|]. eapply Forall_impl; [exact F | exact H].
Qed.

Lemma emits_url_loop (urls : list str) (i n : nat) :
  emits (url_loop_event i urls) (url_loop i n urls).
Proof.
  revert i. induction urls as [|url rest IH]; intros i; cbn [url_loop];
    [apply emits_ret|].
  apply emits_bind; [|intros _].
  - apply (emits_impl (url_event i url)); [|apply emits_process_url].
    intros ev H. exists O, url. split; [reflexivity|].
    now rewrite Nat.add_0_r.
  - apply (emits_impl (url_loop_event (S i) rest)); [|apply IH].
    intros ev (k & u & Hk & H). exists (S k), u. split; [exact Hk|].
    now rewrite Nat.add_succ_r.
Qed.

(** The events of a run of [main]: the start and the end of the
    session, the merge, and the events of the work on the URLs. *)
Definition main_event (urls : list str) (ev : event) : Prop :=
  ev = ECall Launch \/ ev = ECall Quit \/ ev = EMerged (merged a)
  \/ url_loop_event 1 urls ev.

Lemma main_events (urls : list str) (w : world) :
  exists evs,
    trace (main urls w).2 = trace w ++ evs /\ Forall (main_event urls) evs.
Proof.
  destruct urls as [|u us] eqn:Eu.
  { exists []. split; [cbn; now rewrite app_nil_r | constructor]. }
  rewrite <- Eu. assert (Hne : urls <> []) by (rewrite Eu; discriminate).
  clear Eu. destruct (browser (calls w)) as [v|e] eqn:Eb.
  - rewrite (main_launched urls w v Hne Eb). cbv zeta.
    destruct (try_finally_close (url_loop 1 (length urls) urls) (launched w))
      as (T & _).
    destruct (emits_url_loop urls 1 (length urls) (launched w))
      as (evs & E & F).
    destruct (finish_trace
                (try_finally (url_loop 1 (length urls) urls) close_session
                   (launched w)).1
                (try_finally (url_loop 1 (length urls) urls) close_session
                   (launched w)).2) as (rest & R & Hrest).
    exists ([ECall Launch] ++ evs ++ [ECall Quit] ++ rest). split.
    + rewrite R, T, E. cbn [launched set_pdf_paths trace].
      now rewrite <- !app_assoc.
    + apply Forall_app. split; [constructor; [now left | constructor]|].
      apply Forall_app. split.
      { eapply Forall_impl; [exact F|]. intros ev H. now do 3 right. }
      apply Forall_app. split; [constructor; [right; now left | constructor]|].
      destruct Hrest as [-> | ->]; constructor; [|constructor].
      right. right. now left.
  - exists [ECall Launch]. split; [|constructor; [now left | constructor]].
    destruct urls; [contradiction|].
    unfold main, driver_call at 1. now rewrite Eb.
Qed.


(** X15: whatever the browser answers, every print request of a run
    asks for the width of the chosen paper format, the margin of the
    command line on all sides, and a paper height between 1 and 200
    inches. *)
Theorem print_requests_within_limits (urls : list str) (w : world) :
  exists evs : list event,
    trace (main urls w).2 = trace w ++ evs
    /\ Forall (fun ev =>
         forall paper_width paper_height margin_in : Q,
           ev = ECall (PrintToPDF paper_width paper_height margin_in) ->
           paper_width = width /\ margin_in = margin a
           /\ (1 <= paper_height <= 200)%Q) evs.
Proof.
  destruct (main_events urls w) as (evs & T & F). exists evs.
  split; [exact T|]. eapply Forall_impl; [exact F|].
  intros ev [-> | [-> | [-> | (k & u & _ & H)]]] pw ph m E;
    try discriminate E.
  subst ev. exact H.
Qed.

(** X16: a run navigates to the URLs of its list and nowhere else, and
    the only page files it writes are those named after a position of
    the list and the URL at that position, in the output directory. *)
Theorem navigation_and_files (urls : list str) (w : world) :
  exists evs : list event,
    trace (main urls w).2 = trace w ++ evs
    /\ Forall (fun ev =>
         (forall u : str, ev = ECall (Get u) -> In u urls)
         /\ (forall p : str, ev = EWriteBytes p ->
               exists (k : nat) (url : str),
                 urls !! k = Some url
                 /\ p = joinpath (out_dir a)
                          (SafeName.page_file_name (S k) url))) evs.
Proof.
  destruct (main_events urls w) as (evs & T & F). exists evs.
  split; [exact T|]. eapply Forall_impl; [exact F|].
  intros ev [-> | [-> | [-> | (k & u & Hk & H)]]];
    try (split; intros ? E; discriminate E).
  split.
  - intros u' ->. cbn in H. subst u'.
    apply list_elem_of_In. eapply list_elem_of_lookup_2. exact Hk.
  - intros p ->. cbn in H. now exists k, u.
Qed.

(** X17: without a visible browser a run never looks for the markers
    of an interstitial page. *)
Theorem headless_never_probes (urls : list str) (w : world) :
  headful a = false ->
  exists evs : list event,
    trace (main urls w).2 = trace w ++ evs
    /\ Forall (fun ev => forall sel : selector,
                 ev <> ECall (FindElements sel)) evs.
Proof.
  intros Hh. destruct (main_events urls w) as (evs & T & F). exists evs.
  split; [exact T|]. eapply Forall_impl; [exact F|].
  intros ev [-> | [-> | [-> | (k & u & _ & H)]]] sel E;
    try discriminate E.
  subst ev. cbn in H. destruct H as [H _]. congruence.
Qed.

(** ** The recorded paths *)

(** The page files of the URLs from the [i]-th on, in order. *)
Fixpoint out_paths (i : nat) (urls : list str) : list str :=
  match urls with
  | [] => []
  | url :: rest =>
      joinpath (out_dir a) (SafeName.page_file_name i url)
      :: out_paths (S i) rest
  end.

Lemma quietly_pdf_paths {A : Type} (m : M A) (w : world) :
  quietly m -> pdf_paths (m w).2 = pdf_paths w.
Proof. intros H. now destruct (H w) as (_ & P & _). Qed.

Lemma retry_loop_pdf_paths (fuel : nat) (url out_path : str) (w : world) :
  pdf_paths (retry_loop fuel url out_path w).2 = pdf_paths w
  \/ pdf_paths (retry_loop fuel url out_path w).2 = pdf_paths w ++ [out_path].
Proof.
  revert w. induction fuel as [|fuel IH]; intros w; [now left|].
  cbn [retry_loop]. destruct (attempts w <? 3); [|now left].
  pose proof (attempt_captures url out_path
                (set_attempts (attempts w + 1) w)) as H.
  destruct (attempt url out_path (set_attempts (attempts w + 1) w))
    as [[x|e] w1].
  - destruct H as (_ & P & _). now right.
  - destruct H as (_ & P & _). cbn [set_attempts pdf_paths] in P.
    destruct e; try (left; exact P).
    unfold seq_bind.
    pose proof (quietly_pdf_paths _ w1 (quietly_sleep (inject_Z (backoff w1))))
      as Hs.
    destruct (sleep (inject_Z (backoff w1)) w1) as [[[]|e] w2];
      cbn [snd] in *; [|left; congruence].
    destruct (IH (set_backoff (backoff w2 * 2) w2)) as [E | E];
      rewrite E; cbn [set_backoff pdf_paths]; rewrite Hs, P; tauto.
Qed.

Lemma process_url_pdf_paths (i n : nat) (url : str) (w : world) :
  pdf_paths (process_url i n url w).2 = pdf_paths w
  \/ pdf_paths (process_url i n url w).2
     = pdf_paths w ++ [joinpath (out_dir a) (SafeName.page_file_name i url)].
Proof.
  unfold process_url, seq_bind.
  pose proof (quietly_pdf_paths _ w (quietly_sleep (uniform i))) as Hs.
  destruct (sleep (uniform i) w) as [[[]|e] w1]; cbn [snd] in *;
    [|now left].
  pose proof (retry_loop_pdf_paths 3 url
                (joinpath (out_dir a) (SafeName.page_file_name i url))
                (set_backoff 3 (set_attempts 0 w1))) as Hr.
  cbn [set_backoff set_attempts pdf_paths] in Hr. rewrite Hs in Hr.
  destruct (retry_loop 3 url _ (set_backoff 3 (set_attempts 0 w1)))
    as [[[]|e] w2]; cbn [snd] in *; [|exact Hr].
  assert (Hc : quietly (cooldown i n)).
  { unfold cooldown. destruct (rest_every a =? 0); [apply quietly_raise|].
    destruct (_ && _); [apply quietly_sleep | apply quietly_ret]. }
  now rewrite (quietly_pdf_paths _ w2 Hc).
Qed.

Lemma url_loop_pdf_paths (urls : list str) (i n : nat) (w : world) :
  exists ps : list str,
    pdf_paths (url_loop i n urls w).2 = pdf_paths w ++ ps
    /\ sublist ps (out_paths i urls).
Proof.
  revert i w. induction urls as [|url rest IH]; intros i w;
    cbn [url_loop out_paths].
  - exists []. split; [cbn; now rewrite app_nil_r | constructor].
  - unfold seq_bind.
    pose proof (process_url_pdf_paths i n url w) as H.
    destruct (process_url i n url w) as [[[]|e] w1]; cbn [snd] in *.
    + destruct (IH (S i) w1) as (ps & P & S).
      destruct H as [H | H]; rewrite P, H.
      * exists ps. split; [reflexivity | now apply sublist_cons].
      * exists (joinpath (out_dir a) (SafeName.page_file_name i url) :: ps).
        split; [now rewrite <- app_assoc | now apply sublist_skip].
    + destruct H as [H | H]; rewrite H.
      * exists []. split; [now rewrite app_nil_r | apply sublist_nil_l].
      * exists [joinpath (out_dir a) (SafeName.page_file_name i url)].
        split; [reflexivity|]. apply sublist_skip, sublist_nil_l.
Qed.

(** X18: the paths that a run records, and later merges in this order,
    are page files of the URLs of the list in the order of the list,
    with at most one per URL: a URL that failed is left out, none is
    repeated, none is out of place. *)
Theorem pdf_paths_in_order (urls : list str) (i n : nat) (w : world) :
  exists ps : list str,
    pdf_paths (try_finally (url_loop i n urls) close_session w).2
    = pdf_paths w ++ ps
    /\ sublist ps (out_paths i urls)
    /\ (length ps <= length urls)%nat.
Proof.
  destruct (try_finally_close (url_loop i n urls) w) as (_ & _ & P).
  destruct (url_loop_pdf_paths urls i n w) as (ps & Hps & S).
  exists ps. split; [now rewrite P|]. split; [exact S|].
  apply sublist_length in S.
  assert (L : forall j, length (out_paths j urls) = length urls).
  { clear. induction urls as [|u us IH]; intros j; cbn; [reflexivity|].
    now rewrite IH. }
  now rewrite L in S.
Qed.

Lemma out_paths_positions (urls : list str) (i : nat) (p : str) :
  In p (out_paths i urls) ->
  exists (k : nat) (url : str),
    p = joinpath (out_dir a) (SafeName.page_file_name (i + k) url).
Proof.
  revert i. induction urls as [|u us IH]; intros i; cbn [out_paths In];
    [easy|].
  intros [<- | H].
  - exists O, u. now rewrite Nat.add_0_r.
  - destruct (IH _ H) as (k & url & ->). exists (S k), url.
    now rewrite Nat.add_succ_r.
Qed.

Lemma NoDup_out_paths (urls : list str) (i : nat) :
  (forall n1 n2 : str,
     joinpath (out_dir a) n1 = joinpath (out_dir a) n2 -> n1 = n2) ->
  List.NoDup (out_paths i urls).
Proof.
  intros Hj. revert i. induction urls as [|u us IH]; intros i;
    cbn [out_paths]; constructor; [|apply IH].
  intros H. apply out_paths_positions in H as (k & url & H).
  apply Hj, SafeName.page_file_name_ordinal in H. lia.
Qed.

(** X24: no page of a run is overwritten by another.  When joining a
    directory and a name gives different paths for different names,
    the page files of the list are pairwise different, and so are the
    paths that the run records: the merged document holds every
    captured page once. *)
Theorem pdf_paths_distinct (urls : list str) (i n : nat) (w : world) :
  (forall n1 n2 : str,
     joinpath (out_dir a) n1 = joinpath (out_dir a) n2 -> n1 = n2) ->
  List.NoDup (out_paths i urls)
  /\ exists ps : list str,
       pdf_paths (try_finally (url_loop i n urls) close_session w).2
       = pdf_paths w ++ ps
       /\ List.NoDup ps.
Proof.
  intros Hj. pose proof (NoDup_out_paths urls i Hj) as Hnd.
  split; [exact Hnd|].
  destruct (try_finally_close (url_loop i n urls) w) as (_ & _ & P).
  destruct (url_loop_pdf_paths urls i n w) as (ps & Hps & S).
  exists ps. split; [now rewrite P|].
  apply NoDup_ListNoDup. apply NoDup_ListNoDup in Hnd.
  now apply (sublist_NoDup _ _ Hnd).
Qed.

(** ** How long the wait for a challenge lasts *)

Lemma polled_deadline (end_ : Q) (k : nat) (w w' : world) (r : res bool) :
  polled end_ k w r w' ->
  (now w' == now w)%Q
  \/ (now w < end_ /\ now w + 3 <= now w' /\ now w' < end_ + 3)%Q.
Proof.
  induction 1 as [w Hn | w w1 w2 Hn Hs Hm | w w1 w2 e Hn Hs Hm
                  | k w w1 w2 w3 r Hn Hs Hm _ IH].
  - left. reflexivity.
  - destruct (sleep_3 w) as (w1' & Hs' & Hn1 & _).
    assert (w1' = w1) by congruence. subst w1'.
    pose proof (captcha_markers_now w1) as Hc. rewrite Hm in Hc.
    cbn [snd] in Hc. apply Height.Qlt_bool_iff in Hn.
    right. rewrite Hc, Hn1. repeat split; lra.
  - destruct (sleep_3 w) as (w1' & Hs' & Hn1 & _).
    assert (w1' = w1) by congruence. subst w1'.
    pose proof (captcha_markers_now w1) as Hc. rewrite Hm in Hc.
    cbn [snd] in Hc. apply Height.Qlt_bool_iff in Hn.
    right. rewrite Hc, Hn1. repeat split; lra.
  - destruct (sleep_3 w) as (w1' & Hs' & Hn1 & _).
    assert (w1' = w1) by congruence. subst w1'.
    pose proof (captcha_markers_now w1) as Hc. rewrite Hm in Hc.
    cbn [snd] in Hc. apply Height.Qlt_bool_iff in Hn.
    rewrite Hc, Hn1 in IH. right.
    destruct IH as [IH | (I1 & I2 & I3)]; [rewrite IH|]; repeat split; lra.
Qed.

(** X19: the wait for a challenge is bounded.  Either it does not
    sleep at all (no marker, an exception at the first lookup, or a
    timeout that is not positive), or the timeout is positive and the
    wait lasts at least 3 seconds and less than the timeout plus 3
    seconds. *)
Theorem captcha_wait_bounded (timeout_s : Z) (w : world) :
  let w' := (maybe_wait_for_captcha timeout_s w).2 in
  (now w' == now w)%Q
  \/ (0 < timeout_s
      /\ (now w + 3 <= now w' /\ now w' < now w + inject_Z timeout_s + 3)%Q).
Proof.
  cbv zeta. unfold maybe_wait_for_captcha, except_pass, seq_bind, time.
  pose proof (captcha_markers_now w) as Hm.
  destruct (captcha_markers w) as [[present|e] w1]; cbn [snd] in Hm;
    [|left; cbn [snd]; now rewrite Hm].
  destruct present; [|left; cbn [ret snd]; now rewrite Hm].
  destruct (poll_polled (now w1 + inject_Z timeout_s)%Q (poll_fuel timeout_s)
              w1 (poll_fuel_enough timeout_s w1)) as (k & Hk & _).
  apply polled_deadline in Hk.
  assert (E : now (match poll (poll_fuel timeout_s)
                           (now w1 + inject_Z timeout_s)%Q w1 with
                   | (Ok b, w') => (Ok b, w')
                   | (Raise _, w') => (Ok false, w')
                   end).2
              = now (poll (poll_fuel timeout_s)
                       (now w1 + inject_Z timeout_s)%Q w1).2).
  { now destruct (poll _ _ w1) as [[b|e] w2]. }
  rewrite E. clear E.
  destruct Hk as [Hk | (H1 & H2 & H3)].
  - left. now rewrite Hk, Hm.
  - right. rewrite Hm in *. split.
    + rewrite Zlt_Qlt. change (inject_Z 0) with 0%Q.
      generalize dependent (inject_Z timeout_s). intros. lra.
    + generalize dependent (inject_Z timeout_s). intros. split; lra.
Qed.

(** ** A cooldown period of zero pages *)

Lemma process_url_zero_raises (i n : nat) (url : str) (w : world) :
  rest_every a = 0 -> exists e, (process_url i n url w).1 = Raise e.
Proof.
  intros H. unfold process_url, seq_bind, cooldown. rewrite H. cbn [Z.eqb].
  destruct (sleep (uniform i) w) as [[[]|e] w1]; [|eauto].
  destruct (retry_loop 3 url _ _) as [[[]|e] w2]; cbn; eauto.
Qed.

(** X20: with [--rest-every 0] no run completes.  The cooldown test
    divides by zero after the first URL, whether its page was captured
    or not; the run ends with an exception and without a merged
    document. *)
Theorem rest_every_zero_never_completes (urls : list str) (w : world) :
  rest_every a = 0 -> urls <> [] ->
  exists (e : exn) (evs : list event),
    (main urls w).1 = Uncaught e
    /\ trace (main urls w).2 = trace w ++ evs
    /\ Forall (fun ev => forall p : str, ev <> EMerged p) evs.
Proof.
  intros Hz Hne.
  destruct (browser (calls w)) as [v|e0] eqn:Eb.
  - rewrite (main_launched urls w v Hne Eb). cbv zeta.
    destruct (loop_then_close urls 1 (length urls) (launched w))
      as (evs & T & F).
    assert (Hr : exists e,
               (try_finally (url_loop 1 (length urls) urls) close_session
                  (launched w)).1 = Raise e).
    { destruct urls as [|u us]; [contradiction|].
      cbn [url_loop]. unfold try_finally, seq_bind at 1.
      destruct (process_url_zero_raises 1 (length (u :: us)) u (launched w) Hz)
        as [e He].
      destruct (process_url 1 (length (u :: us)) u (launched w)) as [r w1].
      cbn [fst] in He. subst r.
      destruct (close_session w1) as [[[]|e'] w2]; cbn [fst]; eauto. }
    destruct Hr as [e He].
    destruct (try_finally _ _ _) as [r w2]. cbn [fst snd] in *. subst r.
    exists e, ([ECall Launch] ++ evs ++ [ECall Quit]).
    split; [reflexivity|]. split.
    + cbn [finish snd]. rewrite T. cbn [launched set_pdf_paths trace].
      now rewrite <- !app_assoc.
    + apply Forall_app. split; [constructor; [discriminate | constructor]|].
      apply Forall_app. split; [|constructor; [discriminate | constructor]].
      eapply Forall_impl; [exact F|]. now intros ev [_ H].
  - destruct urls as [|u us]; [contradiction|].
    exists e0, [ECall Launch]. unfold main, driver_call. rewrite Eb.
    cbn [fst snd trace]. split; [reflexivity|]. split; [reflexivity|].
    constructor; [discriminate | constructor].
Qed.

(** ** A capture without a visible browser *)

(** The time an attempt lets the page settle before it prints. *)
Definition settle : Q := Height.py_max 1 (inject_Z (wait_ms a) / 1000).

Lemma settle_not_negative : Height.Qlt_bool settle 0 = false.
Proof.
  apply Height.Qlt_bool_false. unfold settle.
  destruct (Height.py_max_cases 1 (inject_Z (wait_ms a) / 1000))
    as [[H ->] | [_ ->]]; [|discriminate].
  apply Qlt_le_weak. eapply Qlt_trans; [|exact H]. reflexivity.
Qed.

(** X21: a capture without a visible browser.  An attempt that
    succeeds in headless mode makes exactly five calls: it loads the
    URL, lets it settle, loads it a second time (in
    [print_one_page_pdf]), switches to screen media, measures the page
    and prints it with the paper height computed from the measure; it
    writes what the print returned to the page file and records the
    path.  The third and fourth answer after the two loads are the
    measure and the document. *)
Theorem headless_capture (url out_path : str) (w w' : world) :
  headful a = false ->
  attempt url out_path w = (Ok tt, w') ->
  exists (scroll_height : Z) (doc : list page),
    browser (calls w + 3)%nat = Returns (VNum scroll_height)
    /\ browser (calls w + 4)%nat = Returns (VData doc)
    /\ trace w'
       = trace w
         ++ [ECall (Get url); ESleep settle; ECall (Get url);
             ESleep (inject_Z 0 / 1000); ECall SetEmulatedMedia;
             ECall ScrollHeightScript;
             ECall (PrintToPDF width
                      (Height.compute_full_height_inches scroll_height
                         Height.min_in_default Height.max_in_default
                         (margin a))
                      (margin a));
             EWriteBytes out_path]
    /\ files w' = <[out_path := doc]> (files w)
    /\ pdf_paths w' = pdf_paths w ++ [out_path]
    /\ calls w' = (calls w + 5)%nat.
Proof.
  intros Hh H.
  replace (calls w + 3)%nat with (S (S (S (calls w)))) by lia.
  replace (calls w + 4)%nat with (S (S (S (S (calls w))))) by lia.
  replace (calls w + 5)%nat with (S (S (S (S (S (calls w)))))) by lia.
  unfold attempt, print_one_page_pdf, measure_height in H.
  rewrite Hh in H. fold settle in H.
  unfold seq_bind, driver_call, ret, raise, write_bytes, append_pdf_path,
    sleep in H.
  cbn [calls now trace files pdf_paths attempts backoff] in H.
  destruct (browser (calls w)) as [v0|]; cbv beta iota in H;
    [|discriminate H].
  cbn [calls now trace files pdf_paths attempts backoff] in H.
  rewrite settle_not_negative in H. cbv beta iota in H.
  cbn [calls now trace files pdf_paths attempts backoff] in H.
  destruct (browser (S (calls w))) as [v1|]; cbv beta iota in H;
    [|discriminate H].
  change (Height.Qlt_bool (inject_Z 0 / 1000) 0) with false in H.
  cbv beta iota in H.
  cbn [calls now trace files pdf_paths attempts backoff] in H.
  destruct (browser (S (S (calls w)))) as [v2|]; cbv beta iota in H;
    [|discriminate H].
  cbn [calls now trace files pdf_paths attempts backoff] in H.
  destruct (browser (S (S (S (calls w))))) as [[|h| |]|]; cbv beta iota in H;
    try discriminate H.
  cbn [calls now trace files pdf_paths attempts backoff] in H.
  destruct (browser (S (S (S (S (calls w)))))) as [[| | |doc]|];
    cbv beta iota in H; try discriminate H.
  injection H as <-. exists h, doc.
  cbn [calls trace files pdf_paths]. rewrite <- !app_assoc.
  repeat split.
Qed.


End Loop.

(** ** Concrete runs *)

Definition pdf_pages : str := Eval cbv in lit "pdf_pages".
Definition merged_name : str := Eval cbv in lit "merged.pdf".

Definition demo_args : args :=
  mkArgs true 7 1500 Height.margin_in_default false 10 1 pdf_pages merged_name.

Definition headless_args : args :=
  mkArgs false 600 1500 Height.margin_in_default false 10 1 pdf_pages
    merged_name.

Definition join_slash (dir name : str) : str := dir ++ [47%N] ++ name.

Definition steady (i : nat) : Q := 2.

Definition fresh : world := mkWorld 0 0 [] ∅ [] 0 3.

Definition page_url : str := SafeName.scholar_url.

Definition page_path : str :=
  Eval cbv in join_slash (lit "pdf_pages") (SafeName.page_file_name 1 page_url).

(** A browser every call to which fails. *)
Definition failing : nat -> response := fun _ => Raises WebDriverException.


(** A browser whose first navigation fails and which then serves a
    page of 1920 pixels, printed as the one-page document [[42]]. *)
Definition flaky : nat -> response :=
  fun n =>
    match n with
    | 0%nat => Raises WebDriverException
    | 4%nat => Returns (VNum 1920)
    | 5%nat => Returns (VData [42])
    | _ => Returns VNone
    end.

(** A browser that shows a challenge which is gone at the second look,
    then serves the page. *)
Definition challenged : nat -> response :=
  fun n =>
    match n with
    | 0%nat => Returns (VElements 1)
    | 1%nat => Returns (VElements 1)
    | 8%nat => Returns (VNum 1920)
    | 9%nat => Returns (VData [42])
    | _ => Returns VNone
    end.

(** A browser that works: every page is 1920 pixels high and prints as
    [[42]]. *)
Definition working : nat -> response :=
  fun n =>
    match (n mod 5)%nat with
    | 4%nat => Returns (VNum 1920)
    | 0%nat => Returns (VData [42])
    | _ => Returns VNone
    end.

Definition failed_1 : world :=
  (attempt failing headless_args page_url page_path (begin_attempt fresh)).2.
Definition failed_2 : world :=
  (attempt failing headless_args page_url page_path
     (begin_attempt (back_off failed_1))).2.
Definition failed_3 : world :=
  (attempt failing headless_args page_url page_path
     (begin_attempt (back_off failed_2))).2.

Lemma retry_policy_witness :
  retry_loop failing headless_args 3 page_url page_path fresh
    = (Ok tt, back_off failed_3)
  /\ attempts (back_off failed_3) = 3
  /\ pdf_paths (back_off failed_3) = [].
Proof.
  destruct (proj1 (proj2 (retry_policy failing steady join_slash headless_args
                            page_url page_path))
              fresh failed_1 failed_2 failed_3)
    as (H1 & H2 & _ & _ & _ & H3 & _);
    try (vm_compute; reflexivity).
  split; [exact H1 | split; [exact H2 | exact H3]].
Defined.

Example failure_then_success :
  let w := (retry_loop flaky headless_args 3 page_url page_path fresh).2 in
  attempts w = 2 /\ pdf_paths w = [page_path]
  /\ files w !! page_path = Some [42]
  /\ trace w = [ECall (Get page_url); ESleep 3; ECall (Get page_url);
                ESleep (Height.py_max 1 (1500 / 1000));
                ECall (Get page_url); ESleep (0 / 1000);
                ECall SetEmulatedMedia; ECall ScrollHeightScript;
                ECall (PrintToPDF (827 # 100)
                         (Height.compute_full_height_inches 1920 1 200
                            Height.margin_in_default)
                         Height.margin_in_default);
                EWriteBytes page_path].
Proof. vm_compute. repeat split. Qed.

Lemma session_closed_once_witness :
  exists evs rest : list event,
    trace (main working steady join_slash headless_args Pdf.any_path [page_url] fresh).2
    = trace fresh ++ [ECall Launch] ++ evs ++ [ECall Quit] ++ rest
    /\ Forall (fun ev => ev <> ECall Quit) evs.
Proof.
  destruct (proj2 (session_closed_once working steady join_slash headless_args Pdf.any_path
                     [page_url] 1 1 fresh))
    with (v := VData [42]) as (evs & rest & H1 & H2 & _).
  - discriminate.
  - vm_compute. reflexivity.
  - exists evs, rest. split; assumption.
Defined.



Example run_completes :
  let ow := main working steady join_slash headless_args Pdf.any_path [page_url] fresh in
  ow.1 = Completed
  /\ pdf_paths ow.2 = [page_path]
  /\ files ow.2 !! merged headless_args = Some [42].
Proof. vm_compute. repeat split. Qed.

(** The merged document is to go to a directory that is not there: the
    page is captured and the session closed, then the run ends with
    the exception of [open] and without a merged document. *)
Definition nodir_args : args :=
  mkArgs false 600 1500 Height.margin_in_default false 10 1 pdf_pages
    Pdf.nodir_merged_pdf.

Example merged_path_cannot_be_opened :
  let ow := main working steady join_slash nodir_args Pdf.without_nodir
              [page_url] fresh in
  ow.1 = Uncaught OtherException
  /\ pdf_paths ow.2 = [page_path]
  /\ files ow.2 !! page_path = Some [42]
  /\ files ow.2 !! merged nodir_args = None
  /\ List.last (trace ow.2) (ECall Launch) = ECall Quit.
Proof. vm_compute. repeat split. Qed.

(** No page captured: every attempt of the only URL fails. *)
Definition starts_then_fails : nat -> response :=
  fun n =>
    match n with
    | 0%nat | 4%nat => Returns VNone
    | _ => Raises WebDriverException
    end.

Example run_without_artifact :
  let ow := main starts_then_fails steady join_slash headless_args Pdf.any_path
              [page_url] fresh in
  ow.1 = Exited 2 /\ pdf_paths ow.2 = [] /\ files ow.2 = ∅
  /\ trace ow.2 = [ECall Launch; ESleep 2;
                   ECall (Get page_url); ESleep 3;
                   ECall (Get page_url); ESleep 6;
                   ECall (Get page_url); ESleep 12;
                   ECall Quit].
Proof. vm_compute. repeat split. Qed.


Example challenge_solved_then_reload :
  trace (attempt challenged demo_args page_url page_path
           (begin_attempt fresh)).2
  = [ECall (Get page_url);
     ECall (FindElements gs_captcha_ccl);
     ESleep 3;
     ECall (FindElements gs_captcha_ccl);
     ECall (FindElements recaptcha);
     ECall (FindElements sorry_form);
     ECall (Get page_url);
     ESleep (Height.py_max 1 (1500 / 1000));
     ECall (Get page_url); ESleep (0 / 1000);
     ECall SetEmulatedMedia; ECall ScrollHeightScript;
     ECall (PrintToPDF (827 # 100)
              (Height.compute_full_height_inches 1920 1 200
                 Height.margin_in_default)
              Height.margin_in_default);
     EWriteBytes page_path].
Proof. vm_compute. reflexivity. Qed.

(** A run without a visible browser never looks for markers. *)
Lemma headless_never_probes_witness :
  exists evs : list event,
    trace (main working steady join_slash headless_args Pdf.any_path [page_url] fresh).2
    = trace fresh ++ evs
    /\ Forall (fun ev => forall sel : selector,
                 ev <> ECall (FindElements sel)) evs.
Proof.
  apply (headless_never_probes working steady join_slash headless_args Pdf.any_path
           [page_url] fresh).
  reflexivity.
Defined.

(** [--rest-every 0] *)
Definition no_rest_args : args :=
  mkArgs false 600 1500 Height.margin_in_default false 0 1 pdf_pages
    merged_name.

Lemma rest_every_zero_never_completes_witness :
  exists (e : exn) (evs : list event),
    (main working steady join_slash no_rest_args Pdf.any_path [page_url] fresh).1
    = Uncaught e
    /\ trace (main working steady join_slash no_rest_args Pdf.any_path [page_url] fresh).2
       = trace fresh ++ evs
    /\ Forall (fun ev => forall p : str, ev <> EMerged p) evs.
Proof.
  apply (rest_every_zero_never_completes working steady join_slash
           no_rest_args Pdf.any_path [page_url] fresh).
  - reflexivity.
  - discriminate.
Defined.

Example rest_every_zero_run :
  let ow := main working steady join_slash no_rest_args Pdf.any_path [page_url] fresh in
  ow.1 = Uncaught ZeroDivisionError
  /\ files ow.2 !! page_path = Some [42]
  /\ files ow.2 !! merged no_rest_args = None.
Proof. vm_compute. repeat split. Qed.

Definition captured_page : world :=
  (attempt working headless_args page_url page_path (launched fresh)).2.

Lemma attempt_captured_page :
  attempt working headless_args page_url page_path (launched fresh)
  = (Ok tt, captured_page).
Proof.
  assert (H : (attempt working headless_args page_url page_path
                 (launched fresh)).1 = Ok tt) by (vm_compute; reflexivity).
  unfold captured_page.
  destruct (attempt working headless_args page_url page_path (launched fresh))
    as [r w']. cbn [fst snd] in *. now subst r.
Qed.

Lemma headless_capture_witness :
  exists (scroll_height : Z) (doc : list page),
    working (calls (launched fresh) + 3)%nat = Returns (VNum scroll_height)
    /\ working (calls (launched fresh) + 4)%nat = Returns (VData doc)
    /\ trace captured_page
       = trace (launched fresh)
         ++ [ECall (Get page_url); ESleep (settle headless_args);
             ECall (Get page_url); ESleep (inject_Z 0 / 1000);
             ECall SetEmulatedMedia; ECall ScrollHeightScript;
             ECall (PrintToPDF (width headless_args)
                      (Height.compute_full_height_inches scroll_height
                         Height.min_in_default Height.max_in_default
                         (margin headless_args))
                      (margin headless_args));
             EWriteBytes page_path]
    /\ files captured_page = <[page_path := doc]> (files (launched fresh))
    /\ pdf_paths captured_page = pdf_paths (launched fresh) ++ [page_path]
    /\ calls captured_page = (calls (launched fresh) + 5)%nat.
Proof.
  exact (headless_capture working headless_args page_url page_path
           (launched fresh) captured_page eq_refl attempt_captured_page).
Defined.

Lemma join_slash_injective (dir n1 n2 : str) :
  join_slash dir n1 = join_slash dir n2 -> n1 = n2.
Proof.
  unfold join_slash. intros H. apply app_inv_head in H. now injection H.
Qed.

Lemma pdf_paths_distinct_witness :
  List.NoDup (out_paths join_slash headless_args 1
                [page_url; page_url; page_url]).
Proof.
  apply (pdf_paths_distinct working steady join_slash headless_args
           Pdf.any_path [page_url; page_url; page_url] 1 3 fresh).
  apply join_slash_injective.
Defined.

(** Two URLs, the first of which fails: the second is the only one
    recorded, under its own position. *)
Definition second_only : nat -> response :=
  fun n =>
    match n with
    | 0%nat => Returns VNone
    | 1%nat | 2%nat | 3%nat => Raises WebDriverException
    | 7%nat => Returns (VNum 960)
    | 8%nat => Returns (VData [43])
    | _ => Returns VNone
    end.

Example failed_url_is_left_out :
  let urls := [page_url; lit "https://a.b/c"] in
  let ow := main second_only steady join_slash headless_args Pdf.any_path urls fresh in
  ow.1 = Completed
  /\ pdf_paths ow.2 = [join_slash pdf_pages (lit "002_a.b_c.pdf")]
  /\ out_paths join_slash headless_args 1 urls
     = [page_path; join_slash pdf_pages (lit "002_a.b_c.pdf")]
  /\ files ow.2 !! merged headless_args = Some [43].
Proof. vm_compute. repeat split. Qed.

End Run.

(* ===================================================================== *)
(** * From the command line to the run *)
(* ===================================================================== *)

(** [main] takes its URLs from a file or from a range:
    <<
    if args.urls_file:
        urls = read_urls_from_file(Path(args.urls_file))
    else:
        urls = build_urls_from_range(args.base_url, args.start_from,
                                     args.start_to, args.step)
    >>
    The two options exclude each other and one of them is required.  An
    empty [--urls-file] counts as absent in the test above, and the
    script then resolves a range without a base URL; this is left out:
    the path of [UrlsFile] is meant to be non-empty. *)
Module Program.
Import PyStr PyExn.

Inductive url_source : Type :=
  | UrlsFile (urls_file : str)
  | BaseUrl (base_url : str) (start_from start_to step : Z).

Section Resolve.

Variable urlparse : str -> res Resolver.ParseResult.
Variable urlunparse : Resolver.ParseResult -> str.
Variable unquote : str -> str.

(** The text files on disk. *)
Variable texts : gmap str str.

Variable browser : nat -> Run.response.
Variable uniform : nat -> Q.
Variable joinpath : str -> str -> str.
Variable a : Run.args.
Variable can_open : str -> bool.

(** A file that cannot be read ends the run with the exception of
    [read_text]. *)
Definition resolve_urls (src : url_source) : res (list str) :=
  match src with
  | UrlsFile urls_file =>
      match UrlsFile.read_urls_from_file texts urls_file with
      | Some urls => Ok urls
      | None => Raise OtherException
      end
  | BaseUrl base_url start_from start_to step =>
      Resolver.build_urls_from_range urlparse urlunparse unquote
        base_url start_from start_to step
  end.

(** [main], from the parsed command line on. *)
Definition run (src : url_source) (w : Run.world) : Run.outcome * Run.world :=
  match resolve_urls src with
  | Raise e => (Run.Uncaught e, w)
  | Ok urls => Run.main browser uniform joinpath a can_open urls w
  end.


(** X23: from a file to the browser.  Whatever the file holds, every
    navigation of a run that takes its URLs from a file goes to a URL
    that is not empty, has no white space at either end and no line
    break in it. *)
Theorem run_from_file (urls_file : str) (w : Run.world) :
  urls_file <> [] ->
  exists evs : list Run.event,
    Run.trace (run (UrlsFile urls_file) w).2 = Run.trace w ++ evs
    /\ Forall (fun ev => forall u : str,
                 ev = Run.ECall (Run.Get u) -> UrlsFile.clean_url u) evs.
Proof.
  intros _. unfold run, resolve_urls.
  destruct (UrlsFile.read_urls_from_file texts urls_file) as [urls|] eqn:E.
  - apply UrlsFile.read_urls_clean in E.
    destruct (Run.main_events browser uniform joinpath a can_open urls w)
      as (evs & T & F).
    exists evs. split; [exact T|]. eapply Forall_impl; [exact F|].
    intros ev [-> | [-> | [-> | (k & url & Hk & H)]]] u Hu;
      try discriminate Hu.
    subst ev. cbn in H. subst u.
    rewrite List.Forall_forall in E. apply E.
    apply list_elem_of_In. eapply list_elem_of_lookup_2. exact Hk.
  - exists []. split; [cbn; now rewrite app_nil_r | constructor].
Qed.

End Resolve.



Lemma run_from_file_witness :
  exists evs : list Run.event,
    Run.trace
      (run Resolver.urlparse_plain Resolver.urlunparse_plain
         Resolver.unquote_plain
         (<[UrlsFile.urls_txt := lit " https://a.b/c " ++ [UrlsFile.lf]]> ∅)
         Run.working Run.steady Run.join_slash Run.headless_args Pdf.any_path
         (UrlsFile UrlsFile.urls_txt) Run.fresh).2
    = Run.trace Run.fresh ++ evs
    /\ Forall (fun ev => forall u : str,
                 ev = Run.ECall (Run.Get u) -> UrlsFile.clean_url u) evs.
Proof.
  apply (run_from_file Resolver.urlparse_plain Resolver.urlunparse_plain
           Resolver.unquote_plain
           (<[UrlsFile.urls_txt := lit " https://a.b/c " ++ [UrlsFile.lf]]> ∅)
           Run.working Run.steady Run.join_slash Run.headless_args Pdf.any_path
           UrlsFile.urls_txt Run.fresh).
  discriminate.
Defined.

Example run_from_padded_line :
  let ow := run Resolver.urlparse_plain Resolver.urlunparse_plain
              Resolver.unquote_plain
              (<[UrlsFile.urls_txt := lit " https://a.b/c " ++ [UrlsFile.lf]]> ∅)
              Run.working Run.steady Run.join_slash Run.headless_args Pdf.any_path
              (UrlsFile UrlsFile.urls_txt) Run.fresh in
  ow.1 = Run.Completed
  /\ Run.pdf_paths ow.2 = [Run.join_slash Run.pdf_pages (lit "001_a.b_c.pdf")].
Proof. vm_compute. split; reflexivity. Qed.

End Program.
